(** * Hybrid RLE / bit-packed codec and block-level trace lookup

    A shallow embedding of
    - package [rle] (vendor/github.com/segmentio/parquet-go/encoding/rle):
      the run-length / bit-packed hybrid encoders and decoders;
    - package [vparquet] (tempodb/encoding/vparquet): the row-group probe
      [findTraceByID], [binarySearch] and [FindTraceByID].

    Conventions.  A Go [byte] is a [Z] in [0, 256); a [uint64], [uint32]
    and [uint] value is a [Z] with the wrap-around written out; an [int32]
    is a [Z] in [-2^31, 2^31).  A Go slice is the list of its visible
    elements; where the capacity of a slice decides what the code does
    (one place, in [decodeInt32]) the bytes of the backing array past
    [len] are carried next to it.  A function that returns [(dst, err)]
    returns an [outcome]; a run-time panic is an outcome of its own. *)

From Stdlib Require Import String Ascii OrderedTypeEx.
From Stdlib Require Import ZArith List Lia Bool Sorted.
Import ListNotations.
Local Open Scope Z_scope.

(* ================================================================= *)
(** ** Slices *)

Definition len {A : Type} (l : list A) : Z := Z.of_nat (length l).

(** [s[:n]], [s[n:]] and [n] copies of [x], for a Go [int] [n]. *)
Definition take {A : Type} (n : Z) (l : list A) : list A := firstn (Z.to_nat n) l.
Definition drop {A : Type} (n : Z) (l : list A) : list A := skipn (Z.to_nat n) l.
Definition replicate {A : Type} (n : Z) (x : A) : list A := repeat x (Z.to_nat n).

(** Conversions of Go: truncation to the width of the target type. *)
Definition uint64 (x : Z) : Z := x mod 2 ^ 64.
Definition uint (x : Z) : Z := x mod 2 ^ 64.
Definition uint32 (x : Z) : Z := x mod 2 ^ 32.
Definition byte (x : Z) : Z := x mod 2 ^ 8.

(** [int32(x)] of a 32-bit pattern: two's complement. *)
Definition int32 (x : Z) : Z :=
  let u := uint32 x in if u <? 2 ^ 31 then u else u - 2 ^ 32.

(** Little-endian bytes: [binary.LittleEndian.PutUint32/PutUint64] write
    [le_bytes 4] / [le_bytes 8]; [binary.LittleEndian.Uint32] reads
    [le_combine] of four bytes. *)
Fixpoint le_bytes (n : nat) (x : Z) : list Z :=
  match n with
  | O => []
  | S n' => x mod 256 :: le_bytes n' (x / 256)
  end.

Fixpoint le_combine (bs : list Z) : Z :=
  match bs with
  | [] => 0
  | b :: bs' => b + 256 * le_combine bs'
  end.

(** A well-formed byte slice. *)
Definition is_byte (b : Z) : Prop := 0 <= b < 256.
Definition bytes (l : list Z) : Prop := Forall is_byte l.

(* ================================================================= *)
(** ** encoding/binary: unsigned LEB128 *)

Module binary.

Definition MaxVarintLen64 : Z := 10.

(** Modelled from the spec: the run header is "an unsigned LEB128
    (variable-length unsigned varint)"; [binary.PutUvarint] and
    [binary.Uvarint] belong to Go's standard library, which is not a part
    of src/.  [PutUvarint x] is the bytes written (their number is the
    returned [n]): seven bits a byte, least significant first, the high
    bit set on all but the last.  A [uint64] takes at most ten bytes, so
    nine continuation bytes are enough fuel. *)
Fixpoint PutUvarint_loop (fuel : nat) (x : Z) : list Z :=
  match fuel with
  | O => [byte x]
  | S f =>
      if 128 <=? x
      then Z.lor (byte x) 128 :: PutUvarint_loop f (Z.shiftr x 7)
      else [byte x]
  end.

Definition PutUvarint (x : Z) : list Z := PutUvarint_loop 9 x.

(** Modelled from the spec: the reader of the same varint
    ([binary.Uvarint]).  [Uvarint buf] is [(value, n)]: [n > 0] bytes read, [n = 0] when the
    buffer ends inside the varint, [n < 0] when the value overflows 64
    bits ([-n] bytes were read).  [i] is the index of the byte at the head
    of [buf], [x] the value so far and [s] its number of bits. *)
Fixpoint Uvarint_loop (buf : list Z) (i : Z) (x : Z) (s : Z) : Z * Z :=
  match buf with
  | [] => (0, 0)
  | b :: buf' =>
      if i =? MaxVarintLen64 then (0, - (i + 1))
      else if b <? 128 then
        if (i =? MaxVarintLen64 - 1) && (1 <? b) then (0, - (i + 1))
        else (Z.lor x (uint64 (Z.shiftl b s)), i + 1)
      else Uvarint_loop buf' (i + 1) (Z.lor x (uint64 (Z.shiftl (Z.land b 127) s))) (s + 7)
  end.

Definition Uvarint (buf : list Z) : Z * Z := Uvarint_loop buf 0 0 0.

End binary.

(* ================================================================= *)
(** ** internal/bitpack *)

Module bitpack.

(** Modelled from the spec: "ceil(bit_width/8)" bytes hold [bitCount]
    bits ([bitpack.ByteCount] is not a part of src/). *)
Definition ByteCount (bitCount : Z) : Z := (bitCount + 7) / 8.

(** Modelled from the spec: BitPacker (4.1), "bit i of value j lands at
    absolute bit position j*w + i (LSB-first within each byte)"; the
    packing routines ([bitpack.PackInt32], [bitpack.UnpackInt32] and the
    assembly [encodeBytesBitpack], [decodeBytesBitpack]) are not a part of
    src/.  [packBits w vs] is the bit stream as a number: value [j]
    truncated to [w] bits sits at bits [j*w .. j*w + w - 1]. *)
Fixpoint packBits (w : Z) (vs : list Z) : Z :=
  match vs with
  | [] => 0
  | v :: vs' => v mod 2 ^ w + 2 ^ w * packBits w vs'
  end.

Fixpoint unpackBits (w : Z) (n : nat) (x : Z) : list Z :=
  match n with
  | O => []
  | S n' => x mod 2 ^ w :: unpackBits w n' (x / 2 ^ w)
  end.

(** Modelled from the spec: [pack vs w] is the [ByteCount (len vs * w)]
    bytes of the stream, "exactly k*w bytes" for [8*k] values. *)
Definition pack (vs : list Z) (w : Z) : list Z :=
  le_bytes (Z.to_nat (ByteCount (len vs * w))) (packBits w vs).

(** Modelled from the spec: [unpack n inb w] is "the exact inverse",
    the first [n] values of width [w] held by [inb];
    bytes of [inb] past the last bit read (the padding that lets the
    unpacker use wide loads) do not matter. *)
Definition unpack (n : Z) (inb : list Z) (w : Z) : list Z :=
  unpackBits w (Z.to_nat n) (le_combine inb).

End bitpack.

(* ================================================================= *)
(** ** Package rle *)

Module rle.

Definition maxSupportedValueCount : Z := 16 * 1024 * 1024.

(** The errors of the package, by the kind the specification names.
    - [TruncatedHeader]: "decoding run-length block header: unexpected EOF"
    - [HeaderOverflow]: "overflow after decoding %d/%d bytes of run-length
      block header"
    - [CountTooLarge]: "decoded run-length block cannot have more than %d
      values"
    - [TruncatedBody]: "decoding bit-packed block of %d values: unexpected
      EOF" and "decoding run-length block of %d values: unexpected EOF"
    - [InvalidBitWidth]: "cannot encode/decode %s with invalid bit-width=%d"
    - [InvalidInputSize]: [encoding.ErrEncodeInvalidInputSize]
    - [ShortInput]: "input shorter than 4 bytes: unexpected EOF"
    - [ShortPrefix]: "input shorter than length prefix: %d < %d:
      unexpected EOF" *)
Inductive error : Type :=
| TruncatedHeader | HeaderOverflow | CountTooLarge | TruncatedBody
| InvalidBitWidth | InvalidInputSize | ShortInput | ShortPrefix.

(** What a call does: [return dst, nil], [return dst, err], a run-time
    panic, or (for a loop of the embedding) running out of fuel, which
    the theorems show does not happen. *)
Inductive outcome : Type :=
| Ok (dst : list Z)
| Err (e : error) (dst : list Z)
| Panic
| OutOfFuel.

(** *** Helpers *)

Definition isZero (data : list Z) : bool := forallb (fun b => b =? 0) data.
Definition isOnes (data : list Z) : bool := forallb (fun b => b =? 255) data.

Definition broadcast8x1 (v : Z) : Z :=
  uint64 (Z.land v 255 * 0x0101010101010101).

Definition broadcast8x4 (v : Z) : list Z := [v; v; v; v; v; v; v; v].

Definition appendUvarint (dst : list Z) (u : Z) : list Z :=
  dst ++ binary.PutUvarint u.

(** [uint64(n) << 1] and [uint64(n << 1) | 1]. *)
Definition rleHeader (count : Z) : Z := uint64 (Z.shiftl (uint64 count) 1).
Definition bitPackedHeader (n : Z) : Z := Z.lor (uint64 (Z.shiftl n 1)) 1.

Definition appendRunLengthBytes (dst : list Z) (count : Z) (value : Z) : list Z :=
  dst ++ binary.PutUvarint (rleHeader count) ++ [value].

Definition appendRunLengthBits (dst : list Z) (count : Z) (value : Z) : list Z :=
  appendRunLengthBytes dst count value.

Definition appendBitPackedBits (dst : list Z) (words : list Z) : list Z :=
  dst ++ binary.PutUvarint (bitPackedHeader (len words)) ++ words.

(** The [uint64] view of [src] that [unsafe.Slice] gives, [len(src)/8]
    words long: [n] little-endian words over the first [8*n] bytes. *)
Fixpoint BytesToUint64 (n : nat) (src : list Z) : list Z :=
  match n with
  | O => []
  | S n' => le_combine (firstn 8 src) :: BytesToUint64 n' (skipn 8 src)
  end.

(** Modelled from the spec: the assembly routine [encodeBytesBitpack]
    (declared in rle_amd64.go, its body is not a part of src/) packs the
    eight bytes of each word at [bitWidth] bits a value and returns the
    number of bytes written. *)
Definition encodeBytesBitpack (words : list Z) (bitWidth : Z) : list Z :=
  bitpack.pack (flat_map (le_bytes 8) words) bitWidth.

(** Modelled from the spec: the assembly routine [decodeBytesBitpack]
    (declared in rle_amd64.go, its body is not a part of src/) unpacks
    [count] values of [bitWidth] bits from [src], one to a byte. *)
Definition decodeBytesBitpack (src : list Z) (count bitWidth : Z) : list Z :=
  bitpack.unpack count src bitWidth.

Definition appendBitPackedBytes (dst : list Z) (words : list Z) (bitWidth : Z) : list Z :=
  dst ++ binary.PutUvarint (bitPackedHeader (len words))
      ++ encodeBytesBitpack words bitWidth.

(** The value is written as four little-endian bytes, of which
    [ByteCount bitWidth] are kept. *)
Definition appendRunLengthInt32 (dst : list Z) (count : Z) (value : Z) (bitWidth : Z) : list Z :=
  dst ++ binary.PutUvarint (rleHeader count)
      ++ take (bitpack.ByteCount bitWidth) (le_bytes 4 (uint32 value)).

(** [unsafecast.Int32ToBytes] and [unsafecast.BytesToInt32]. *)
Definition Int32ToBytes (src : list Z) : list Z :=
  flat_map (fun v => le_bytes 4 (uint32 v)) src.

Fixpoint BytesToInt32 (n : nat) (src : list Z) : list Z :=
  match n with
  | O => []
  | S n' => int32 (le_combine (firstn 4 src)) :: BytesToInt32 n' (skipn 4 src)
  end.

(** The [[8]int32] view of [src] that [unsafe.Slice] gives, [len(src)/8]
    words long. *)
Fixpoint Int32ToWords (n : nat) (src : list Z) : list (list Z) :=
  match n with
  | O => []
  | S n' => firstn 8 src :: Int32ToWords n' (skipn 8 src)
  end.

Definition wordEq (a b : list Z) : bool :=
  if list_eq_dec Z.eq_dec a b then true else false.

Definition encodeInt32BitpackDefault (src : list (list Z)) (bitWidth : Z) : list Z :=
  bitpack.pack (concat src) bitWidth.

(** The function variable [encodeInt32Bitpack] is bound at start-up to
    the AVX2 routine or to [encodeInt32BitpackDefault]; the two write the
    same bytes. *)
Definition encodeInt32Bitpack := encodeInt32BitpackDefault.

(** Modelled from the spec: the assembly routine behind
    [encodeInt32IndexEqual8Contiguous] (its body is not a part of src/)
    returns the index of the first word that is a constant group, or the
    number of words when there is none: the bit-packed run is extended
    "while the next group is not a constant group". *)
Fixpoint encodeInt32IndexEqual8Contiguous (words : list (list Z)) : Z :=
  match words with
  | [] => 0
  | w :: words' =>
      if wordEq w (broadcast8x4 (hd 0 w)) then 0
      else 1 + encodeInt32IndexEqual8Contiguous words'
  end.

Definition appendBitPackedInt32 (dst : list Z) (words : list (list Z)) (bitWidth : Z) : list Z :=
  dst ++ binary.PutUvarint (bitPackedHeader (len words))
      ++ encodeInt32Bitpack words bitWidth.

(** [appendRepeat]: the pattern is copied once, then the filled region is
    doubled until [count * len(pattern)] bytes are there.  [filled] is
    [dst[offset:i]] and [total] the length to reach. *)
Fixpoint appendRepeat_loop (fuel : nat) (filled : list Z) (total : Z) : list Z :=
  match fuel with
  | O => filled
  | S f =>
      if len filled <? total
      then appendRepeat_loop f (filled ++ take (total - len filled) filled) total
      else filled
  end.

Definition appendRepeat (dst pattern : list Z) (count : Z) : list Z :=
  let length := count * len pattern in
  dst ++ appendRepeat_loop (Z.to_nat length) (take length pattern) length.

(** *** Loops over a slice

    A Go loop [for j < len(s) && p(s[j]) { j++ }] that starts at the head
    of [l]: the number of steps. *)
Fixpoint indexWhile {A : Type} (p : A -> bool) (l : list A) : Z :=
  match l with
  | [] => 0
  | x :: l' => if p x then 1 + indexWhile p l' else 0
  end.

(** The same for a condition [p(s[j-1], s[j])] on neighbours; [prev] is
    the element before the head of [l]. *)
Fixpoint indexWhile2 {A : Type} (p : A -> A -> bool) (prev : A) (l : list A) : Z :=
  match l with
  | [] => 0
  | x :: l' => if p prev x then 1 + indexWhile2 p x l' else 0
  end.

(** *** Encoders *)

(** The main loop of [encodeBits]; [src] is [src[i:]]. *)
Fixpoint encodeBits_loop (fuel : nat) (dst src : list Z) : list Z :=
  match fuel, src with
  | S f, b :: rest =>
      let n := if (b =? 0) || (b =? 255) then 1 + indexWhile (Z.eqb b) rest else 1 in
      if ((b =? 0) || (b =? 255)) && (1 <? n)
      then encodeBits_loop f (appendRunLengthBits dst (8 * n) b) (drop n src)
      else
        let m := 1 + indexWhile2
                       (fun p c => negb (p =? c) || (negb (c =? 0) && (c =? 255)))
                       b rest in
        let m := if (1 <? m) && (m <? len src) then m - 1 else m in
        encodeBits_loop f (appendBitPackedBits dst (take m src)) (drop m src)
  | _, _ => dst
  end.

Definition encodeBits (dst src : list Z) : outcome :=
  if (len src =? 0) || isZero src || isOnes src then
    let dst := appendUvarint dst (rleHeader (8 * len src)) in
    Ok (match src with [] => dst | b :: _ => dst ++ [b] end)
  else Ok (encodeBits_loop (length src) dst src).

(** The loop of [encodeBytes] over the 8-byte words; [words] is
    [words[i:]]. *)
Fixpoint encodeBytes_words (fuel : nat) (dst words : list Z) (bitWidth : Z) : list Z :=
  match fuel, words with
  | S f, w0 :: rest =>
      let pattern := broadcast8x1 w0 in
      let j := indexWhile (Z.eqb pattern) words in
      if 0 <? j
      then encodeBytes_words f (appendRunLengthBytes dst (8 * j) (byte pattern))
                             (drop j words) bitWidth
      else
        let j := 1 + indexWhile2 (fun p c => negb (c =? broadcast8x1 p)) w0 rest in
        encodeBytes_words f (appendBitPackedBytes dst (take j words) bitWidth)
                          (drop j words) bitWidth
  | _, _ => dst
  end.

(** The loop over the tail of fewer than eight values; [src] is
    [src[i:]]. *)
Fixpoint encodeBytes_tail (fuel : nat) (dst src : list Z) : list Z :=
  match fuel, src with
  | S f, b :: rest =>
      let n := 1 + indexWhile (Z.eqb b) rest in
      encodeBytes_tail f (appendRunLengthBytes dst n b) (drop n src)
  | _, _ => dst
  end.

Definition encodeBytes (dst src : list Z) (bitWidth : Z) : outcome :=
  if 8 <? bitWidth then Err InvalidBitWidth dst
  else if bitWidth =? 0 then
    if negb (isZero src) then Err InvalidBitWidth dst
    else Ok (appendUvarint dst (rleHeader (len src)))
  else
    let dst :=
      if 8 <=? len src then
        let words := BytesToUint64 (Z.to_nat (len src / 8)) src in
        encodeBytes_words (length words) dst words bitWidth
      else dst in
    let tail := drop (len src / 8 * 8) src in
    Ok (encodeBytes_tail (length tail) dst tail).

Fixpoint encodeInt32_words (fuel : nat) (dst : list Z) (words : list (list Z))
    (bitWidth : Z) : list Z :=
  match fuel, words with
  | S f, w0 :: rest =>
      let pattern := broadcast8x4 (hd 0 w0) in
      let j := indexWhile (wordEq pattern) words in
      if 0 <? j
      then encodeInt32_words f (appendRunLengthInt32 dst (8 * j) (hd 0 pattern) bitWidth)
                             (drop j words) bitWidth
      else
        let j := 1 + encodeInt32IndexEqual8Contiguous rest in
        encodeInt32_words f (appendBitPackedInt32 dst (take j words) bitWidth)
                          (drop j words) bitWidth
  | _, _ => dst
  end.

Fixpoint encodeInt32_tail (fuel : nat) (dst src : list Z) (bitWidth : Z) : list Z :=
  match fuel, src with
  | S f, v :: rest =>
      let n := 1 + indexWhile (Z.eqb v) rest in
      encodeInt32_tail f (appendRunLengthInt32 dst n v bitWidth) (drop n src) bitWidth
  | _, _ => dst
  end.

Definition encodeInt32 (dst src : list Z) (bitWidth : Z) : outcome :=
  if 32 <? bitWidth then Err InvalidBitWidth dst
  else if bitWidth =? 0 then
    if negb (isZero (Int32ToBytes src)) then Err InvalidBitWidth dst
    else Ok (appendUvarint dst (rleHeader (len src)))
  else
    let dst :=
      if 8 <=? len src then
        let words := Int32ToWords (Z.to_nat (len src / 8)) src in
        encodeInt32_words (length words) dst words bitWidth
      else dst in
    let tail := drop (len src / 8 * 8) src in
    Ok (encodeInt32_tail (length tail) dst tail bitWidth).

(** *** Decoders

    The state of a decoding loop is [(dst, i)]; the body reads [src[i:]]
    only, so the embedding carries that suffix.  One turn of the loop
    either goes on with a new state or returns. *)
Inductive iter : Type :=
| Next (dst rest : list Z)
| Stop (r : outcome).

(** [for i < len(src) { body }]. *)
Fixpoint decodeLoop (body : list Z -> list Z -> iter) (fuel : nat)
    (dst src : list Z) : outcome :=
  match src with
  | [] => Ok dst
  | _ :: _ =>
      match fuel with
      | O => OutOfFuel
      | S f =>
          match body dst src with
          | Next dst' rest => decodeLoop body f dst' rest
          | Stop r => r
          end
      end
  end.

(** The head of every loop body: the run header.  [k count bitpacked
    rest] is the rest of the body, [rest] being [src[i:]] after
    [i += n]. *)
Definition withHeader (dst src : list Z) (k : Z -> bool -> list Z -> iter) : iter :=
  let (u, n) := binary.Uvarint src in
  if n =? 0 then Stop (Err TruncatedHeader dst)
  else if n <? 0 then Stop (Err HeaderOverflow dst)
  else
    let count := Z.shiftr u 1 in
    let bitpacked := negb (Z.land u 1 =? 0) in
    if maxSupportedValueCount <? count then Stop (Err CountTooLarge dst)
    else k count bitpacked (drop n src).

Definition decodeBits_body (dst src : list Z) : iter :=
  withHeader dst src (fun count bitpacked src =>
    if bitpacked then
      let n := count in
      if len src <? n then Stop (Err TruncatedBody dst)
      else Next (dst ++ take n src) (drop n src)
    else
      let '(word, src) := match src with [] => (0, src) | b :: src' => (b, src') end in
      Next (dst ++ replicate (bitpack.ByteCount count) word) src).

Definition decodeBits (dst src : list Z) : outcome :=
  decodeLoop decodeBits_body (length src) dst src.

Definition decodeBytes_body (bitWidth : Z) (dst src : list Z) : iter :=
  withHeader dst src (fun count bitpacked src =>
    if bitpacked then
      let count := count * 8 in
      let n := bitpack.ByteCount (count * bitWidth) in
      if len src <? n then Stop (Err TruncatedBody dst)
      else Next (dst ++ decodeBytesBitpack (take n src) count bitWidth) (drop n src)
    else
      if negb (bitWidth =? 0) && (len src <? 1) then Stop (Err TruncatedBody dst)
      else
        let '(word, src) :=
          if negb (bitWidth =? 0) then (hd 0 src, tl src) else (0, src) in
        Next (dst ++ replicate count word) src).

Definition decodeBytes (dst src : list Z) (bitWidth : Z) : outcome :=
  if 8 <? bitWidth then Err InvalidBitWidth dst
  else decodeLoop (decodeBytes_body bitWidth) (length src) dst src.

(** [spare] is the part of the backing array of [src] between [len(src)]
    and [cap(src)]: the slice expression [src[i : i+length]] is checked
    against the capacity, and panics past it.  The bytes that follow the
    payload in [in] (the rest of the array, or the padding of [buf]) are
    not read by the unpacker, and are left out. *)
Definition decodeInt32_body (bitWidth : Z) (spare : list Z) (dst src : list Z) : iter :=
  withHeader dst src (fun count bitpacked src =>
    if bitpacked then
      let length := count * bitWidth in
      if len src + len spare <? length then Stop Panic
      else
        let inb := take length (src ++ spare) in
        let out := bitpack.unpack (8 * count) inb bitWidth in
        Next (dst ++ Int32ToBytes out) (drop length src)
    else
      let n := bitpack.ByteCount bitWidth in
      if len src <? n then Stop (Err TruncatedBody dst)
      else
        let bits := take 4 (take n src ++ [0; 0; 0; 0]) in
        Next (appendRepeat dst bits count) (drop n src)).

Definition decodeInt32 (dst src spare : list Z) (bitWidth : Z) : outcome :=
  if 32 <? bitWidth then Err InvalidBitWidth dst
  else decodeLoop (decodeInt32_body bitWidth spare) (length src) dst src.

(** *** The methods of [Encoding]

    Every method starts from [dst[:0]], the empty slice; the bit width,
    an [int], is converted to [uint]. *)
Record Encoding : Type := { BitWidth : Z }.

Definition EncodeLevels (e : Encoding) (dst src : list Z) : outcome :=
  encodeBytes [] src (uint (BitWidth e)).

Definition EncodeBoolean (e : Encoding) (dst src : list Z) : outcome :=
  match encodeBits [0; 0; 0; 0] src with
  | Ok dst => Ok (le_bytes 4 (uint32 (uint32 (len dst) - 4)) ++ drop 4 dst)
  | r => r
  end.

Definition EncodeInt32 (e : Encoding) (dst src : list Z) : outcome :=
  if negb (len src mod 4 =? 0) then Err InvalidInputSize []
  else encodeInt32 [] (BytesToInt32 (Z.to_nat (len src / 4)) src) (uint (BitWidth e)).

Definition DecodeLevels (e : Encoding) (dst src : list Z) : outcome :=
  decodeBytes [] src (uint (BitWidth e)).

Definition DecodeBoolean (e : Encoding) (dst src : list Z) : outcome :=
  if len src =? 4 then Ok []
  else if len src <? 4 then Err ShortInput []
  else
    let n := le_combine (take 4 src) in
    let src := drop 4 src in
    if len src <? n then Err ShortPrefix []
    else decodeBits [] (take n src).

Definition DecodeInt32 (e : Encoding) (dst src spare : list Z) : outcome :=
  decodeInt32 [] src spare (uint (BitWidth e)).

End rle.

(* ================================================================= *)
(** ** Package vparquet *)

Module vparquet.

Definition SearchPrevious : Z := -1.
Definition SearchNext : Z := -2.
Definition NotFound : Z := -3.

(** [strings.Compare]. *)
Definition strings_Compare (a b : string) : Z :=
  match String.compare a b with
  | Lt => -1
  | Eq => 0
  | Gt => 1
  end.

(** An [error] value returned by a reader: [nil], [io.EOF], or another
    error, a failure of the read. *)
Inductive ioerr : Type := err_nil | io_EOF | err_other.

(** What a call does: return, panic (an index out of range), or, for a
    recursion of the embedding, run out of fuel. *)
Inductive go (A : Type) : Type :=
| ret (a : A)
| panic
| outOfFuel.
Arguments ret {A} a.
Arguments panic {A}.
Arguments outOfFuel {A}.

Definition bind {A B : Type} (m : go A) (k : A -> go B) : go B :=
  match m with
  | ret a => k a
  | panic => panic
  | outOfFuel => outOfFuel
  end.

Notation "x <- m ;; k" := (bind m (fun x => k))
  (at level 61, m at next level, right associativity).

(** A page of the trace-id column.  [Values] is the value reader of the
    page as a script: what the successive calls of [ReadValues] return,
    the values read (at most 1000, the size of the buffer) and the
    error.  Past the end of the script the reader returns [0, io.EOF]. *)
Record Page : Type := {
  Bounds : option (string * string);
  NumRows : Z;
  Values : list (list string * ioerr)
}.

(** The trace-id column chunk of a row group.  [BloomFilter] is the
    [exists] that [bf.Check] returns for a value, when the chunk has a
    filter; [Pages] is the page reader as a script of what [ReadPage]
    returns, [(nil, io.EOF)] past its end. *)
Record ColumnChunk : Type := {
  BloomFilter : option (string -> bool);
  NumPages : Z;
  MinValue : Z -> string;
  MaxValue : Z -> string;
  Pages : list (option Page * ioerr)
}.

Record RowGroup : Type := {
  RowGroupNumRows : Z;
  TraceIDColumnChunk : ColumnChunk
}.

Record RowTracker : Type := {
  rgs : list RowGroup;
  startRowNum : list Z
}.

(** [s[idx]] of Go. *)
Definition index {A : Type} (l : list A) (idx : Z) : go A :=
  if (idx <? 0) || (len l <=? idx) then panic
  else match nth_error l (Z.to_nat idx) with
       | Some x => ret x
       | None => panic
       end.

(** The first [y] with [vs[y] == traceID]. *)
Fixpoint firstMatch (vs : list string) (traceID : string) (y : Z) : option Z :=
  match vs with
  | [] => None
  | v :: vs' =>
      if strings_Compare v traceID =? 0 then Some y
      else firstMatch vs' traceID (y + 1)
  end.

(** The inner loop over the batches of values of one page: [Some row]
    when the loop returns the row, [None] when it is left by [break]. *)
Fixpoint scanValues (reads : list (list string * ioerr)) (rowMatch : Z)
    (traceID : string) : option Z :=
  match reads with
  | [] => None
  | (vs, err) :: reads' =>
      match firstMatch vs traceID 0 with
      | Some y => Some (rowMatch + y)
      | None =>
          match err with
          | io_EOF => None
          | err_other => None
          | err_nil => scanValues reads' (rowMatch + len vs) traceID
          end
      end
  end.

(** The loop over the pages: the value returned and the pages left
    unread in the page reader. *)
Fixpoint scanPages (pages : list (option Page * ioerr)) (rowMatch : Z)
    (traceID : string) : Z * list (option Page * ioerr) :=
  match pages with
  | [] => (NotFound, [])
  | (None, _) :: rest => (NotFound, rest)
  | (Some _, io_EOF) :: rest => (NotFound, rest)
  | (Some pg, _) :: rest =>
      let scan :=
        match scanValues (Values pg) rowMatch traceID with
        | Some row => (row, rest)
        | None => (NotFound, rest)
        end in
      match Bounds pg with
      | Some (min, max) =>
          if strings_Compare traceID min <? 0 then (SearchPrevious, rest)
          else if strings_Compare max traceID <? 0
               then scanPages rest (rowMatch + NumRows pg) traceID
               else scan
      | None => scan
      end
  end.

(** The probe of one row group, from its first row number. *)
Definition probe (rg : RowGroup) (start : Z) (traceID : string)
    : Z * list (option Page * ioerr) :=
  let chunk := TraceIDColumnChunk rg in
  let rowMatch := start in
  let pages := Pages chunk in
  if match BloomFilter chunk with
     | Some bf => negb (bf traceID)
     | None => false
     end
  then (NotFound, pages)
  else
    let numPages := NumPages chunk in
    let min := MinValue chunk 0 in
    let max := MaxValue chunk (numPages - 1) in
    if strings_Compare traceID min <? 0 then (SearchPrevious, pages)
    else if strings_Compare max traceID <? 0 then (SearchNext, pages)
    else scanPages pages rowMatch traceID.

Definition findTraceByID (rt : RowTracker) (idx : Z) (traceID : string) : go Z :=
  rgIdx <- index (rgs rt) idx ;;
  rowMatch <- index (startRowNum rt) idx ;;
  ret (fst (probe rgIdx rowMatch traceID)).

Fixpoint binarySearch (fuel : nat) (rt : RowTracker) (start end_ : Z)
    (traceID : string) : go Z :=
  if end_ <? start then ret (-1)
  else
    match fuel with
    | O => outOfFuel
    | S f =>
        midResult <- findTraceByID rt (Z.quot (start + end_) 2) traceID ;;
        if midResult =? SearchPrevious
        then binarySearch f rt start (Z.quot (start + end_) 2 - 1) traceID
        else if midResult <? 0
             then binarySearch f rt (Z.quot (start + end_) 2 + 1) end_ traceID
             else ret midResult
    end.

(** The indices of the row groups that [binarySearch] probes, in the
    order of the calls of [findTraceByID]. *)
Fixpoint probed (fuel : nat) (rt : RowTracker) (start end_ : Z)
    (traceID : string) : list Z :=
  if end_ <? start then []
  else
    match fuel with
    | O => []
    | S f =>
        let mid := Z.quot (start + end_) 2 in
        mid ::
        match findTraceByID rt mid traceID with
        | ret midResult =>
            if midResult =? SearchPrevious
            then probed f rt start (mid - 1) traceID
            else if midResult <? 0
                 then probed f rt (mid + 1) end_ traceID
                 else []
        | _ => []
        end
    end.

(** The row groups of a file with their first row numbers, as the loop
    of [FindTraceByID] builds them. *)
Fixpoint startRows (rgs : list RowGroup) (rowCount : Z) : list Z :=
  match rgs with
  | [] => []
  | rg :: rgs' => rowCount :: startRows rgs' (rowCount + RowGroupNumRows rg)
  end.

Definition newRowTracker (rowGroups : list RowGroup) : RowTracker :=
  {| rgs := rowGroups; startRowNum := startRows rowGroups 0 |}.

(** The failures [FindTraceByID] returns, by the kind the specification
    names: "error retrieving bloom", "error parsing bloom", "error
    opening file in FindTraceByID", "error reading row from backend"
    (from [ReadRow] and from [Reconstruct]), and the error of
    [parquetTraceToTempopbTrace]. *)
Inductive failure : Type :=
| BloomUnavailable | BloomCorrupt | ColumnarOpenFailed | RowReadFailed
| SchemaMismatch | ConversionFailed.

Section Collaborators.

(** The collaborators of the block, outside this package: the trace id
    and its hex rendering, the bloom shard of the block reader, the
    parquet file and its row reader, the trace types. *)
Variables ID Row ParquetTrace Trace : Type.
Variable TraceIDToHexString : ID -> string.

Record File : Type := {
  RowGroups : list RowGroup;
  ReadRow : Z -> option Row;
  Reconstruct : Row -> option ParquetTrace
}.

(** [bloomRead] is what [b.r.Read] returns for the bloom shard ([None]:
    an error), [bloomParse] what [filter.ReadFrom] makes of the bytes,
    [OpenFile] what [parquet.OpenFile] returns. *)
Record backendBlock : Type := {
  bloomRead : ID -> option (list Z);
  bloomParse : list Z -> option (ID -> bool);
  OpenFile : option File;
  parquetTraceToTempopbTrace : ParquetTrace -> option Trace * option failure
}.

Definition checkBloom (b : backendBlock) (id : ID) : bool * option failure :=
  match bloomRead b id with
  | None => (false, Some BloomUnavailable)
  | Some bloomBytes =>
      match bloomParse b bloomBytes with
      | None => (false, Some BloomCorrupt)
      | Some filter => (filter id, None)
      end
  end.

Definition FindTraceByID (b : backendBlock) (id : ID)
    : go (option Trace * option failure) :=
  match checkBloom b id with
  | (_, Some err) => ret (None, Some err)
  | (false, None) => ret (None, None)
  | (true, None) =>
      let traceID := TraceIDToHexString id in
      match OpenFile b with
      | None => ret (None, Some ColumnarOpenFailed)
      | Some pf =>
          let numRowGroups := len (RowGroups pf) in
          let rt := newRowTracker (RowGroups pf) in
          rowMatch <- binarySearch (S (length (RowGroups pf))) rt 0 (numRowGroups - 1) traceID ;;
          if rowMatch <? 0 then ret (None, None)
          else
            match ReadRow pf rowMatch with
            | None => ret (None, Some RowReadFailed)
            | Some row =>
                match Reconstruct pf row with
                | None => ret (None, Some SchemaMismatch)
                | Some tr => ret (parquetTraceToTempopbTrace b tr)
                end
            end
      end
  end.

End Collaborators.

End vparquet.

(* ================================================================= *)
(** * Notions of the statements *)

Import rle.
Import vparquet.

(** ** Decoding loops *)

(** Every turn of the loop that goes on leaves less input. *)
Definition progress (body : list Z -> list Z -> iter) : Prop :=
  forall dst src dst' rest,
    src <> [] -> body dst src = Next dst' rest -> (length rest < length src)%nat.

(** The state of the loop after [k] turns, when none of them returns. *)
Fixpoint after (body : list Z -> list Z -> iter) (k : nat) (dst src : list Z)
    : option (list Z * list Z) :=
  match k with
  | O => Some (dst, src)
  | S k' =>
      match src with
      | [] => None
      | _ :: _ =>
          match body dst src with
          | Next dst' rest => after body k' dst' rest
          | Stop _ => None
          end
      end
  end.

(** [s] starts with the header of a run: [count] values (or groups of
    eight, in a bit-packed run), then [body]. *)
Definition runHeader (s : list Z) (count : Z) (bitpacked : bool) (body : list Z) : Prop :=
  exists u n,
    binary.Uvarint s = (u, n) /\ 0 < n /\
    count = Z.shiftr u 1 /\ bitpacked = negb (Z.land u 1 =? 0) /\ body = drop n s.

(** The decoding loop run from a state [(dst, src)]. *)
Definition decodeFrom (body : list Z -> list Z -> iter) (dst src : list Z) : outcome :=
  decodeLoop body (length src) dst src.

(** The values fit the bit width. *)
Definition fits (w : Z) (vs : list Z) : Prop := Forall (fun v => 0 <= v < 2 ^ w) vs.

(** The 32-bit patterns of the values fit the bit width. *)
Definition fits32 (w : Z) (vs : list Z) : Prop := Forall (fun v => uint32 v < 2 ^ w) vs.

(** A constant input one value longer than the cap of the decoder. *)
Definition tooLong : list Z := replicate (maxSupportedValueCount + 1) 0.

(** ** Trace lookup *)

(** The bounds of a page admit the id: the page is neither above it nor
    below it.  A page without bounds admits every id. *)
Definition admits (pg : Page) (traceID : string) : bool :=
  match Bounds pg with
  | Some (min, max) =>
      negb (strings_Compare traceID min <? 0) && negb (strings_Compare max traceID <? 0)
  | None => true
  end.

(** A value reader that does not fail: every call returns [nil], but the
    last, which may return [io.EOF] with or without values. *)
Fixpoint clean (reads : list (list string * ioerr)) : bool :=
  match reads with
  | [] => true
  | (_, err_nil) :: reads' => clean reads'
  | (_, io_EOF) :: reads' => match reads' with [] => true | _ :: _ => false end
  | (_, err_other) :: _ => false
  end.

(** The values of a page, in the order the reader gives them. *)
Definition pageValues (pg : Page) : list string := flat_map fst (Values pg).

(** Blocks to run the lookup on.  The trace ids are 32 hex digits. *)
Definition id1 : string := "00000000000000000000000000000001".
Definition id2 : string := "00000000000000000000000000000002".
Definition id3 : string := "00000000000000000000000000000003".
Definition id4 : string := "00000000000000000000000000000004".
Definition id5 : string := "00000000000000000000000000000005".

(** A page that holds [vs], read in one call, with its bounds. *)
Definition pageOf (vs : list string) : Page :=
  {| Bounds := Some (hd EmptyString vs, last vs EmptyString);
     NumRows := len vs;
     Values := [(vs, io_EOF)] |}.

(** A row group of one page that holds [vs], with or without a bloom
    filter on the column chunk. *)
Definition rowGroupOf (bloom : option (string -> bool)) (vs : list string) : RowGroup :=
  {| RowGroupNumRows := len vs;
     TraceIDColumnChunk :=
       {| BloomFilter := bloom;
          NumPages := 1;
          MinValue := fun _ => hd EmptyString vs;
          MaxValue := fun _ => last vs EmptyString;
          Pages := [(Some (pageOf vs), err_nil)] |} |}.

(** A bloom filter without false positives: it holds exactly [vs]. *)
Definition exactBloom (vs : list string) : string -> bool :=
  fun s => existsb (String.eqb s) vs.

(** Two pages, [id1; id3] and [id4; id5]. *)
Definition twoPages : list (option Page * ioerr) :=
  [(Some (pageOf [id1; id3]), err_nil); (Some (pageOf [id4; id5]), err_nil)].

(** Three row groups of one trace each, every column chunk with a bloom
    filter, and the same row groups without the filters. *)
Definition bloomedBlock : RowTracker :=
  newRowTracker [rowGroupOf (Some (exactBloom [id1])) [id1];
                 rowGroupOf (Some (exactBloom [id2])) [id2];
                 rowGroupOf (Some (exactBloom [id3])) [id3]].

Definition plainBlock : RowTracker :=
  newRowTracker [rowGroupOf None [id1]; rowGroupOf None [id2]; rowGroupOf None [id3]].

(** A block of one row group that holds [id1; id2; id3] in one page; in
    [unreadableBlock] the read of the values of the page fails.  The
    row read at [n] is [n], and so is the trace made of it. *)
Definition fileOf (rgs : list RowGroup) : File Z Z :=
  {| RowGroups := rgs; ReadRow := fun n => Some n; Reconstruct := fun row => Some row |}.

Definition blockOf (rgs : list RowGroup) : backendBlock string Z Z Z :=
  {| bloomRead := fun _ => Some [];
     bloomParse := fun _ => Some (fun _ => true);
     OpenFile := Some (fileOf rgs);
     parquetTraceToTempopbTrace := fun tr => (Some tr, None) |}.

Definition intactBlock : backendBlock string Z Z Z :=
  blockOf [rowGroupOf None [id1; id2; id3]].

Definition unreadablePage : Page :=
  {| Bounds := Some (id1, id3); NumRows := 3; Values := [([], err_other)] |}.

Definition unreadableBlock : backendBlock string Z Z Z :=
  blockOf [{| RowGroupNumRows := 3;
              TraceIDColumnChunk :=
                {| BloomFilter := None;
                   NumPages := 1;
                   MinValue := fun _ => id1;
                   MaxValue := fun _ => id3;
                   Pages := [(Some unreadablePage, err_nil)] |} |}].

(** The pages, the values of a row group and the values of a block, in
    the order of the rows. *)
Definition pagesOf (rg : RowGroup) : list Page :=
  flat_map (fun r => match fst r with Some pg => [pg] | None => [] end)
           (Pages (TraceIDColumnChunk rg)).

Definition rowGroupValues (rg : RowGroup) : list string :=
  flat_map pageValues (pagesOf rg).

Definition blockValues (rowGroups : list RowGroup) : list string :=
  flat_map rowGroupValues rowGroups.

(** The order of the trace ids: [strings.Compare] is negative. *)
Definition lt_id (a b : string) : Prop := String.compare a b = Lt.

(** A page that is read without a failure: it holds at least one value,
    its bounds are its first and its last value (the least and the
    greatest, in a sorted block) and its row count is the number of its
    values. *)
Definition wfPage (pg : Page) : Prop :=
  clean (Values pg) = true /\
  pageValues pg <> [] /\
  Bounds pg = Some (hd EmptyString (pageValues pg), last (pageValues pg) EmptyString) /\
  NumRows pg = len (pageValues pg).

(** A row group without a bloom filter on the trace-id column chunk,
    whose pages are read without a failure, and whose column index and
    row count are those of its values. *)
Definition wfRowGroup (rg : RowGroup) : Prop :=
  let chunk := TraceIDColumnChunk rg in
  BloomFilter chunk = None /\
  Pages chunk = map (fun pg => (Some pg, err_nil)) (pagesOf rg) /\
  pagesOf rg <> [] /\
  Forall wfPage (pagesOf rg) /\
  MinValue chunk 0 = hd EmptyString (rowGroupValues rg) /\
  MaxValue chunk (NumPages chunk - 1) = last (rowGroupValues rg) EmptyString /\
  RowGroupNumRows rg = len (rowGroupValues rg).

(** ** Outputs and buffers *)

(** The outcome [r] of a call that started from the empty slice, seen
    from a call that started from [dst]. *)
Definition prepend (dst : list Z) (r : outcome) : outcome :=
  match r with
  | Ok out => Ok (dst ++ out)
  | Err e out => Err e (dst ++ out)
  | Panic => Panic
  | OutOfFuel => OutOfFuel
  end.

Definition prependIter (dst : list Z) (it : iter) : iter :=
  match it with
  | Next d rest => Next (dst ++ d) rest
  | Stop r => Stop (prepend dst r)
  end.

(** ** Slices with their capacity: [resize] and [grow] of package rle *)

(** A byte slice together with its backing array: [array] is the array
    from the first byte of the slice up to its capacity, [slen] the
    length of the slice; the bytes of the slice are the first [slen]
    bytes of the array. *)
Record slice : Type := { array : list Z; slen : Z }.

Definition cap (buf : slice) : Z := len (array buf).
Definition contents (buf : slice) : list Z := take (slen buf) (array buf).

(** [int(x)]: two's complement on 64 bits. *)
Definition int (x : Z) : Z := (x + 2 ^ 63) mod 2 ^ 64 - 2 ^ 63.

(** [grow]: [make([]byte, size, newCap)] panics ([None]) for a negative
    length and for a length above the capacity, and gives zero bytes;
    [copy] copies as many bytes as the shorter of the two slices has. *)
Definition grow (buf : slice) (size : Z) : option slice :=
  let newCap := int (2 * cap buf) in
  let newCap := if newCap <? size then size else newCap in
  if (size <? 0) || (newCap <? size) then None
  else
    let newBuf := replicate newCap 0 in
    let n := Z.min size (slen buf) in
    Some {| array := take n (array buf) ++ drop n newBuf; slen := size |}.

(** [resize]: [buf[:size]] panics ([None]) for a negative [size]; a
    [size] above the capacity has gone to [grow]. *)
Definition resize (buf : slice) (size : Z) : option slice :=
  if cap buf <? size then grow buf size
  else if size <? 0 then None
  else Some {| array := array buf; slen := size |}.

(** ** Row counts *)

(** The row counts of the metadata of a row group are the numbers of
    values that its pages hold. *)
Definition countsRows (rg : RowGroup) : Prop :=
  RowGroupNumRows rg = len (rowGroupValues rg) /\
  Forall (fun pg => NumRows pg = len (pageValues pg)) (pagesOf rg).

(** ** Package querier *)

(** [strings.Contains] of the Go library (it is not a part of src/):
    [substr] is within [s]. *)
Fixpoint strings_Contains (s substr : string) : bool :=
  String.prefix substr s ||
  match s with
  | EmptyString => false
  | String _ s' => strings_Contains s' substr
  end.

(** An attribute of a span: a key and a value, which is a string or of
    another type, or missing ([nil]). *)
Inductive AnyValue : Type :=
| StringValue (s : string)
| BoolValue (b : bool)
| IntValue (i : Z)
| OtherValue.

Record KeyValue : Type := { Key : string; Value : option AnyValue }.

(** The getter of the generated code: the empty string for a value that
    is not a string and for [nil]. *)
Definition GetStringValue (v : option AnyValue) : string :=
  match v with
  | Some (StringValue s) => s
  | _ => EmptyString
  end.

(** [tags] is the map as its lookup; an element of [atts] is a pointer,
    [None] is [nil], whose field [Key] cannot be read. *)
Fixpoint searchAttributes (tags : string -> option string)
    (atts : list (option KeyValue)) : go bool :=
  match atts with
  | [] => ret false
  | None :: _ => panic
  | Some a :: atts' =>
      match tags (Key a) with
      | None => searchAttributes tags atts'
      | Some v =>
          if strings_Contains (GetStringValue (Value a)) v then ret true
          else searchAttributes tags atts'
      end
  end.

(* ================================================================= *)
(** * Properties of the codec *)

(** ** Slices *)

Lemma len_nonneg {A : Type} (l : list A) : 0 <= len l.
Proof. unfold len; lia. Qed.

Lemma len_nil {A : Type} : len (@nil A) = 0.
Proof. reflexivity. Qed.

Lemma len_cons {A : Type} (x : A) (l : list A) : len (x :: l) = 1 + len l.
Proof. unfold len; simpl length; lia. Qed.

Lemma len_app {A : Type} (l1 l2 : list A) : len (l1 ++ l2) = len l1 + len l2.
Proof. unfold len; rewrite length_app; lia. Qed.

Lemma len_drop {A : Type} (n : Z) (l : list A) :
  0 <= n <= len l -> len (drop n l) = len l - n.
Proof. unfold len, drop; intros H; rewrite length_skipn; lia. Qed.

Lemma len_take {A : Type} (n : Z) (l : list A) :
  0 <= n <= len l -> len (take n l) = n.
Proof. unfold len, take; intros H; rewrite length_firstn; lia. Qed.

Lemma length_drop_lt {A : Type} (n : Z) (l : list A) :
  0 < n -> l <> [] -> (length (drop n l) < length l)%nat.
Proof.
  unfold drop; intros Hn Hl; rewrite length_skipn.
  destruct l; [congruence | simpl length; lia].
Qed.

Lemma take_app_len {A : Type} (l1 l2 : list A) : take (len l1) (l1 ++ l2) = l1.
Proof.
  unfold take, len; rewrite Nat2Z.id, firstn_app, Nat.sub_diag, firstn_all.
  simpl; apply app_nil_r.
Qed.

Lemma drop_app_len {A : Type} (l1 l2 : list A) : drop (len l1) (l1 ++ l2) = l2.
Proof.
  unfold drop, len; rewrite Nat2Z.id, skipn_app, Nat.sub_diag, skipn_all.
  reflexivity.
Qed.

Lemma take_drop {A : Type} (n : Z) (l : list A) : take n l ++ drop n l = l.
Proof. apply firstn_skipn. Qed.

Lemma len_replicate {A : Type} (n : Z) (x : A) : 0 <= n -> len (replicate n x) = n.
Proof. unfold len, replicate; intros; rewrite repeat_length; lia. Qed.

(** ** The run header *)

Lemma Uvarint_loop_bound (buf : list Z) :
  forall i x s u n,
    0 <= i -> binary.Uvarint_loop buf i x s = (u, n) -> 0 < n ->
    i < n <= i + len buf.
Proof.
  induction buf as [|b buf IH]; simpl; intros i x s u n Hi H Hn.
  - inversion H; lia.
  - rewrite len_cons. pose proof (len_nonneg buf).
    destruct (i =? binary.MaxVarintLen64); [inversion H; lia|].
    destruct (b <? 128).
    + destruct (_ && _); inversion H; lia.
    + apply IH in H; lia.
Qed.

Lemma Uvarint_bound (buf : list Z) (u n : Z) :
  binary.Uvarint buf = (u, n) -> 0 < n -> 0 < n <= len buf.
Proof. intros H Hn; apply Uvarint_loop_bound in H; lia. Qed.

(** ** The decoding loops make progress and end *)

Lemma decodeLoop_fuel (body : list Z -> list Z -> iter) :
  progress body ->
  forall f1 f2 dst src,
    (length src <= f1)%nat -> (length src <= f2)%nat ->
    decodeLoop body f1 dst src = decodeLoop body f2 dst src.
Proof.
  intros Hp; induction f1 as [|f1 IH]; intros f2 dst src H1 H2.
  - destruct src; [destruct f2; reflexivity | simpl in H1; lia].
  - destruct src as [|b src]; [destruct f2; reflexivity|].
    destruct f2 as [|f2]; [simpl in H2; lia|].
    simpl. destruct (body dst (b :: src)) as [dst' rest|r] eqn:E; [|reflexivity].
    apply Hp in E; [|discriminate]. simpl in *. apply IH; lia.
Qed.

Lemma decodeLoop_after (body : list Z -> list Z -> iter) :
  progress body ->
  forall k f dst0 src dst s,
    after body k dst0 src = Some (dst, s) -> (length src <= f)%nat ->
    decodeLoop body f dst0 src = decodeLoop body (length s) dst s.
Proof.
  intros Hp; induction k as [|k IH]; intros f dst0 src dst s H Hf.
  - simpl in H; inversion H; subst. apply decodeLoop_fuel; auto.
  - simpl in H. destruct src as [|b src]; [discriminate|].
    destruct (body dst0 (b :: src)) as [dst' rest|r] eqn:E; [|discriminate].
    destruct f as [|f]; [simpl in Hf; lia|].
    simpl. rewrite E. apply IH; auto.
    apply Hp in E; [|discriminate]. simpl in *; lia.
Qed.

Lemma decodeLoop_total (body : list Z -> list Z -> iter) :
  progress body ->
  (forall dst src, body dst src <> Stop OutOfFuel) ->
  forall f dst src, (length src <= f)%nat -> decodeLoop body f dst src <> OutOfFuel.
Proof.
  intros Hp Hs; induction f as [|f IH]; intros dst src Hf.
  - destruct src; [discriminate | simpl in Hf; lia].
  - destruct src as [|b src]; [discriminate|].
    simpl. destruct (body dst (b :: src)) as [dst' rest|r] eqn:E.
    + apply IH. apply Hp in E; [|discriminate]. simpl in *; lia.
    + intros ->. eapply Hs; eauto.
Qed.

(** A loop whose body never panics does not panic. *)
Lemma decodeLoop_no_panic (body : list Z -> list Z -> iter) :
  (forall dst src, body dst src <> Stop Panic) ->
  forall f dst src, decodeLoop body f dst src <> Panic.
Proof.
  intros Hs; induction f as [|f IH]; intros dst src.
  - destruct src; discriminate.
  - destruct src as [|b src]; [discriminate|].
    simpl. destruct (body dst (b :: src)) as [dst' rest|r] eqn:E.
    + apply IH.
    + intros ->. eapply Hs; eauto.
Qed.

(** What [withHeader] does, by the cases of the header. *)
Lemma withHeader_cases (dst src : list Z) (k : Z -> bool -> list Z -> iter) :
  (withHeader dst src k = Stop (Err TruncatedHeader dst)) \/
  (withHeader dst src k = Stop (Err HeaderOverflow dst)) \/
  (withHeader dst src k = Stop (Err CountTooLarge dst)) \/
  (exists u n, binary.Uvarint src = (u, n) /\ 0 < n <= len src /\
               Z.shiftr u 1 <= maxSupportedValueCount /\
               withHeader dst src k =
                 k (Z.shiftr u 1) (negb (Z.land u 1 =? 0)) (drop n src)).
Proof.
  unfold withHeader. destruct (binary.Uvarint src) as [u n] eqn:E.
  destruct (Z.eqb_spec n 0); [auto|].
  destruct (Z.ltb_spec n 0); [auto|].
  destruct (Z.ltb_spec maxSupportedValueCount (Z.shiftr u 1)); [auto|].
  right; right; right. exists u, n. split; [reflexivity|].
  split; [apply (Uvarint_bound _ _ _ E); lia|]. split; [lia | reflexivity].
Qed.

Lemma withHeader_too_large (dst src : list Z) (k : Z -> bool -> list Z -> iter) (u n : Z) :
  binary.Uvarint src = (u, n) -> 0 < n -> maxSupportedValueCount < Z.shiftr u 1 ->
  withHeader dst src k = Stop (Err CountTooLarge dst).
Proof.
  intros E Hn Hc. unfold withHeader. rewrite E.
  destruct (Z.eqb_spec n 0); [lia|]. destruct (Z.ltb_spec n 0); [lia|].
  destruct (Z.ltb_spec maxSupportedValueCount (Z.shiftr u 1)); [reflexivity | lia].
Qed.

Lemma withHeader_ok (dst src : list Z) (k : Z -> bool -> list Z -> iter) (u n : Z) :
  binary.Uvarint src = (u, n) -> 0 < n -> Z.shiftr u 1 <= maxSupportedValueCount ->
  withHeader dst src k = k (Z.shiftr u 1) (negb (Z.land u 1 =? 0)) (drop n src).
Proof.
  intros E Hn Hc. unfold withHeader. rewrite E.
  destruct (Z.eqb_spec n 0); [lia|]. destruct (Z.ltb_spec n 0); [lia|].
  destruct (Z.ltb_spec maxSupportedValueCount (Z.shiftr u 1)); [lia | reflexivity].
Qed.

Lemma withHeader_progress (k : Z -> bool -> list Z -> iter) :
  (forall count bitpacked src dst' rest,
      k count bitpacked src = Next dst' rest -> (length rest <= length src)%nat) ->
  forall dst src dst' rest,
    src <> [] -> withHeader dst src k = Next dst' rest ->
    (length rest < length src)%nat.
Proof.
  intros Hk dst src dst' rest Hne H.
  destruct (withHeader_cases dst src k) as [E|[E|[E|(u & n & _ & Hn & _ & E)]]];
    rewrite E in H; try discriminate.
  apply Hk in H. pose proof (length_drop_lt n src ltac:(lia) Hne). lia.
Qed.

Lemma length_drop_le {A : Type} (n : Z) (l : list A) :
  (length (drop n l) <= length l)%nat.
Proof. unfold drop; rewrite length_skipn; lia. Qed.

Lemma decodeBits_progress : progress decodeBits_body.
Proof.
  unfold progress, decodeBits_body; intros dst src dst' rest Hne H.
  revert H; apply withHeader_progress; [|exact Hne].
  clear; intros count bitpacked src dst' rest H.
  destruct bitpacked.
  - destruct (len src <? count); inversion H; subst. apply length_drop_le.
  - destruct src as [|b src]; inversion H; subst; simpl; lia.
Qed.

Lemma decodeBytes_progress (w : Z) : progress (decodeBytes_body w).
Proof.
  unfold progress, decodeBytes_body; intros dst src dst' rest Hne H.
  revert H; apply withHeader_progress; [|exact Hne].
  clear; intros count bitpacked src dst' rest H.
  destruct bitpacked.
  - destruct (len src <? _); inversion H; subst. apply length_drop_le.
  - destruct (negb (w =? 0) && (len src <? 1)); [discriminate|].
    destruct (negb (w =? 0)); inversion H; subst; [|lia].
    destruct src; simpl; lia.
Qed.

Lemma decodeInt32_progress (w : Z) (spare : list Z) : progress (decodeInt32_body w spare).
Proof.
  unfold progress, decodeInt32_body; intros dst src dst' rest Hne H.
  revert H; apply withHeader_progress; [|exact Hne].
  clear; intros count bitpacked src dst' rest H.
  destruct bitpacked.
  - destruct (len src + len spare <? _); inversion H; subst. apply length_drop_le.
  - destruct (len src <? _); inversion H; subst. apply length_drop_le.
Qed.

(** ** Little-endian words *)

Lemma le_combine_le_bytes (n : nat) :
  forall x, le_combine (le_bytes n x) = x mod 256 ^ Z.of_nat n.
Proof.
  induction n as [|n IH]; intros x.
  - simpl. now rewrite Z.mod_1_r.
  - cbn [le_bytes le_combine]. rewrite IH, Nat2Z.inj_succ, Z.pow_succ_r by lia.
    rewrite Z.rem_mul_r by lia. reflexivity.
Qed.

Lemma length_le_bytes (n : nat) : forall x, length (le_bytes n x) = n.
Proof. induction n; intros; simpl; auto. Qed.

Lemma bytes_le_bytes (n : nat) : forall x, bytes (le_bytes n x).
Proof.
  induction n as [|n IH]; intros x; simpl; constructor; [|apply IH].
  unfold is_byte. apply Z.mod_pos_bound; lia.
Qed.

(** ** The encoders append to [dst] *)

Lemma encodeBits_loop_app (fuel : nat) :
  forall dst src, encodeBits_loop fuel dst src = dst ++ encodeBits_loop fuel [] src.
Proof.
  induction fuel as [|f IH]; intros dst src.
  - simpl. now rewrite app_nil_r.
  - destruct src as [|b rest]; [simpl; now rewrite app_nil_r|].
    cbn [encodeBits_loop].
    destruct (_ && _).
    + rewrite IH. rewrite (IH (appendRunLengthBits [] _ _)).
      unfold appendRunLengthBits, appendRunLengthBytes. now rewrite !app_assoc, ?app_nil_r.
    + rewrite IH. rewrite (IH (appendBitPackedBits [] _)).
      unfold appendBitPackedBits. simpl app. now rewrite !app_assoc.
Qed.

Lemma encodeBits_app (dst src : list Z) :
  exists body, encodeBits [] src = Ok body /\ encodeBits dst src = Ok (dst ++ body).
Proof.
  unfold encodeBits.
  destruct ((len src =? 0) || isZero src || isOnes src).
  - unfold appendUvarint. destruct src as [|b src].
    + eexists; split; reflexivity.
    + eexists; split; [reflexivity|]. simpl app. now rewrite app_assoc.
  - eexists; split; [reflexivity|]. now rewrite encodeBits_loop_app.
Qed.

(** ** Boolean pages *)

(** C10.  [DecodeBoolean] takes every input of exactly four bytes for an
    empty page, whatever the bytes are; an input of fewer than four bytes
    is an error, and so is an input whose length prefix is larger than the
    number of bytes that follow it; in both cases nothing is decoded. *)
Theorem DecodeBoolean_framing (e : Encoding) (dst src : list Z) :
  (len src = 4 -> DecodeBoolean e dst src = Ok []) /\
  (len src < 4 -> DecodeBoolean e dst src = Err ShortInput []) /\
  (4 < len src -> len (drop 4 src) < le_combine (take 4 src) ->
   DecodeBoolean e dst src = Err ShortPrefix []).
Proof.
  unfold DecodeBoolean. repeat split.
  - intros ->. reflexivity.
  - intros H. destruct (Z.eqb_spec (len src) 4); [lia|].
    destruct (Z.ltb_spec (len src) 4); [reflexivity | lia].
  - intros H1 H2. destruct (Z.eqb_spec (len src) 4); [lia|].
    destruct (Z.ltb_spec (len src) 4); [lia|].
    destruct (Z.ltb_spec (len (drop 4 src)) (le_combine (take 4 src)));
      [reflexivity | lia].
Qed.

Lemma DecodeBoolean_framing_witness :
  DecodeBoolean {| BitWidth := 1 |} [] [7; 1; 0; 0] = Ok [] /\
  DecodeBoolean {| BitWidth := 1 |} [] [0; 0; 0] = Err ShortInput [] /\
  DecodeBoolean {| BitWidth := 1 |} [] [3; 0; 0; 0; 5; 1] = Err ShortPrefix [].
Proof.
  split; [|split].
  - apply (proj1 (DecodeBoolean_framing {| BitWidth := 1 |} [] [7; 1; 0; 0])).
    reflexivity.
  - apply (proj1 (proj2 (DecodeBoolean_framing {| BitWidth := 1 |} [] [0; 0; 0]))).
    vm_compute; reflexivity.
  - apply (proj2 (proj2 (DecodeBoolean_framing {| BitWidth := 1 |} [] [3; 0; 0; 0; 5; 1])));
      vm_compute; reflexivity.
Defined.

(** C8, as the claim states it, fails: the encoding of the empty boolean
    stream is not the four zero bytes. *)
Lemma EncodeBoolean_empty_not_four_zero_bytes :
  EncodeBoolean {| BitWidth := 1 |} [] [] <> Ok [0; 0; 0; 0].
Proof. vm_compute. discriminate. Qed.

(** C8 (amended).  The empty boolean stream is encoded as the five bytes
    01 00 00 00 00: the body is the header of one run of zero values,
    and the prefix is its length, one.  The page of four zero bytes
    decodes to the empty stream.  For every input the encoder returns a
    page, whose first four bytes are the little-endian length of the
    body that follows them (as a 32-bit number), and the body is the
    encoding [encodeBits] gives. *)
Theorem EncodeBoolean_framing (e : Encoding) (dst src : list Z) :
  EncodeBoolean e dst [] = Ok [1; 0; 0; 0; 0] /\
  DecodeBoolean e dst [0; 0; 0; 0] = Ok [] /\
  exists body,
    encodeBits [] src = Ok body /\
    EncodeBoolean e dst src = Ok (le_bytes 4 (uint32 (len body)) ++ body) /\
    le_combine (le_bytes 4 (uint32 (len body))) = uint32 (len body).
Proof.
  split; [reflexivity|]. split; [reflexivity|].
  destruct (encodeBits_app [0; 0; 0; 0] src) as (body & Hb & Hd).
  exists body. split; [exact Hb|]. unfold EncodeBoolean. rewrite Hd. split.
  - rewrite len_app. change (len [0; 0; 0; 0]) with 4. unfold uint32.
    rewrite Zminus_mod_idemp_l.
    replace (4 + len body - 4) with (len body) by lia. reflexivity.
  - rewrite le_combine_le_bytes. unfold uint32.
    change (256 ^ Z.of_nat 4) with (2 ^ 32). apply Z.mod_mod. lia.
Qed.

(** ** Where a decoding loop stops *)

Lemma decodeLoop_stop (body : list Z -> list Z -> iter) (k : nat)
    (dst0 src dst s : list Z) (r : outcome) :
  progress body ->
  after body k dst0 src = Some (dst, s) -> s <> [] -> body dst s = Stop r ->
  decodeLoop body (length src) dst0 src = r.
Proof.
  intros Hp Ha Hs Hb.
  rewrite (decodeLoop_after body Hp k _ dst0 src dst s Ha) by lia.
  destruct s as [|b s]; [congruence|]. simpl. now rewrite Hb.
Qed.

Lemma decodeLoop_last (body : list Z -> list Z -> iter) (k : nat)
    (dst0 src dst s dst' : list Z) :
  progress body ->
  after body k dst0 src = Some (dst, s) -> s <> [] -> body dst s = Next dst' [] ->
  decodeLoop body (length src) dst0 src = Ok dst'.
Proof.
  intros Hp Ha Hs Hb.
  rewrite (decodeLoop_after body Hp k _ dst0 src dst s Ha) by lia.
  destruct s as [|b s]; [congruence|]. simpl. rewrite Hb. now destruct (length s).
Qed.

Lemma runHeader_nonempty (s : list Z) (count : Z) (bitpacked : bool) (body : list Z) :
  runHeader s count bitpacked body -> s <> [].
Proof.
  intros (u & n & E & Hn & _) ->. apply Uvarint_bound in E; [|exact Hn].
  unfold len in E; simpl in E. lia.
Qed.

Lemma withHeader_runHeader (dst s : list Z) (k : Z -> bool -> list Z -> iter)
    (count : Z) (bitpacked : bool) (body : list Z) :
  runHeader s count bitpacked body ->
  withHeader dst s k =
    if maxSupportedValueCount <? count then Stop (Err CountTooLarge dst)
    else k count bitpacked body.
Proof.
  intros (u & n & E & Hn & -> & -> & ->).
  destruct (Z.ltb_spec maxSupportedValueCount (Z.shiftr u 1)).
  - eapply withHeader_too_large; eauto.
  - eapply withHeader_ok; eauto.
Qed.

(** C6.  When the decoding loop, after any number of runs, comes to a
    run whose header declares a count above [maxSupportedValueCount]
    (16 * 2^20), the decoder returns the error [CountTooLarge], and the
    output is the one the loop had before that run: nothing of the run is
    written.  This holds for [decodeBits], [decodeBytes] and
    [decodeInt32]. *)
Theorem count_above_cap_is_rejected (w : Z) (spare dst0 src : list Z) (k : nat)
    (dst s body : list Z) (count : Z) (bitpacked : bool) :
  runHeader s count bitpacked body ->
  maxSupportedValueCount < count ->
  (after decodeBits_body k dst0 src = Some (dst, s) ->
   decodeBits dst0 src = Err CountTooLarge dst) /\
  (w <= 8 -> after (decodeBytes_body w) k dst0 src = Some (dst, s) ->
   decodeBytes dst0 src w = Err CountTooLarge dst) /\
  (w <= 32 -> after (decodeInt32_body w spare) k dst0 src = Some (dst, s) ->
   decodeInt32 dst0 src spare w = Err CountTooLarge dst).
Proof.
  intros Hh Hc. pose proof (runHeader_nonempty _ _ _ _ Hh) as Hs.
  assert (Hw : forall kk, withHeader dst s kk = Stop (Err CountTooLarge dst)).
  { intros kk. rewrite (withHeader_runHeader _ _ _ _ _ _ Hh).
    destruct (Z.ltb_spec maxSupportedValueCount count); [reflexivity | lia]. }
  repeat split.
  - intros Ha. unfold decodeBits.
    apply (decodeLoop_stop _ k _ _ dst s); auto using decodeBits_progress.
    apply Hw.
  - intros H8 Ha. unfold decodeBytes.
    destruct (Z.ltb_spec 8 w); [lia|].
    apply (decodeLoop_stop _ k _ _ dst s); auto using decodeBytes_progress.
    apply Hw.
  - intros H32 Ha. unfold decodeInt32.
    destruct (Z.ltb_spec 32 w); [lia|].
    apply (decodeLoop_stop _ k _ _ dst s); auto using decodeInt32_progress.
    apply Hw.
Qed.

(** The input of the specification's scenario: after one run of eight
    zeros, a header FF FF FF FF 0F, which declares 2^31 - 1 values. *)
Lemma count_above_cap_is_rejected_witness :
  decodeBits [] [16; 0; 255; 255; 255; 255; 15; 1] = Err CountTooLarge [0] /\
  decodeBytes [] [16; 0; 255; 255; 255; 255; 15; 1] 8
    = Err CountTooLarge [0; 0; 0; 0; 0; 0; 0; 0] /\
  decodeInt32 [] [16; 0; 255; 255; 255; 255; 15; 1] [] 8
    = Err CountTooLarge (Int32ToBytes [0; 0; 0; 0; 0; 0; 0; 0]).
Proof.
  assert (Hh : runHeader [255; 255; 255; 255; 15; 1] (2 ^ 31 - 1) true [1]).
  { exists (2 ^ 32 - 1), 5. vm_compute. repeat split; reflexivity. }
  assert (Hc : maxSupportedValueCount < 2 ^ 31 - 1) by (vm_compute; reflexivity).
  split; [|split].
  - apply (proj1 (count_above_cap_is_rejected 8 [] [] [16; 0; 255; 255; 255; 255; 15; 1]
                    1 [0] _ _ _ _ Hh Hc)).
    reflexivity.
  - apply (proj1 (proj2 (count_above_cap_is_rejected 8 [] []
                    [16; 0; 255; 255; 255; 255; 15; 1]
                    1 [0; 0; 0; 0; 0; 0; 0; 0] _ _ _ _ Hh Hc))).
    + lia.
    + reflexivity.
  - apply (proj2 (proj2 (count_above_cap_is_rejected 8 [] []
                    [16; 0; 255; 255; 255; 255; 15; 1]
                    1 (Int32ToBytes [0; 0; 0; 0; 0; 0; 0; 0]) _ _ _ _ Hh Hc))).
    + lia.
    + reflexivity.
Defined.

(** ** The decoders and malformed input *)

Lemma decodeBits_body_returns (dst src : list Z) :
  decodeBits_body dst src <> Stop Panic /\ decodeBits_body dst src <> Stop OutOfFuel.
Proof.
  unfold decodeBits_body.
  destruct (withHeader_cases dst src
    (fun count bitpacked src =>
       if bitpacked then
         if len src <? count then Stop (Err TruncatedBody dst)
         else Next (dst ++ take count src) (drop count src)
       else
         let '(word, src) := match src with [] => (0, src) | b :: src' => (b, src') end in
         Next (dst ++ replicate (bitpack.ByteCount count) word) src))
    as [E|[E|[E|(u & n & _ & _ & _ & E)]]]; rewrite E; try (split; discriminate).
  destruct (negb _).
  - destruct (len _ <? _); split; discriminate.
  - destruct (drop n src); split; discriminate.
Qed.

Lemma decodeBytes_body_returns (w : Z) (dst src : list Z) :
  decodeBytes_body w dst src <> Stop Panic /\
  decodeBytes_body w dst src <> Stop OutOfFuel.
Proof.
  unfold decodeBytes_body.
  match goal with |- withHeader _ _ ?k <> _ /\ _ =>
    destruct (withHeader_cases dst src k) as [E|[E|[E|(u & n & _ & _ & _ & E)]]]
  end; rewrite E; try (split; discriminate).
  destruct (negb (Z.land u 1 =? 0)).
  - destruct (len _ <? _); split; discriminate.
  - destruct (negb (w =? 0) && _); [split; discriminate|].
    destruct (negb (w =? 0)); split; discriminate.
Qed.

(** [decodeBits] and [decodeBytes] return on every input, with the
    output or with an error: no input makes them panic, and the loops
    end. *)
Lemma decodeBits_returns (dst src : list Z) :
  (exists out, decodeBits dst src = Ok out) \/
  (exists e out, decodeBits dst src = Err e out).
Proof.
  pose proof (decodeLoop_no_panic decodeBits_body
                (fun d s => proj1 (decodeBits_body_returns d s)) (length src) dst src) as Hp.
  pose proof (decodeLoop_total decodeBits_body decodeBits_progress
                (fun d s => proj2 (decodeBits_body_returns d s)) (length src) dst src
                (Nat.le_refl _)) as Hf.
  unfold decodeBits. destruct (decodeLoop _ _ _ _); eauto; congruence.
Qed.

Lemma decodeBytes_returns (dst src : list Z) (w : Z) :
  (exists out, decodeBytes dst src w = Ok out) \/
  (exists e out, decodeBytes dst src w = Err e out).
Proof.
  pose proof (decodeLoop_no_panic (decodeBytes_body w)
                (fun d s => proj1 (decodeBytes_body_returns w d s)) (length src) dst src) as Hp.
  pose proof (decodeLoop_total (decodeBytes_body w) (decodeBytes_progress w)
                (fun d s => proj2 (decodeBytes_body_returns w d s)) (length src) dst src
                (Nat.le_refl _)) as Hf.
  unfold decodeBytes. destruct (8 <? w); [eauto|].
  destruct (decodeLoop _ _ _ _); eauto; congruence.
Qed.

(** [decodeInt32] ends on every input: it returns the output or an
    error, or it panics. *)
Lemma decodeInt32_ends (dst src spare : list Z) (w : Z) :
  decodeInt32 dst src spare w <> OutOfFuel.
Proof.
  unfold decodeInt32. destruct (32 <? w); [discriminate|].
  apply decodeLoop_total; [apply decodeInt32_progress | | apply Nat.le_refl].
  intros d s. unfold decodeInt32_body.
  match goal with |- withHeader _ _ ?k <> _ =>
    destruct (withHeader_cases d s k) as [E|[E|[E|(u & n & _ & _ & _ & E)]]]
  end; rewrite E; try discriminate.
  destruct (negb _).
  - destruct (_ <? _); discriminate.
  - destruct (_ <? _); discriminate.
Qed.

(** C4.  [decodeInt32] does panic on a malformed input: the header 03
    declares one bit-packed group, eight bytes at width 8, and no byte
    follows; the slice expression [src[i : i+length]] is out of range for
    a slice without spare capacity.  ([decodeBits] and [decodeBytes] do
    return on every input: [decodeBits_returns], [decodeBytes_returns].) *)
Theorem decodeInt32_panics_on_truncated_bit_packed_run :
  decodeInt32 [] [3] [] 8 = Panic.
Proof. reflexivity. Qed.

(** ** Truncated runs *)

(** C5, as the claim states it, fails for the boolean decoder: the header
    10 declares a run-length run of eight bits and its value byte is
    missing; [decodeBits] takes the value to be zero and returns one
    decoded byte, without an error. *)
Lemma decodeBits_missing_value_byte_is_no_error :
  decodeBits [] [16] = Ok [0] /\
  ~ (exists dst, decodeBits [] [16] = Err TruncatedBody dst).
Proof.
  split; [reflexivity|]. intros (dst & H). vm_compute in H. discriminate.
Qed.

(** C5 (amended).  The decoding loop has decoded [k] runs, its output is
    [dst], and the next run has the header [(count, bitpacked)] followed
    by [body], the rest of the input.
    - [decodeBytes] at a width of 1 to 8 bits returns [TruncatedBody]
      with the output [dst] when the run is bit-packed and [body] is
      shorter than the payload, or is a run-length run and the value
      byte is missing;
    - [decodeInt32] returns [TruncatedBody] with the output [dst] when
      the run is a run-length run and [body] is shorter than the value;
    - [decodeBits] returns [TruncatedBody] with the output [dst] when
      the run is bit-packed and [body] is shorter than the payload;
    - [decodeBits], for a run-length run whose value byte is missing,
      takes the value zero and returns the output with the run decoded,
      without an error. *)
Theorem truncated_run_is_reported (w : Z) (spare dst0 src : list Z) (k : nat)
    (dst s body : list Z) (count : Z) (bitpacked : bool) :
  runHeader s count bitpacked body ->
  count <= maxSupportedValueCount ->
  (1 <= w <= 8 -> after (decodeBytes_body w) k dst0 src = Some (dst, s) ->
   (bitpacked = true /\ len body < bitpack.ByteCount (count * 8 * w)) \/
   (bitpacked = false /\ body = []) ->
   decodeBytes dst0 src w = Err TruncatedBody dst) /\
  (0 <= w <= 32 -> after (decodeInt32_body w spare) k dst0 src = Some (dst, s) ->
   bitpacked = false -> len body < bitpack.ByteCount w ->
   decodeInt32 dst0 src spare w = Err TruncatedBody dst) /\
  (after decodeBits_body k dst0 src = Some (dst, s) ->
   bitpacked = true -> len body < count ->
   decodeBits dst0 src = Err TruncatedBody dst) /\
  (after decodeBits_body k dst0 src = Some (dst, s) ->
   bitpacked = false -> body = [] ->
   decodeBits dst0 src = Ok (dst ++ replicate (bitpack.ByteCount count) 0)).
Proof.
  intros Hh Hc. pose proof (runHeader_nonempty _ _ _ _ Hh) as Hs.
  assert (Hw : forall kk, withHeader dst s kk = kk count bitpacked body).
  { intros kk. rewrite (withHeader_runHeader _ _ _ _ _ _ Hh).
    destruct (Z.ltb_spec maxSupportedValueCount count); [lia | reflexivity]. }
  split; [|split; [|split]].
  - intros Hwd Ha Ht. unfold decodeBytes.
    destruct (Z.ltb_spec 8 w); [lia|].
    apply (decodeLoop_stop _ k _ _ dst s); auto using decodeBytes_progress.
    unfold decodeBytes_body. rewrite Hw.
    destruct Ht as [[-> Hl] | [-> ->]].
    + destruct (Z.ltb_spec (len body) (bitpack.ByteCount (count * 8 * w)));
        [reflexivity | lia].
    + destruct (Z.eqb_spec w 0); [lia|]. reflexivity.
  - intros Hwd Ha -> Hl. unfold decodeInt32.
    destruct (Z.ltb_spec 32 w); [lia|].
    apply (decodeLoop_stop _ k _ _ dst s); auto using decodeInt32_progress.
    unfold decodeInt32_body. rewrite Hw.
    destruct (Z.ltb_spec (len body) (bitpack.ByteCount w)); [reflexivity | lia].
  - intros Ha -> Hl. unfold decodeBits.
    apply (decodeLoop_stop _ k _ _ dst s); auto using decodeBits_progress.
    unfold decodeBits_body. rewrite Hw.
    destruct (Z.ltb_spec (len body) count); [reflexivity | lia].
  - intros Ha -> ->. unfold decodeBits.
    apply (decodeLoop_last _ k _ _ dst s); auto using decodeBits_progress.
    unfold decodeBits_body. rewrite Hw. reflexivity.
Qed.

Lemma truncated_run_is_reported_witness :
  decodeBytes [] [16; 1; 5; 85] 1 = Err TruncatedBody [1; 1; 1; 1; 1; 1; 1; 1] /\
  decodeBytes [] [16; 1; 4] 1 = Err TruncatedBody [1; 1; 1; 1; 1; 1; 1; 1] /\
  decodeInt32 [] [2; 7; 0; 4; 9] [] 16 = Err TruncatedBody [7; 0; 0; 0] /\
  decodeBits [] [32; 255; 7; 1; 2] = Err TruncatedBody [255; 255] /\
  decodeBits [] [32; 255; 16] = Ok [255; 255; 0].
Proof.
  assert (H1 : runHeader [5; 85] 2 true [85]).
  { exists 5, 1. vm_compute. repeat split; reflexivity. }
  assert (H2 : runHeader [4] 2 false []).
  { exists 4, 1. vm_compute. repeat split; reflexivity. }
  assert (H3 : runHeader [4; 9] 2 false [9]).
  { exists 4, 1. vm_compute. repeat split; reflexivity. }
  assert (H4 : runHeader [7; 1; 2] 3 true [1; 2]).
  { exists 7, 1. vm_compute. repeat split; reflexivity. }
  assert (H5 : runHeader [16] 8 false []).
  { exists 16, 1. vm_compute. repeat split; reflexivity. }
  assert (Hc : forall c, c <= 8 -> c <= maxSupportedValueCount).
  { intros c Hle. unfold maxSupportedValueCount. lia. }
  split; [|split; [|split; [|split]]].
  - apply (proj1 (truncated_run_is_reported 1 [] [] [16; 1; 5; 85] 1
                    [1; 1; 1; 1; 1; 1; 1; 1] _ _ _ _ H1 (Hc 2 ltac:(lia)))).
    + lia.
    + reflexivity.
    + left. split; [reflexivity | vm_compute; reflexivity].
  - apply (proj1 (truncated_run_is_reported 1 [] [] [16; 1; 4] 1
                    [1; 1; 1; 1; 1; 1; 1; 1] _ _ _ _ H2 (Hc 2 ltac:(lia)))).
    + lia.
    + reflexivity.
    + right. split; reflexivity.
  - apply (proj1 (proj2 (truncated_run_is_reported 16 [] [] [2; 7; 0; 4; 9] 1
                    [7; 0; 0; 0] _ _ _ _ H3 (Hc 2 ltac:(lia))))).
    + lia.
    + reflexivity.
    + reflexivity.
    + vm_compute; reflexivity.
  - apply (proj1 (proj2 (proj2 (truncated_run_is_reported 1 [] [] [32; 255; 7; 1; 2] 1
                    [255; 255] _ _ _ _ H4 (Hc 3 ltac:(lia)))))).
    + reflexivity.
    + reflexivity.
    + vm_compute; reflexivity.
  - apply (proj2 (proj2 (proj2 (truncated_run_is_reported 1 [] [] [32; 255; 16] 1
                    [255; 255] _ _ _ _ H5 (Hc 8 ltac:(lia)))))).
    + reflexivity.
    + reflexivity.
    + reflexivity.
Defined.

(* ================================================================= *)
(** * The round trip of the codec *)

(** ** The run header, written and read back *)

Lemma lor_disjoint (x y s : Z) :
  0 <= s -> 0 <= x < 2 ^ s -> Z.lor x (y * 2 ^ s) = x + y * 2 ^ s.
Proof.
  intros Hs Hx.
  assert (Hl : Z.land x (y * 2 ^ s) = 0).
  { apply Z.bits_inj'. intros n Hn. rewrite Z.land_spec, Z.bits_0.
    destruct (Z.lt_ge_cases n s).
    - rewrite Z.mul_pow2_bits_low by lia. apply andb_false_r.
    - rewrite <- (Z.mod_small x (2 ^ s)) by lia.
      rewrite Z.mod_pow2_bits_high by lia. reflexivity. }
  rewrite <- Z.lxor_lor by exact Hl. symmetry. now apply Z.add_nocarry_lxor.
Qed.

Lemma lor_128 (a : Z) : 0 <= a < 256 -> Z.lor a 128 = a mod 128 + 128.
Proof.
  intros Ha.
  assert (Hd : a = a mod 128 + 128 * (a / 128)) by (rewrite Z.add_comm; apply Z_div_mod_eq_full).
  pose proof (Z.mod_pos_bound a 128 ltac:(lia)) as Hm.
  assert (Hq : a / 128 = 0 \/ a / 128 = 1).
  { assert (0 <= a / 128) by (apply Z.div_pos; lia).
    assert (a / 128 < 2) by (apply Z.div_lt_upper_bound; lia). lia. }
  pose proof (lor_disjoint (a mod 128) 1 7 ltac:(lia) ltac:(simpl; lia)) as Hl.
  change (1 * 2 ^ 7) with 128 in Hl.
  destruct Hq as [Hq|Hq]; rewrite Hq in Hd.
  - replace a with (a mod 128) at 1 by lia. exact Hl.
  - replace a with (a mod 128 + 128) at 1 by lia.
    rewrite <- Hl at 1. rewrite <- Z.lor_assoc, Z.lor_diag. exact Hl.
Qed.

Lemma land_127 (a : Z) : Z.land a 127 = a mod 128.
Proof. change 127 with (Z.ones 7). rewrite Z.land_ones by lia. reflexivity. Qed.

Lemma Uvarint_final (b i x s : Z) (rest : list Z) :
  0 <= i <= 9 -> s = 7 * i -> 0 <= x < 2 ^ s -> 0 <= b < 128 ->
  x + b * 2 ^ s < 2 ^ 64 ->
  binary.Uvarint_loop (b :: rest) i x s = (x + b * 2 ^ s, i + 1).
Proof.
  intros Hi Hs Hx Hb Hlt. cbn [binary.Uvarint_loop].
  assert (H2s : 0 < 2 ^ s) by (apply Z.pow_pos_nonneg; lia).
  destruct (Z.eqb_spec i binary.MaxVarintLen64); [unfold binary.MaxVarintLen64 in *; lia|].
  destruct (Z.ltb_spec b 128); [|lia].
  assert (Hb1 : (i =? binary.MaxVarintLen64 - 1) && (1 <? b) = false).
  { destruct (Z.eqb_spec i (binary.MaxVarintLen64 - 1)) as [Hi9|]; [|reflexivity].
    unfold binary.MaxVarintLen64 in Hi9. simpl andb.
    destruct (Z.ltb_spec 1 b); [|reflexivity].
    assert (s = 63) by lia. clear Hs. subst s.
    assert (2 * 2 ^ 63 <= b * 2 ^ 63) by (apply Z.mul_le_mono_nonneg_r; lia).
    change (2 ^ 64) with (2 * 2 ^ 63) in Hlt. lia. }
  rewrite Hb1. rewrite Z.shiftl_mul_pow2 by lia. unfold uint64.
  assert (0 <= b * 2 ^ s) by (apply Z.mul_nonneg_nonneg; lia).
  rewrite Z.mod_small by lia. rewrite lor_disjoint by lia. reflexivity.
Qed.

Lemma Uvarint_PutUvarint_loop (fuel : nat) :
  forall u i x s rest,
    Z.of_nat fuel + i = 9 -> 0 <= i -> s = 7 * i -> 0 <= x < 2 ^ s -> 0 <= u ->
    x + u * 2 ^ s < 2 ^ 64 ->
    binary.Uvarint_loop (binary.PutUvarint_loop fuel u ++ rest) i x s =
    (x + u * 2 ^ s, i + len (binary.PutUvarint_loop fuel u)).
Proof.
  induction fuel as [|fuel IH]; intros u i x s rest Hf Hi Hs Hx Hu Hlt;
    assert (H2s : 0 < 2 ^ s) by (apply Z.pow_pos_nonneg; lia).
  - cbn [binary.PutUvarint_loop app].
    assert (Hi9 : i = 9) by lia. assert (Hs63 : s = 63) by lia.
    clear Hs. subst s. assert (Hs : 63 = 7 * i) by lia.
    assert (Hu2 : u < 2).
    { destruct (Z.lt_ge_cases u 2); [assumption|].
      assert (2 * 2 ^ 63 <= u * 2 ^ 63) by (apply Z.mul_le_mono_nonneg_r; lia).
      change (2 ^ 64) with (2 * 2 ^ 63) in Hlt. lia. }
    unfold byte. rewrite (Z.mod_small u) by (simpl; lia).
    rewrite Uvarint_final; try lia. reflexivity.
  - cbn [binary.PutUvarint_loop]. destruct (Z.leb_spec 128 u) as [Hge|Hlt128].
    + cbn [app binary.Uvarint_loop].
      assert (Hby : 0 <= byte u < 256) by (unfold byte; apply Z.mod_pos_bound; lia).
      rewrite (lor_128 _ Hby).
      assert (Hm : byte u mod 128 = u mod 128).
      { unfold byte. apply Z.mod_mod_divide. exists 2. reflexivity. }
      rewrite Hm. pose proof (Z.mod_pos_bound u 128 ltac:(lia)) as Hlo.
      destruct (Z.eqb_spec i binary.MaxVarintLen64);
        [unfold binary.MaxVarintLen64 in *; lia|].
      destruct (Z.ltb_spec (u mod 128 + 128) 128); [lia|].
      rewrite land_127.
      replace ((u mod 128 + 128) mod 128) with (u mod 128)
        by (symmetry; rewrite <- (Z.mod_mod u 128) at 2 by lia;
            apply (Z_mod_plus_full (u mod 128) 1 128)).
      rewrite Z.shiftl_mul_pow2 by lia. unfold uint64.
      assert (Hs7 : 2 ^ (s + 7) = 2 ^ s * 128) by (rewrite Z.pow_add_r by lia; reflexivity).
      assert (Hud : u = 128 * (u / 128) + u mod 128) by apply Z_div_mod_eq_full.
      assert (Hq : 0 <= u / 128) by (apply Z.div_pos; lia).
      assert (Hqs : 0 <= u / 128 * (2 ^ s * 128)) by (apply Z.mul_nonneg_nonneg; lia).
      assert (Hms : 0 <= u mod 128 * 2 ^ s) by (apply Z.mul_nonneg_nonneg; lia).
      assert (Heq : x + u mod 128 * 2 ^ s + u / 128 * (2 ^ s * 128) = x + u * 2 ^ s).
      { rewrite Hud at 3. ring. }
      rewrite Z.mod_small by lia. rewrite lor_disjoint by lia.
      rewrite Z.shiftr_div_pow2 by lia. change (2 ^ 7) with 128.
      rewrite IH; try lia.
      * rewrite Hs7, Heq. rewrite len_cons. f_equal. lia.
      * rewrite Hs7. split; [lia|].
        assert (u mod 128 * 2 ^ s <= 127 * 2 ^ s)
          by (apply Z.mul_le_mono_nonneg_r; lia). lia.
    + cbn [app]. unfold byte. rewrite (Z.mod_small u) by (simpl; lia).
      rewrite Uvarint_final; try lia. reflexivity.
Qed.

Lemma len_PutUvarint_loop (fuel : nat) :
  forall u, 1 <= len (binary.PutUvarint_loop fuel u) <= Z.of_nat fuel + 1.
Proof.
  induction fuel as [|fuel IH]; intros u; cbn [binary.PutUvarint_loop].
  - rewrite len_cons, len_nil. lia.
  - destruct (128 <=? u).
    + rewrite len_cons. specialize (IH (Z.shiftr u 7)). lia.
    + rewrite len_cons, len_nil. lia.
Qed.

Lemma len_PutUvarint (u : Z) : 1 <= len (binary.PutUvarint u) <= 10.
Proof. unfold binary.PutUvarint. pose proof (len_PutUvarint_loop 9 u). lia. Qed.

(** A header below 128 takes one byte. *)
Lemma PutUvarint_small (u : Z) : 0 <= u < 128 -> binary.PutUvarint u = [u].
Proof.
  intros Hu. unfold binary.PutUvarint. cbn [binary.PutUvarint_loop].
  destruct (Z.leb_spec 128 u); [lia|]. unfold byte. rewrite Z.mod_small; [reflexivity|].
  simpl; lia.
Qed.

Lemma Uvarint_PutUvarint (u : Z) (rest : list Z) :
  0 <= u < 2 ^ 64 ->
  binary.Uvarint (binary.PutUvarint u ++ rest) = (u, len (binary.PutUvarint u)).
Proof.
  intros Hu. unfold binary.Uvarint, binary.PutUvarint.
  rewrite Uvarint_PutUvarint_loop;
    [ | reflexivity | lia | reflexivity | rewrite Z.pow_0_r; lia | lia
      | rewrite Z.pow_0_r; lia ].
  rewrite Z.pow_0_r. f_equal; lia.
Qed.

(** ** Constant input *)

Lemma indexWhile_repeat {A : Type} (p : A -> bool) (x : A) (m : nat) :
  p x = true -> indexWhile p (repeat x m) = Z.of_nat m.
Proof.
  intros Hp. induction m as [|m IH]; [reflexivity|].
  cbn [repeat indexWhile]. rewrite Hp, IH. lia.
Qed.

Lemma drop_repeat_all {A : Type} (x : A) (m : nat) :
  drop (Z.of_nat m) (repeat x m) = [].
Proof.
  unfold drop. rewrite Nat2Z.id. apply skipn_all2. rewrite repeat_length. lia.
Qed.

Lemma firstn_repeat {A : Type} (x : A) (k m : nat) :
  firstn k (repeat x (k + m)) = repeat x k.
Proof. induction k as [|k IH]; [reflexivity|]. simpl. now rewrite IH. Qed.

Lemma skipn_repeat {A : Type} (x : A) (k m : nat) :
  skipn k (repeat x (k + m)) = repeat x m.
Proof. induction k as [|k IH]; [reflexivity|]. simpl. exact IH. Qed.

Lemma wordEq_refl (a : list Z) : wordEq a a = true.
Proof. unfold wordEq. destruct (list_eq_dec Z.eq_dec a a); congruence. Qed.

Lemma wordEq_eq (a b : list Z) : wordEq a b = true -> a = b.
Proof. unfold wordEq. destruct (list_eq_dec Z.eq_dec a b); congruence. Qed.

(** The word of eight equal bytes is its own broadcast. *)
Lemma le_combine_repeat8 (v : Z) :
  le_combine (repeat v 8) = v * 0x0101010101010101.
Proof. cbn [repeat le_combine]. ring. Qed.

Lemma broadcast8x1_byte (v : Z) :
  0 <= v < 256 -> broadcast8x1 (v * 0x0101010101010101) = v * 0x0101010101010101.
Proof.
  intros Hv. unfold broadcast8x1.
  change 255 with (Z.ones 8). rewrite Z.land_ones by lia.
  replace (v * 72340172838076673) with (v + 282578800148737 * v * 2 ^ 8)
    by (change (2 ^ 8) with 256; ring).
  rewrite Z.mod_add by (simpl; lia). rewrite Z.mod_small by (simpl; lia).
  unfold uint64.
  replace (v * 72340172838076673) with (v + 282578800148737 * v * 2 ^ 8)
    by (change (2 ^ 8) with 256; ring).
  apply Z.mod_small. change (2 ^ 8) with 256. change (2 ^ 64) with 18446744073709551616. lia.
Qed.

Lemma byte_broadcast (v : Z) : 0 <= v < 256 -> byte (v * 0x0101010101010101) = v.
Proof.
  intros Hv. unfold byte.
  replace (v * 72340172838076673) with (v + 282578800148737 * v * 2 ^ 8)
    by (change (2 ^ 8) with 256; ring).
  rewrite Z.mod_add by (simpl; lia). apply Z.mod_small. simpl; lia.
Qed.

Lemma BytesToUint64_repeat (v : Z) (m r : nat) :
  BytesToUint64 m (repeat v (8 * m + r)) = repeat (v * 0x0101010101010101) m.
Proof.
  induction m as [|m IH]; [reflexivity|].
  replace (8 * S m + r)%nat with (8 + (8 * m + r))%nat by lia.
  cbn [BytesToUint64 repeat]. rewrite firstn_repeat, skipn_repeat, IH.
  now rewrite le_combine_repeat8.
Qed.

Lemma Int32ToWords_repeat (v : Z) (m r : nat) :
  Int32ToWords m (repeat v (8 * m + r)) = repeat (broadcast8x4 v) m.
Proof.
  induction m as [|m IH]; [reflexivity|].
  replace (8 * S m + r)%nat with (8 + (8 * m + r))%nat by lia.
  cbn [Int32ToWords repeat]. rewrite firstn_repeat, skipn_repeat, IH. reflexivity.
Qed.

Lemma encodeBytes_words_repeat (v w : Z) (m : nat) (dst : list Z) :
  0 <= v < 256 -> (0 < m)%nat ->
  encodeBytes_words m dst (repeat (v * 0x0101010101010101) m) w =
  appendRunLengthBytes dst (8 * Z.of_nat m) v.
Proof.
  intros Hv Hm. destruct m as [|m]; [lia|].
  cbn [encodeBytes_words repeat]. rewrite broadcast8x1_byte by exact Hv.
  change (v * 72340172838076673 :: repeat (v * 72340172838076673) m)
    with (repeat (v * 72340172838076673) (S m)).
  rewrite indexWhile_repeat by apply Z.eqb_refl.
  destruct (Z.ltb_spec 0 (Z.of_nat (S m))); [|lia].
  rewrite drop_repeat_all, byte_broadcast by exact Hv.
  destruct m; reflexivity.
Qed.

Lemma encodeInt32_words_repeat (v w : Z) (m : nat) (dst : list Z) :
  (0 < m)%nat ->
  encodeInt32_words m dst (repeat (broadcast8x4 v) m) w =
  appendRunLengthInt32 dst (8 * Z.of_nat m) v w.
Proof.
  intros Hm. destruct m as [|m]; [lia|].
  cbn [encodeInt32_words repeat]. cbn [broadcast8x4 hd].
  change (broadcast8x4 v :: repeat (broadcast8x4 v) m)
    with (repeat (broadcast8x4 v) (S m)).
  rewrite indexWhile_repeat by apply wordEq_refl.
  destruct (Z.ltb_spec 0 (Z.of_nat (S m))); [|lia].
  rewrite drop_repeat_all. destruct m; reflexivity.
Qed.

Lemma encodeBytes_tail_repeat (v : Z) (r : nat) (dst : list Z) :
  encodeBytes_tail r dst (repeat v r) =
  match r with O => dst | S _ => appendRunLengthBytes dst (Z.of_nat r) v end.
Proof.
  destruct r as [|r]; [reflexivity|].
  cbn [encodeBytes_tail repeat]. rewrite indexWhile_repeat by apply Z.eqb_refl.
  change (v :: repeat v r) with (repeat v (S r)).
  replace (1 + Z.of_nat r) with (Z.of_nat (S r)) by lia.
  rewrite drop_repeat_all. destruct r; reflexivity.
Qed.

Lemma encodeInt32_tail_repeat (v w : Z) (r : nat) (dst : list Z) :
  encodeInt32_tail r dst (repeat v r) w =
  match r with O => dst | S _ => appendRunLengthInt32 dst (Z.of_nat r) v w end.
Proof.
  destruct r as [|r]; [reflexivity|].
  cbn [encodeInt32_tail repeat]. rewrite indexWhile_repeat by apply Z.eqb_refl.
  change (v :: repeat v r) with (repeat v (S r)).
  replace (1 + Z.of_nat r) with (Z.of_nat (S r)) by lia.
  rewrite drop_repeat_all. destruct r; reflexivity.
Qed.

Lemma isZero_repeat (n : nat) : isZero (repeat 0 n) = true.
Proof. induction n; [reflexivity | exact IHn]. Qed.

Lemma ByteCount_bounds (w : Z) : 1 <= w <= 32 -> 1 <= bitpack.ByteCount w <= 4.
Proof.
  intros Hw. unfold bitpack.ByteCount. split.
  - apply Z.div_le_lower_bound; lia.
  - assert ((w + 7) / 8 < 5) by (apply Z.div_lt_upper_bound; lia). lia.
Qed.

Lemma ByteCount_byte (w : Z) : 1 <= w <= 8 -> bitpack.ByteCount w = 1.
Proof.
  intros Hw. unfold bitpack.ByteCount.
  assert (1 <= (w + 7) / 8) by (apply Z.div_le_lower_bound; lia).
  assert ((w + 7) / 8 < 2) by (apply Z.div_lt_upper_bound; lia). lia.
Qed.

(** The shape of the encoding of a constant input, with its tail. *)
Lemma encodeBytes_constant (v w : Z) (m r : nat) :
  1 <= w <= 8 -> 0 <= v < 256 -> (0 < m)%nat -> (r < 8)%nat ->
  encodeBytes [] (repeat v (8 * m + r)) w =
  Ok (match r with
      | O => appendRunLengthBytes [] (8 * Z.of_nat m) v
      | S _ => appendRunLengthBytes (appendRunLengthBytes [] (8 * Z.of_nat m) v)
                                    (Z.of_nat r) v
      end).
Proof.
  intros Hw Hv Hm Hr. unfold encodeBytes.
  destruct (Z.ltb_spec 8 w); [lia|]. destruct (Z.eqb_spec w 0); [lia|].
  assert (Hlen : len (repeat v (8 * m + r)) = 8 * Z.of_nat m + Z.of_nat r)
    by (unfold len; rewrite repeat_length; lia).
  rewrite Hlen.
  assert (Hdiv : (8 * Z.of_nat m + Z.of_nat r) / 8 = Z.of_nat m).
  { rewrite Z.add_comm, Z.mul_comm, Z.div_add by lia.
    rewrite Z.div_small by lia. reflexivity. }
  rewrite Hdiv. destruct (Z.leb_spec 8 (8 * Z.of_nat m + Z.of_nat r)); [|lia].
  rewrite Nat2Z.id, BytesToUint64_repeat, repeat_length.
  rewrite encodeBytes_words_repeat by assumption.
  unfold drop. replace (Z.to_nat (Z.of_nat m * 8)) with (8 * m)%nat by lia.
  rewrite skipn_repeat, repeat_length, encodeBytes_tail_repeat.
  destruct r; reflexivity.
Qed.

Lemma encodeInt32_constant (v w : Z) (m r : nat) :
  1 <= w <= 32 -> (0 < m)%nat -> (r < 8)%nat ->
  encodeInt32 [] (repeat v (8 * m + r)) w =
  Ok (match r with
      | O => appendRunLengthInt32 [] (8 * Z.of_nat m) v w
      | S _ => appendRunLengthInt32 (appendRunLengthInt32 [] (8 * Z.of_nat m) v w)
                                    (Z.of_nat r) v w
      end).
Proof.
  intros Hw Hm Hr. unfold encodeInt32.
  destruct (Z.ltb_spec 32 w); [lia|]. destruct (Z.eqb_spec w 0); [lia|].
  assert (Hlen : len (repeat v (8 * m + r)) = 8 * Z.of_nat m + Z.of_nat r)
    by (unfold len; rewrite repeat_length; lia).
  rewrite Hlen.
  assert (Hdiv : (8 * Z.of_nat m + Z.of_nat r) / 8 = Z.of_nat m).
  { rewrite Z.add_comm, Z.mul_comm, Z.div_add by lia.
    rewrite Z.div_small by lia. reflexivity. }
  rewrite Hdiv. destruct (Z.leb_spec 8 (8 * Z.of_nat m + Z.of_nat r)); [|lia].
  rewrite Nat2Z.id, Int32ToWords_repeat, repeat_length.
  rewrite encodeInt32_words_repeat by assumption.
  unfold drop. replace (Z.to_nat (Z.of_nat m * 8)) with (8 * m)%nat by lia.
  rewrite skipn_repeat, repeat_length, encodeInt32_tail_repeat.
  destruct r; reflexivity.
Qed.

(** C9, as the claim states it, fails: nine equal values are encoded as
    two run-length runs, one of eight values and one of one value; the
    decoding loop has input left after the first run, and is at the end
    after the second. *)
Lemma constant_input_of_nine_is_two_runs :
  encodeBytes [] (repeat 1 9) 1
    = Ok (appendRunLengthBytes [] 8 1 ++ appendRunLengthBytes [] 1 1) /\
  after (decodeBytes_body 1) 1 [] [16; 1; 2; 1] = Some (repeat 1 8, [2; 1]) /\
  after (decodeBytes_body 1) 2 [] [16; 1; 2; 1] = Some (repeat 1 9, []).
Proof. repeat split; reflexivity. Qed.

(** C9 (amended).  A constant input whose length is a multiple of eight,
    at least eight, is encoded as exactly one run-length run, of at most
    [ceil(bit_width/8) + 10] bytes, by [encodeBytes] (widths 1 to 8) and
    by [encodeInt32] (widths 1 to 32).  When the length is not a multiple
    of eight the encoding is two run-length runs: the first for the full
    groups of eight and the second for the values of the tail.  At width
    0 the input of zeros is encoded as one header without a value, of at
    most ten bytes. *)
Theorem constant_input_is_run_length_encoded (v w : Z) (m r : nat) :
  (0 < m)%nat -> (r < 8)%nat ->
  (1 <= w <= 8 -> 0 <= v < 2 ^ w ->
   encodeBytes [] (repeat v (8 * m)) w = Ok (appendRunLengthBytes [] (8 * Z.of_nat m) v) /\
   len (appendRunLengthBytes [] (8 * Z.of_nat m) v) <= bitpack.ByteCount w + 10 /\
   ((0 < r)%nat ->
    encodeBytes [] (repeat v (8 * m + r)) w =
    Ok (appendRunLengthBytes (appendRunLengthBytes [] (8 * Z.of_nat m) v) (Z.of_nat r) v))) /\
  (1 <= w <= 32 ->
   encodeInt32 [] (repeat v (8 * m)) w = Ok (appendRunLengthInt32 [] (8 * Z.of_nat m) v w) /\
   len (appendRunLengthInt32 [] (8 * Z.of_nat m) v w) <= bitpack.ByteCount w + 10 /\
   ((0 < r)%nat ->
    encodeInt32 [] (repeat v (8 * m + r)) w =
    Ok (appendRunLengthInt32 (appendRunLengthInt32 [] (8 * Z.of_nat m) v w)
                             (Z.of_nat r) v w))) /\
  (encodeBytes [] (repeat 0 (8 * m + r)) 0
     = Ok (binary.PutUvarint (rleHeader (len (repeat 0 (8 * m + r))))) /\
   encodeInt32 [] (repeat 0 (8 * m + r)) 0
     = Ok (binary.PutUvarint (rleHeader (len (repeat 0 (8 * m + r))))) /\
   len (binary.PutUvarint (rleHeader (len (repeat 0 (8 * m + r))))) <= 10).
Proof.
  intros Hm Hr. split; [|split].
  - intros Hw Hv.
    assert (Hv' : 0 <= v < 256).
    { assert (2 ^ w <= 2 ^ 8) by (apply Z.pow_le_mono_r; lia).
      change (2 ^ 8) with 256 in *. lia. }
    split; [|split].
    + pose proof (encodeBytes_constant v w m 0 Hw Hv' Hm ltac:(lia)) as H.
      rewrite Nat.add_0_r in H. exact H.
    + unfold appendRunLengthBytes. cbn [app]. rewrite len_app, len_cons, len_nil.
      pose proof (len_PutUvarint (rleHeader (8 * Z.of_nat m))).
      rewrite ByteCount_byte by exact Hw. lia.
    + intros Hr0. rewrite (encodeBytes_constant v w m r Hw Hv' Hm Hr).
      destruct r; [lia | reflexivity].
  - intros Hw. split; [|split].
    + pose proof (encodeInt32_constant v w m 0 Hw Hm ltac:(lia)) as H.
      rewrite Nat.add_0_r in H. exact H.
    + unfold appendRunLengthInt32. cbn [app]. rewrite len_app.
      pose proof (len_PutUvarint (rleHeader (8 * Z.of_nat m))).
      pose proof (ByteCount_bounds w Hw).
      rewrite len_take; [lia|].
      unfold len. rewrite length_le_bytes. lia.
    + intros Hr0. rewrite (encodeInt32_constant v w m r Hw Hm Hr).
      destruct r; [lia | reflexivity].
  - split; [|split].
    + unfold encodeBytes. cbn [Z.ltb Z.compare Z.eqb]. rewrite isZero_repeat. reflexivity.
    + unfold encodeInt32. cbn [Z.ltb Z.compare Z.eqb].
      assert (Hz : forall n, isZero (Int32ToBytes (repeat 0 n)) = true)
        by (induction n; [reflexivity | exact IHn]).
      rewrite Hz. reflexivity.
    + apply len_PutUvarint.
Qed.

Lemma constant_input_is_run_length_encoded_witness :
  encodeBytes [] (repeat 5 16) 3 = Ok [32; 5] /\
  encodeBytes [] (repeat 5 19) 3 = Ok [32; 5; 6; 5] /\
  encodeInt32 [] (repeat 70000 16) 17 = Ok [32; 112; 17; 1] /\
  encodeInt32 [] (repeat 70000 19) 17 = Ok [32; 112; 17; 1; 6; 112; 17; 1].
Proof.
  pose proof (constant_input_is_run_length_encoded 5 3 2 3 ltac:(lia) ltac:(lia)) as [Hb _].
  pose proof (constant_input_is_run_length_encoded 70000 17 2 3 ltac:(lia) ltac:(lia))
    as [_ [Hi _]].
  destruct (Hb ltac:(lia) ltac:(simpl; lia)) as (Hb1 & _ & Hb2).
  destruct (Hi ltac:(lia)) as (Hi1 & _ & Hi2).
  split; [exact Hb1|]. split; [exact (Hb2 ltac:(lia))|].
  split; [exact Hi1 | exact (Hi2 ltac:(lia))].
Defined.

(** ** Headers *)

Lemma rleHeader_small (count : Z) :
  0 <= count < 2 ^ 63 -> rleHeader count = 2 * count.
Proof.
  intros Hc. unfold rleHeader, uint64.
  change (2 ^ 64) with (2 * 2 ^ 63). rewrite (Z.mod_small count) by lia.
  rewrite Z.shiftl_mul_pow2 by lia. change (2 ^ 1) with 2.
  rewrite Z.mod_small by lia. ring.
Qed.

Lemma bitPackedHeader_small (n : Z) :
  0 <= n < 2 ^ 63 -> bitPackedHeader n = 2 * n + 1.
Proof.
  intros Hn. unfold bitPackedHeader, uint64.
  rewrite Z.shiftl_mul_pow2 by lia. change (2 ^ 1) with 2.
  change (2 ^ 64) with (2 * 2 ^ 63). rewrite Z.mod_small by lia.
  rewrite Z.lor_comm.
  pose proof (lor_disjoint 1 n 1 ltac:(lia) ltac:(simpl; lia)) as H.
  change (2 ^ 1) with 2 in H. rewrite H. ring.
Qed.

Lemma header_even (c : Z) :
  Z.shiftr (2 * c) 1 = c /\ negb (Z.land (2 * c) 1 =? 0) = false.
Proof.
  split.
  - rewrite Z.shiftr_div_pow2 by lia. change (2 ^ 1) with 2.
    rewrite Z.mul_comm. apply Z.div_mul. lia.
  - change 1 with (Z.ones 1). rewrite Z.land_ones by lia. change (2 ^ 1) with 2.
    rewrite Z.mul_comm, Z.mod_mul by lia. reflexivity.
Qed.

Lemma header_odd (c : Z) :
  Z.shiftr (2 * c + 1) 1 = c /\ negb (Z.land (2 * c + 1) 1 =? 0) = true.
Proof.
  split.
  - rewrite Z.shiftr_div_pow2 by lia. change (2 ^ 1) with 2.
    rewrite Z.add_comm, Z.mul_comm, Z.div_add by lia. reflexivity.
  - change (Z.land (2 * c + 1) 1) with (Z.land (2 * c + 1) (Z.ones 1)).
    rewrite Z.land_ones by lia. change (2 ^ 1) with 2.
    rewrite Z.add_comm, Z.mul_comm, Z.mod_add by lia. reflexivity.
Qed.

Lemma cap_lt_2_63 : maxSupportedValueCount < 2 ^ 63.
Proof. reflexivity. Qed.

Lemma withHeader_rle (dst rest : list Z) (k : Z -> bool -> list Z -> iter) (count : Z) :
  0 <= count <= maxSupportedValueCount ->
  withHeader dst (binary.PutUvarint (rleHeader count) ++ rest) k = k count false rest.
Proof.
  intros Hc. pose proof cap_lt_2_63.
  rewrite rleHeader_small by lia.
  assert (Hu : 0 <= 2 * count < 2 ^ 64) by (change (2 ^ 64) with (2 * 2 ^ 63); lia).
  destruct (header_even count) as [H1 H2].
  rewrite (withHeader_ok _ _ _ _ _ (Uvarint_PutUvarint _ rest Hu)).
  - rewrite H1, H2, drop_app_len. reflexivity.
  - pose proof (len_PutUvarint (2 * count)). lia.
  - rewrite H1. lia.
Qed.

Lemma withHeader_bitPacked (dst rest : list Z) (k : Z -> bool -> list Z -> iter) (n : Z) :
  0 <= n <= maxSupportedValueCount ->
  withHeader dst (binary.PutUvarint (bitPackedHeader n) ++ rest) k = k n true rest.
Proof.
  intros Hc. pose proof cap_lt_2_63.
  rewrite bitPackedHeader_small by lia.
  assert (Hu : 0 <= 2 * n + 1 < 2 ^ 64) by (change (2 ^ 64) with (2 * 2 ^ 63); lia).
  destruct (header_odd n) as [H1 H2].
  rewrite (withHeader_ok _ _ _ _ _ (Uvarint_PutUvarint _ rest Hu)).
  - rewrite H1, H2, drop_app_len. reflexivity.
  - pose proof (len_PutUvarint (2 * n + 1)). lia.
  - rewrite H1. lia.
Qed.

(** ** Bit packing (specification 4.1): unpack is the inverse of pack *)

Lemma packBits_bound (w : Z) (vs : list Z) :
  0 <= w -> 0 <= bitpack.packBits w vs < 2 ^ (w * len vs).
Proof.
  intros Hw. induction vs as [|v vs IH].
  - change (len (@nil Z)) with 0. rewrite Z.mul_0_r. simpl. lia.
  - cbn [bitpack.packBits]. rewrite len_cons.
    replace (w * (1 + len vs)) with (w + w * len vs) by ring.
    pose proof (len_nonneg vs).
    rewrite Z.pow_add_r by (try apply Z.mul_nonneg_nonneg; lia).
    assert (0 < 2 ^ w) by (apply Z.pow_pos_nonneg; lia).
    pose proof (Z.mod_pos_bound v (2 ^ w) ltac:(lia)). nia.
Qed.

Lemma unpackBits_packBits (w : Z) (vs : list Z) :
  0 <= w ->
  bitpack.unpackBits w (length vs) (bitpack.packBits w vs) =
  map (fun v => v mod 2 ^ w) vs.
Proof.
  intros Hw. assert (0 < 2 ^ w) by (apply Z.pow_pos_nonneg; lia).
  induction vs as [|v vs IH]; [reflexivity|].
  cbn [length bitpack.unpackBits bitpack.packBits map].
  replace (v mod 2 ^ w + 2 ^ w * bitpack.packBits w vs)
    with (v mod 2 ^ w + bitpack.packBits w vs * 2 ^ w) by ring.
  f_equal.
  - rewrite Z.mod_add by lia. apply Z.mod_mod. lia.
  - rewrite Z.div_add by lia.
    rewrite Z.div_small by (apply Z.mod_pos_bound; lia). exact IH.
Qed.

Lemma ByteCount_mul8 (n : Z) : bitpack.ByteCount (8 * n) = n.
Proof.
  unfold bitpack.ByteCount. rewrite Z.add_comm, Z.mul_comm, Z.div_add by lia.
  reflexivity.
Qed.

Lemma len_pack (vs : list Z) (w : Z) :
  0 <= w -> len (bitpack.pack vs w) = bitpack.ByteCount (len vs * w).
Proof.
  intros Hw. unfold bitpack.pack, len at 1. rewrite length_le_bytes.
  apply Z2Nat.id. unfold bitpack.ByteCount. apply Z.div_pos; [|lia].
  pose proof (len_nonneg vs). nia.
Qed.

Lemma unpack_pack (vs : list Z) (w : Z) :
  0 <= w ->
  bitpack.unpack (len vs) (bitpack.pack vs w) w = map (fun v => v mod 2 ^ w) vs.
Proof.
  intros Hw. unfold bitpack.unpack, bitpack.pack.
  rewrite le_combine_le_bytes.
  pose proof (len_nonneg vs) as Hl.
  assert (Hb : 0 <= bitpack.ByteCount (len vs * w))
    by (unfold bitpack.ByteCount; apply Z.div_pos; nia).
  rewrite Z2Nat.id by exact Hb.
  pose proof (packBits_bound w vs Hw) as Hp.
  assert (Hle : 2 ^ (w * len vs) <= 256 ^ bitpack.ByteCount (len vs * w)).
  { change 256 with (2 ^ 8). rewrite <- Z.pow_mul_r by lia.
    apply Z.pow_le_mono_r; [lia|]. unfold bitpack.ByteCount.
    pose proof (Z_div_mod_eq_full (len vs * w + 7) 8).
    pose proof (Z.mod_pos_bound (len vs * w + 7) 8 ltac:(lia)). lia. }
  rewrite Z.mod_small by lia.
  unfold len. rewrite Nat2Z.id. apply unpackBits_packBits. exact Hw.
Qed.

Lemma map_id_Forall {A : Type} (f : A -> A) (l : list A) :
  Forall (fun x => f x = x) l -> map f l = l.
Proof. induction 1; simpl; congruence. Qed.

(** ** One turn of the decoding loop on one encoded run *)

Lemma decodeLoop_step (body : list Z -> list Z -> iter) (dst src dst' rest : list Z) :
  progress body -> src <> [] -> body dst src = Next dst' rest ->
  decodeLoop body (length src) dst src = decodeLoop body (length rest) dst' rest.
Proof.
  intros Hp Hs Hb. destruct src as [|b src]; [congruence|].
  cbn [length decodeLoop]. rewrite Hb.
  apply decodeLoop_fuel; [exact Hp | | lia].
  apply Hp in Hb; [|discriminate]. simpl in Hb. lia.
Qed.

Lemma PutUvarint_nonempty (u : Z) (l : list Z) : binary.PutUvarint u ++ l <> [].
Proof.
  pose proof (len_PutUvarint u) as H. intros E.
  apply (f_equal (@length Z)) in E. rewrite length_app in E.
  unfold len in H. simpl in E. lia.
Qed.

(** ** Loops over slices *)

Lemma indexWhile_range {A : Type} (p : A -> bool) (l : list A) :
  0 <= indexWhile p l <= len l.
Proof.
  induction l as [|x l IH]; cbn [indexWhile]; [unfold len; simpl; lia|].
  rewrite len_cons. destruct (p x); lia.
Qed.

Lemma indexWhile2_range {A : Type} (p : A -> A -> bool) (l : list A) :
  forall prev, 0 <= indexWhile2 p prev l <= len l.
Proof.
  induction l as [|x l IH]; intros prev; cbn [indexWhile2]; [unfold len; simpl; lia|].
  rewrite len_cons. pose proof (len_nonneg l).
  destruct (p prev x); [specialize (IH x)|]; lia.
Qed.

Lemma take_indexWhile {A : Type} (p : A -> bool) (l : list A) :
  Forall (fun x => p x = true) (take (indexWhile p l) l).
Proof.
  induction l as [|x l IH]; [unfold take; simpl; constructor|].
  cbn [indexWhile]. destruct (p x) eqn:E.
  - unfold take. pose proof (indexWhile_range p l).
    replace (Z.to_nat (1 + indexWhile p l)) with (S (Z.to_nat (indexWhile p l))) by lia.
    cbn [firstn]. constructor; [exact E | exact IH].
  - unfold take. simpl. constructor.
Qed.

Lemma Forall_eq_repeat {A : Type} (x : A) (l : list A) :
  Forall (fun y => y = x) l -> l = repeat x (length l).
Proof. induction 1; simpl; congruence. Qed.

Lemma take_indexWhile_eqb (v : Z) (l : list Z) :
  take (indexWhile (Z.eqb v) l) l = replicate (indexWhile (Z.eqb v) l) v.
Proof.
  pose proof (take_indexWhile (Z.eqb v) l) as H.
  pose proof (indexWhile_range (Z.eqb v) l) as Hr.
  assert (H' : Forall (fun y => y = v) (take (indexWhile (Z.eqb v) l) l)).
  { eapply Forall_impl; [|exact H]. intros y Hy. apply Z.eqb_eq in Hy. congruence. }
  apply Forall_eq_repeat in H'. rewrite H' at 1. unfold replicate. f_equal.
  unfold take. rewrite length_firstn. unfold len in Hr. lia.
Qed.

Lemma take_cons {A : Type} (n : Z) (x : A) (l : list A) :
  0 <= n -> take (1 + n) (x :: l) = x :: take n l.
Proof.
  intros Hn. unfold take. replace (Z.to_nat (1 + n)) with (S (Z.to_nat n)) by lia.
  reflexivity.
Qed.

Lemma drop_cons {A : Type} (n : Z) (x : A) (l : list A) :
  0 <= n -> drop (1 + n) (x :: l) = drop n l.
Proof.
  intros Hn. unfold drop. replace (Z.to_nat (1 + n)) with (S (Z.to_nat n)) by lia.
  reflexivity.
Qed.

Lemma replicate_cons {A : Type} (n : Z) (x : A) :
  0 <= n -> replicate (1 + n) x = x :: replicate n x.
Proof.
  intros Hn. unfold replicate. replace (Z.to_nat (1 + n)) with (S (Z.to_nat n)) by lia.
  reflexivity.
Qed.

Lemma flat_map_take_drop {A B : Type} (f : A -> list B) (n : Z) (l : list A) :
  flat_map f (take n l) ++ flat_map f (drop n l) = flat_map f l.
Proof. rewrite <- flat_map_app. now rewrite take_drop. Qed.

Lemma Forall_take_drop {A : Type} (P : A -> Prop) (n : Z) (l : list A) :
  Forall P l -> Forall P (take n l) /\ Forall P (drop n l).
Proof. intros H. apply Forall_app. now rewrite take_drop. Qed.

Lemma Forall_take {A : Type} (P : A -> Prop) (n : Z) (l : list A) :
  Forall P l -> Forall P (take n l).
Proof. intros H. now apply Forall_take_drop. Qed.

Lemma Forall_drop {A : Type} (P : A -> Prop) (n : Z) (l : list A) :
  Forall P l -> Forall P (drop n l).
Proof. intros H. now apply (Forall_take_drop P n l). Qed.

(** ** Little-endian words, read back *)

Lemma le_bytes_le_combine (bs : list Z) :
  bytes bs -> le_bytes (length bs) (le_combine bs) = bs.
Proof.
  induction 1 as [|b bs Hb Hbs IH]; [reflexivity|].
  cbn [length le_bytes le_combine]. unfold is_byte in Hb.
  replace (b + 256 * le_combine bs) with (b + le_combine bs * 256) by ring.
  rewrite Z.mod_add, Z.div_add by lia.
  rewrite Z.mod_small, Z.div_small by lia. simpl. now rewrite IH.
Qed.

Lemma le_bytes_broadcast (v : Z) :
  0 <= v < 256 -> le_bytes 8 (v * 0x0101010101010101) = repeat v 8.
Proof.
  intros Hv. rewrite <- le_combine_repeat8.
  apply (le_bytes_le_combine (repeat v 8)).
  unfold bytes. apply Forall_forall. intros x Hx. apply repeat_spec in Hx. now subst.
Qed.

Lemma land_255_byte (x : Z) : 0 <= Z.land x 255 < 256.
Proof.
  change 255 with (Z.ones 8). rewrite Z.land_ones by lia.
  apply Z.mod_pos_bound. simpl; lia.
Qed.

Lemma broadcast8x1_spec (x : Z) :
  broadcast8x1 x = Z.land x 255 * 0x0101010101010101 /\
  byte (broadcast8x1 x) = Z.land x 255 /\
  le_bytes 8 (broadcast8x1 x) = repeat (Z.land x 255) 8.
Proof.
  pose proof (land_255_byte x) as Hb.
  assert (H : broadcast8x1 x = Z.land x 255 * 0x0101010101010101).
  { unfold broadcast8x1, uint64. apply Z.mod_small.
    change (2 ^ 64) with 18446744073709551616. lia. }
  rewrite H. split; [reflexivity|]. split.
  - apply byte_broadcast. exact Hb.
  - apply le_bytes_broadcast. exact Hb.
Qed.

(** ** The encoders append to [dst], continued *)

Lemma encodeBytes_words_app (w : Z) (fuel : nat) :
  forall dst words,
    encodeBytes_words fuel dst words w = dst ++ encodeBytes_words fuel [] words w.
Proof.
  induction fuel as [|f IH]; intros dst words.
  - simpl. now rewrite app_nil_r.
  - destruct words as [|w0 rest]; [simpl; now rewrite app_nil_r|].
    cbn [encodeBytes_words]. destruct (0 <? _).
    + rewrite IH. rewrite (IH (appendRunLengthBytes [] _ _)).
      unfold appendRunLengthBytes. cbn [app]. now rewrite !app_assoc.
    + rewrite IH. rewrite (IH (appendBitPackedBytes [] _ _)).
      unfold appendBitPackedBytes. cbn [app]. now rewrite !app_assoc.
Qed.

Lemma encodeBytes_tail_app (fuel : nat) :
  forall dst src, encodeBytes_tail fuel dst src = dst ++ encodeBytes_tail fuel [] src.
Proof.
  induction fuel as [|f IH]; intros dst src.
  - simpl. now rewrite app_nil_r.
  - destruct src as [|b rest]; [simpl; now rewrite app_nil_r|].
    cbn [encodeBytes_tail]. rewrite IH. rewrite (IH (appendRunLengthBytes [] _ _)).
    unfold appendRunLengthBytes. cbn [app]. now rewrite !app_assoc.
Qed.

Lemma encodeInt32_words_app (w : Z) (fuel : nat) :
  forall dst words,
    encodeInt32_words fuel dst words w = dst ++ encodeInt32_words fuel [] words w.
Proof.
  induction fuel as [|f IH]; intros dst words.
  - simpl. now rewrite app_nil_r.
  - destruct words as [|w0 rest]; [simpl; now rewrite app_nil_r|].
    cbn [encodeInt32_words]. destruct (0 <? _).
    + rewrite IH. rewrite (IH (appendRunLengthInt32 [] _ _ _)).
      unfold appendRunLengthInt32. cbn [app]. now rewrite !app_assoc.
    + rewrite IH. rewrite (IH (appendBitPackedInt32 [] _ _)).
      unfold appendBitPackedInt32. cbn [app]. now rewrite !app_assoc.
Qed.

Lemma encodeInt32_tail_app (w : Z) (fuel : nat) :
  forall dst src,
    encodeInt32_tail fuel dst src w = dst ++ encodeInt32_tail fuel [] src w.
Proof.
  induction fuel as [|f IH]; intros dst src.
  - simpl. now rewrite app_nil_r.
  - destruct src as [|b rest]; [simpl; now rewrite app_nil_r|].
    cbn [encodeInt32_tail]. rewrite IH. rewrite (IH (appendRunLengthInt32 [] _ _ _)).
    unfold appendRunLengthInt32. cbn [app]. now rewrite !app_assoc.
Qed.

(** ** The byte codec: one run, decoded *)

Lemma decodeBytes_body_run_length (w : Z) (dst rest : list Z) (count v : Z) :
  w <> 0 -> 0 <= count <= maxSupportedValueCount ->
  decodeBytes_body w dst (appendRunLengthBytes [] count v ++ rest) =
  Next (dst ++ replicate count v) rest.
Proof.
  intros Hw Hc. unfold decodeBytes_body, appendRunLengthBytes. cbn [app].
  rewrite <- app_assoc. rewrite withHeader_rle by exact Hc.
  cbn [app]. rewrite len_cons. pose proof (len_nonneg rest).
  destruct (Z.eqb_spec w 0); [contradiction|]. cbn [negb andb].
  destruct (Z.ltb_spec (1 + len rest) 1); [lia|]. reflexivity.
Qed.

Lemma len_flat_map_le_bytes (n : nat) (ws : list Z) :
  len (flat_map (le_bytes n) ws) = Z.of_nat n * len ws.
Proof.
  induction ws as [|x ws IH]; [unfold len; simpl; lia|].
  cbn [flat_map]. rewrite len_app, len_cons, IH. unfold len at 1.
  rewrite length_le_bytes. lia.
Qed.

Lemma decodeBytes_body_bit_packed (w : Z) (dst rest ws : list Z) :
  1 <= w <= 8 -> len ws <= maxSupportedValueCount ->
  fits w (flat_map (le_bytes 8) ws) ->
  decodeBytes_body w dst (appendBitPackedBytes [] ws w ++ rest) =
  Next (dst ++ flat_map (le_bytes 8) ws) rest.
Proof.
  intros Hw Hc Hf. unfold decodeBytes_body, appendBitPackedBytes. cbn [app].
  rewrite <- app_assoc. pose proof (len_nonneg ws).
  rewrite withHeader_bitPacked by lia.
  unfold encodeBytesBitpack, decodeBytesBitpack.
  set (vs := flat_map (le_bytes 8) ws) in *.
  assert (Hvs : len vs = len ws * 8).
  { unfold vs. rewrite len_flat_map_le_bytes. lia. }
  assert (Hn : bitpack.ByteCount (len ws * 8 * w) = len (bitpack.pack vs w)).
  { rewrite len_pack by lia. now rewrite Hvs. }
  rewrite Hn, len_app. pose proof (len_nonneg rest).
  destruct (Z.ltb_spec (len (bitpack.pack vs w) + len rest) (len (bitpack.pack vs w)));
    [lia|].
  rewrite take_app_len, drop_app_len, <- Hvs, unpack_pack by lia.
  rewrite map_id_Forall; [reflexivity|].
  eapply Forall_impl; [|exact Hf]. intros v Hv. apply Z.mod_small. exact Hv.
Qed.

(** ** The byte codec: the loops of the encoder, decoded *)

Lemma decodeFrom_nil (body : list Z -> list Z -> iter) (dst : list Z) :
  decodeFrom body dst [] = Ok dst.
Proof. reflexivity. Qed.

Lemma decodeFrom_step (body : list Z -> list Z -> iter) (dst src dst' rest : list Z) :
  progress body -> src <> [] -> body dst src = Next dst' rest ->
  decodeFrom body dst src = decodeFrom body dst' rest.
Proof. apply decodeLoop_step. Qed.

Lemma appendRunLengthBytes_nonempty (count v : Z) (rest : list Z) :
  appendRunLengthBytes [] count v ++ rest <> [].
Proof.
  unfold appendRunLengthBytes. cbn [app]. rewrite <- app_assoc.
  apply PutUvarint_nonempty.
Qed.

Lemma appendBitPackedBytes_nonempty (ws : list Z) (w : Z) (rest : list Z) :
  appendBitPackedBytes [] ws w ++ rest <> [].
Proof.
  unfold appendBitPackedBytes. cbn [app]. rewrite <- app_assoc.
  apply PutUvarint_nonempty.
Qed.

Lemma length_drop_pos {A : Type} (n : Z) (l : list A) (f : nat) :
  1 <= n -> (length l <= S f)%nat -> (length (drop n l) <= f)%nat.
Proof. intros Hn Hl. unfold drop. rewrite length_skipn. lia. Qed.

Lemma len_drop_le {A : Type} (n : Z) (l : list A) : len (drop n l) <= len l.
Proof. unfold len. pose proof (length_drop_le n l). lia. Qed.

Lemma len_take_le {A : Type} (n : Z) (l : list A) : len (take n l) <= len l.
Proof. unfold len, take. rewrite length_firstn. lia. Qed.

Lemma flat_map_le_bytes_replicate (n : Z) (x v : Z) :
  0 <= n -> le_bytes 8 x = repeat v 8 ->
  flat_map (le_bytes 8) (replicate n x) = replicate (8 * n) v.
Proof.
  intros Hn Hx. unfold replicate.
  replace (Z.to_nat (8 * n)) with (8 * Z.to_nat n)%nat by lia.
  induction (Z.to_nat n) as [|k IH]; [reflexivity|].
  replace (8 * S k)%nat with (8 + 8 * k)%nat by lia.
  cbn [repeat flat_map]. rewrite IH, Hx, repeat_app. reflexivity.
Qed.

Lemma fits_flat_map_take_drop (w : Z) (n : Z) (ws : list Z) :
  fits w (flat_map (le_bytes 8) ws) ->
  fits w (flat_map (le_bytes 8) (take n ws)) /\
  fits w (flat_map (le_bytes 8) (drop n ws)).
Proof.
  intros H. unfold fits in *. apply Forall_app. now rewrite flat_map_take_drop.
Qed.

Lemma decodeFrom_encodeBytes_words (w : Z) (fuel : nat) :
  1 <= w <= 8 ->
  forall words dst rest,
    (length words <= fuel)%nat ->
    8 * len words <= maxSupportedValueCount ->
    fits w (flat_map (le_bytes 8) words) ->
    decodeFrom (decodeBytes_body w) dst (encodeBytes_words fuel [] words w ++ rest) =
    decodeFrom (decodeBytes_body w) (dst ++ flat_map (le_bytes 8) words) rest.
Proof.
  intros Hw. induction fuel as [|f IH]; intros words dst rest Hl Hc Hf.
  - destruct words; [|simpl in Hl; lia]. simpl. now rewrite app_nil_r.
  - destruct words as [|w0 ws]; [simpl; now rewrite app_nil_r|].
    cbn [encodeBytes_words].
    set (words := w0 :: ws) in *.
    set (pattern := broadcast8x1 w0).
    pose proof (indexWhile_range (Z.eqb pattern) words) as Hj.
    destruct (Z.ltb_spec 0 (indexWhile (Z.eqb pattern) words)) as [Hpos|Hzero].
    + set (j := indexWhile (Z.eqb pattern) words) in *.
      rewrite encodeBytes_words_app, <- app_assoc.
      rewrite (decodeFrom_step _ _ _ _ _ (decodeBytes_progress w)
                 (appendRunLengthBytes_nonempty _ _ _)
                 (decodeBytes_body_run_length w dst _ (8 * j) (byte pattern)
                    ltac:(lia) ltac:(lia))).
      destruct (fits_flat_map_take_drop w j words Hf) as [_ Hfd].
      pose proof (len_drop_le j words).
      rewrite IH; [| apply length_drop_pos; [lia | exact Hl] | lia | exact Hfd].
      f_equal. rewrite <- app_assoc. f_equal.
      rewrite <- (flat_map_take_drop (le_bytes 8) j words). f_equal.
      unfold j. rewrite take_indexWhile_eqb. fold j.
      destruct (broadcast8x1_spec w0) as (_ & Hb & Hle). fold pattern in Hb, Hle.
      rewrite Hb. symmetry. apply flat_map_le_bytes_replicate; [lia | exact Hle].
    + set (j := 1 + indexWhile2 (fun p c => negb (c =? broadcast8x1 p)) w0 ws).
      pose proof (indexWhile2_range (fun p c => negb (c =? broadcast8x1 p)) ws w0) as Hj2.
      assert (Hlw : len words = 1 + len ws) by apply len_cons.
      destruct (fits_flat_map_take_drop w j words Hf) as [Hft Hfd].
      pose proof (len_drop_le j words). pose proof (len_take_le j words).
      rewrite encodeBytes_words_app, <- app_assoc.
      rewrite (decodeFrom_step _ _ _ _ _ (decodeBytes_progress w)
                 (appendBitPackedBytes_nonempty _ _ _)
                 (decodeBytes_body_bit_packed w dst _ (take j words) Hw
                    ltac:(lia) Hft)).
      rewrite IH; [| apply length_drop_pos; [lia | exact Hl] | lia | exact Hfd].
      f_equal. rewrite <- app_assoc. f_equal. apply flat_map_take_drop.
Qed.

Lemma decodeFrom_encodeBytes_tail (w : Z) (fuel : nat) :
  w <> 0 ->
  forall tail dst rest,
    (length tail <= fuel)%nat -> len tail <= maxSupportedValueCount ->
    decodeFrom (decodeBytes_body w) dst (encodeBytes_tail fuel [] tail ++ rest) =
    decodeFrom (decodeBytes_body w) (dst ++ tail) rest.
Proof.
  intros Hw. induction fuel as [|f IH]; intros tail dst rest Hl Hc.
  - destruct tail; [|simpl in Hl; lia]. simpl. now rewrite app_nil_r.
  - destruct tail as [|b tl]; [simpl; now rewrite app_nil_r|].
    cbn [encodeBytes_tail].
    pose proof (indexWhile_range (Z.eqb b) tl) as Hj.
    set (j := indexWhile (Z.eqb b) tl) in *.
    rewrite len_cons in Hc.
    rewrite encodeBytes_tail_app, <- app_assoc.
    rewrite (decodeFrom_step _ _ _ _ _ (decodeBytes_progress w)
               (appendRunLengthBytes_nonempty _ _ _)
               (decodeBytes_body_run_length w dst _ (1 + j) b Hw ltac:(lia))).
    rewrite drop_cons by lia. pose proof (len_drop_le j tl).
    rewrite IH; [| pose proof (length_drop_le j tl); simpl in Hl; lia | lia].
    f_equal. rewrite <- app_assoc. f_equal.
    rewrite replicate_cons by lia. cbn [app]. f_equal.
    unfold j. rewrite <- take_indexWhile_eqb. apply take_drop.
Qed.

(** ** The byte codec: round trip *)

Lemma fits_bytes (w : Z) (xs : list Z) : 0 <= w <= 8 -> fits w xs -> bytes xs.
Proof.
  intros Hw H. eapply Forall_impl; [|exact H]. intros v Hv. unfold is_byte.
  cbv beta in Hv.
  assert (2 ^ w <= 2 ^ 8) by (apply Z.pow_le_mono_r; lia).
  change (2 ^ 8) with 256 in *. lia.
Qed.

Lemma fits_0 (xs : list Z) : fits 0 xs -> xs = replicate (len xs) 0.
Proof.
  intros H. unfold replicate, len. rewrite Nat2Z.id. apply Forall_eq_repeat.
  eapply Forall_impl; [|exact H]. intros v Hv. simpl in Hv. lia.
Qed.

Lemma firstn_add {A : Type} (a b : nat) (l : list A) :
  firstn (a + b) l = firstn a l ++ firstn b (skipn a l).
Proof.
  rewrite <- (firstn_skipn a (firstn (a + b) l)).
  rewrite firstn_firstn, Nat.min_l by lia.
  now rewrite firstn_skipn_comm.
Qed.

Lemma length_BytesToUint64 (m : nat) : forall xs, length (BytesToUint64 m xs) = m.
Proof. induction m; intros; simpl; auto. Qed.

Lemma flat_map_BytesToUint64 (m : nat) :
  forall xs, bytes xs -> (8 * m <= length xs)%nat ->
             flat_map (le_bytes 8) (BytesToUint64 m xs) = firstn (8 * m) xs.
Proof.
  induction m as [|m IH]; intros xs Hb Hl; [reflexivity|].
  cbn [BytesToUint64 flat_map].
  replace (8 * S m)%nat with (8 + 8 * m)%nat by lia.
  rewrite firstn_add. f_equal.
  - assert (H8 : length (firstn 8 xs) = 8%nat) by (rewrite length_firstn; lia).
    rewrite <- H8 at 1. apply le_bytes_le_combine.
    unfold bytes. apply (Forall_take _ 8 xs Hb).
  - apply IH; [apply (Forall_drop _ 8 xs Hb) | rewrite length_skipn; lia].
Qed.

Lemma div8_bounds (n : Z) : 0 <= n -> 0 <= n / 8 /\ 8 * (n / 8) <= n.
Proof.
  intros Hn. split; [apply Z.div_pos; lia|]. apply Z.mul_div_le. lia.
Qed.

Lemma encodeBytes_decodeBytes (w : Z) (xs : list Z) :
  0 <= w <= 8 -> fits w xs -> len xs <= maxSupportedValueCount ->
  exists enc, encodeBytes [] xs w = Ok enc /\ decodeBytes [] enc w = Ok xs.
Proof.
  intros Hw Hf Hc. pose proof (len_nonneg xs) as Hn.
  unfold encodeBytes, decodeBytes.
  destruct (Z.ltb_spec 8 w); [lia|].
  destruct (Z.eqb_spec w 0) as [->|Hw0].
  - pose proof (fits_0 xs Hf) as Hx.
    assert (Hz : isZero xs = true)
      by (rewrite Hx; unfold replicate; apply isZero_repeat).
    rewrite Hz. cbn [negb]. eexists. split; [reflexivity|].
    unfold appendUvarint. cbn [app].
    change (decodeFrom (decodeBytes_body 0) [] (binary.PutUvarint (rleHeader (len xs))) = Ok xs).
    rewrite <- (app_nil_r (binary.PutUvarint _)).
    rewrite (decodeFrom_step _ _ _ (replicate (len xs) 0) []
               (decodeBytes_progress 0) (PutUvarint_nonempty _ _)).
    + rewrite decodeFrom_nil. now rewrite <- Hx.
    + unfold decodeBytes_body. rewrite withHeader_rle by lia. reflexivity.
  - pose proof (fits_bytes w xs Hw Hf) as Hb.
    destruct (div8_bounds (len xs) Hn) as [Hm0 Hm8].
    set (m := Z.to_nat (len xs / 8)).
    set (words := BytesToUint64 m xs).
    assert (Hlw : length words = m) by apply length_BytesToUint64.
    assert (Hm : (8 * m <= length xs)%nat) by (unfold m; unfold len in *; lia).
    assert (Hflat : flat_map (le_bytes 8) words = take (len xs / 8 * 8) xs).
    { unfold words. rewrite flat_map_BytesToUint64 by assumption.
      unfold take. f_equal. unfold m. lia. }
    assert (HW : (if 8 <=? len xs then encodeBytes_words (length words) [] words w else [])
                 = encodeBytes_words (length words) [] words w).
    { destruct (Z.leb_spec 8 (len xs)); [reflexivity|].
      assert (Hd : len xs / 8 = 0) by (apply Z.div_small; lia).
      unfold words, m. rewrite Hd. reflexivity. }
    rewrite HW. eexists. split; [reflexivity|].
    set (tail := drop (len xs / 8 * 8) xs).
    change (decodeFrom (decodeBytes_body w) []
              (encodeBytes_tail (length tail)
                 (encodeBytes_words (length words) [] words w) tail) = Ok xs).
    rewrite encodeBytes_tail_app.
    rewrite decodeFrom_encodeBytes_words; [| lia | lia | | ].
    + rewrite <- (app_nil_r (encodeBytes_tail _ _ _)).
      rewrite decodeFrom_encodeBytes_tail; [| exact Hw0 | lia | ].
      * rewrite decodeFrom_nil. cbn [app]. rewrite Hflat. unfold tail.
        now rewrite take_drop.
      * pose proof (len_drop_le (len xs / 8 * 8) xs). fold tail in H0. lia.
    + unfold len. rewrite Hlw. unfold m. lia.
    + rewrite Hflat. apply Forall_take. exact Hf.
Qed.

(** ** [appendRepeat]: the doubling copy gives [count] copies *)

Lemma firstn_concat_repeat (pat : list Z) (k c : nat) :
  (k <= c)%nat ->
  firstn (k * length pat) (concat (repeat pat c)) = concat (repeat pat k).
Proof.
  revert c. induction k as [|k IH]; intros c Hk; [reflexivity|].
  destruct c as [|c]; [lia|].
  cbn [repeat concat]. replace (S k * length pat)%nat with (length pat + k * length pat)%nat by lia.
  rewrite firstn_app_2. f_equal. apply IH. lia.
Qed.

Lemma length_concat_repeat (pat : list Z) (c : nat) :
  length (concat (repeat pat c)) = (c * length pat)%nat.
Proof.
  induction c as [|c IH]; [reflexivity|].
  cbn [repeat concat]. rewrite length_app, IH. lia.
Qed.

Lemma concat_repeat_add (pat : list Z) (a b : nat) :
  concat (repeat pat (a + b)) = concat (repeat pat a) ++ concat (repeat pat b).
Proof. now rewrite repeat_app, concat_app. Qed.

Lemma appendRepeat_loop_spec (pat : list Z) (n : nat) (fuel : nat) :
  (0 < length pat)%nat ->
  forall c, (1 <= c <= n)%nat -> (n - c <= fuel)%nat ->
    appendRepeat_loop fuel (concat (repeat pat c)) (Z.of_nat n * len pat) =
    concat (repeat pat n).
Proof.
  intros Hp. induction fuel as [|fuel IH]; intros c Hc Hf.
  - assert (c = n) by lia. subst c. reflexivity.
  - cbn [appendRepeat_loop].
    assert (Hlen : len (concat (repeat pat c)) = Z.of_nat c * len pat)
      by (unfold len; rewrite length_concat_repeat; lia).
    rewrite Hlen.
    destruct (Z.ltb_spec (Z.of_nat c * len pat) (Z.of_nat n * len pat)) as [Hlt|Hge].
    + assert (Hcn : (c < n)%nat) by (unfold len in Hlt; nia).
      set (k := Nat.min c (n - c)).
      assert (Ht : take (Z.of_nat n * len pat - Z.of_nat c * len pat)
                        (concat (repeat pat c)) = concat (repeat pat k)).
      { unfold take.
        replace (Z.to_nat (Z.of_nat n * len pat - Z.of_nat c * len pat))
          with ((n - c) * length pat)%nat by (unfold len; nia).
        destruct (Nat.le_gt_cases (n - c) c) as [Hle|Hgt].
        - unfold k. rewrite Nat.min_r by lia. apply firstn_concat_repeat. exact Hle.
        - unfold k. rewrite Nat.min_l by lia. apply firstn_all2.
          rewrite length_concat_repeat. nia. }
      rewrite Ht, <- concat_repeat_add. apply IH; unfold k; lia.
    + assert (c = n) by (unfold len in Hge; nia). subst c. reflexivity.
Qed.

Lemma appendRepeat_spec (dst pat : list Z) (count : Z) :
  0 <= count -> (0 < length pat)%nat ->
  appendRepeat dst pat count = dst ++ concat (repeat pat (Z.to_nat count)).
Proof.
  intros Hc Hp. unfold appendRepeat. f_equal.
  destruct (Z.to_nat count) as [|n] eqn:En.
  - assert (count = 0) by lia. subst count. reflexivity.
  - assert (Hcount : count = Z.of_nat (S n)) by lia. rewrite Hcount.
    assert (Ht : take (Z.of_nat (S n) * len pat) pat = concat (repeat pat 1)).
    { cbn [repeat concat]. rewrite app_nil_r. unfold take. apply firstn_all2.
      unfold len. nia. }
    rewrite Ht. apply appendRepeat_loop_spec; [exact Hp | lia |].
    unfold len. nia.
Qed.

(** ** The int32 codec: one run, decoded *)

Lemma Int32ToBytes_repeat (v : Z) (n : nat) :
  Int32ToBytes (repeat v n) = concat (repeat (le_bytes 4 (uint32 v)) n).
Proof.
  induction n as [|n IH]; [reflexivity|].
  cbn [repeat concat]. unfold Int32ToBytes in *. cbn [flat_map]. now rewrite IH.
Qed.

Lemma Int32ToBytes_app (a b : list Z) :
  Int32ToBytes (a ++ b) = Int32ToBytes a ++ Int32ToBytes b.
Proof. unfold Int32ToBytes. apply flat_map_app. Qed.

Lemma le_bytes_4_small (x : Z) (n : Z) :
  0 <= n <= 4 -> 0 <= x < 256 ^ n ->
  take 4 (take n (le_bytes 4 x) ++ [0; 0; 0; 0]) = le_bytes 4 x.
Proof.
  intros Hn Hx.
  assert (Hcases : n = 0 \/ n = 1 \/ n = 2 \/ n = 3 \/ n = 4) by lia.
  cbn [le_bytes].
  destruct Hcases as [->|[->|[->|[->| ->]]]]; cbn [take Z.to_nat Pos.to_nat Pos.iter_op
    Nat.add firstn app]; change (256 ^ 0) with 1 in Hx; change (256 ^ 1) with 256 in Hx;
    change (256 ^ 2) with 65536 in Hx; change (256 ^ 3) with 16777216 in Hx.
  - assert (x = 0) by lia. subst x. reflexivity.
  - rewrite (Z.div_small x 256) by lia. reflexivity.
  - assert (H1 : x / 256 / 256 = 0)
      by (rewrite Z.div_div by lia; apply Z.div_small; lia).
    rewrite H1. reflexivity.
  - assert (H1 : x / 256 / 256 / 256 = 0)
      by (rewrite !Z.div_div by lia; apply Z.div_small; lia).
    rewrite H1. reflexivity.
  - reflexivity.
Qed.

Lemma pow2_le_256_ByteCount (w : Z) : 0 <= w -> 2 ^ w <= 256 ^ bitpack.ByteCount w.
Proof.
  intros Hw. change 256 with (2 ^ 8).
  assert (0 <= bitpack.ByteCount w) by (unfold bitpack.ByteCount; apply Z.div_pos; lia).
  rewrite <- Z.pow_mul_r by lia. apply Z.pow_le_mono_r; [lia|].
  unfold bitpack.ByteCount.
  pose proof (Z_div_mod_eq_full (w + 7) 8).
  pose proof (Z.mod_pos_bound (w + 7) 8 ltac:(lia)). lia.
Qed.

Lemma uint32_range (v : Z) : 0 <= uint32 v < 2 ^ 32.
Proof. unfold uint32. apply Z.mod_pos_bound. reflexivity. Qed.

Lemma ByteCount_range (w : Z) : 0 <= w <= 32 -> 0 <= bitpack.ByteCount w <= 4.
Proof.
  intros Hw. unfold bitpack.ByteCount. split; [apply Z.div_pos; lia|].
  assert ((w + 7) / 8 < 5) by (apply Z.div_lt_upper_bound; lia). lia.
Qed.

Lemma appendRunLengthInt32_nonempty (count v w : Z) (rest : list Z) :
  appendRunLengthInt32 [] count v w ++ rest <> [].
Proof.
  unfold appendRunLengthInt32. cbn [app]. rewrite <- app_assoc.
  apply PutUvarint_nonempty.
Qed.

Lemma appendBitPackedInt32_nonempty (ws : list (list Z)) (w : Z) (rest : list Z) :
  appendBitPackedInt32 [] ws w ++ rest <> [].
Proof.
  unfold appendBitPackedInt32. cbn [app]. rewrite <- app_assoc.
  apply PutUvarint_nonempty.
Qed.

Lemma decodeInt32_body_run_length (w : Z) (spare dst rest : list Z) (count v : Z) :
  0 <= w <= 32 -> 0 <= count <= maxSupportedValueCount -> uint32 v < 2 ^ w ->
  decodeInt32_body w spare dst (appendRunLengthInt32 [] count v w ++ rest) =
  Next (dst ++ Int32ToBytes (replicate count v)) rest.
Proof.
  intros Hw Hc Hv. unfold decodeInt32_body, appendRunLengthInt32. cbn [app].
  rewrite <- app_assoc. rewrite withHeader_rle by exact Hc.
  pose proof (ByteCount_range w Hw) as HB. pose proof (uint32_range v) as Hu.
  set (B := bitpack.ByteCount w) in *.
  set (val := take B (le_bytes 4 (uint32 v))).
  assert (Hlv : len val = B).
  { unfold val. apply len_take. unfold len. rewrite length_le_bytes. lia. }
  rewrite len_app, Hlv. pose proof (len_nonneg rest).
  destruct (Z.ltb_spec (B + len rest) B); [lia|].
  replace (take B (val ++ rest)) with val by (rewrite <- Hlv; now rewrite take_app_len).
  replace (drop B (val ++ rest)) with rest by (rewrite <- Hlv; now rewrite drop_app_len).
  unfold val.
  rewrite le_bytes_4_small.
  - rewrite appendRepeat_spec; [| lia | rewrite length_le_bytes; lia].
    unfold replicate. now rewrite Int32ToBytes_repeat.
  - exact HB.
  - pose proof (pow2_le_256_ByteCount w ltac:(lia)). fold B in H1. lia.
Qed.

Lemma mod_pow2_uint32 (w v : Z) :
  0 <= w <= 32 -> uint32 v < 2 ^ w -> v mod 2 ^ w = uint32 v.
Proof.
  intros Hw Hv. pose proof (uint32_range v).
  rewrite <- (Z.mod_small (uint32 v) (2 ^ w)) by lia.
  unfold uint32. symmetry. apply Z.mod_mod_divide.
  exists (2 ^ (32 - w)). rewrite <- Z.pow_add_r by lia. f_equal. lia.
Qed.

Lemma uint32_idem (v : Z) : uint32 (uint32 v) = uint32 v.
Proof. unfold uint32. apply Z.mod_mod. discriminate. Qed.

Lemma Int32ToBytes_map_mod (w : Z) (vs : list Z) :
  0 <= w <= 32 -> fits32 w vs ->
  Int32ToBytes (map (fun v => v mod 2 ^ w) vs) = Int32ToBytes vs.
Proof.
  intros Hw H. induction H as [|v vs Hv Hvs IH]; [reflexivity|].
  unfold Int32ToBytes in *. cbn [map flat_map]. rewrite IH.
  rewrite (mod_pow2_uint32 w v Hw Hv), uint32_idem. reflexivity.
Qed.

Lemma len_concat_words (ws : list (list Z)) :
  Forall (fun word => length word = 8%nat) ws -> len (concat ws) = 8 * len ws.
Proof.
  induction 1 as [|x ws Hx Hws IH]; [reflexivity|].
  cbn [concat]. rewrite len_app, len_cons, IH. unfold len at 1. rewrite Hx. lia.
Qed.

Lemma decodeInt32_body_bit_packed (w : Z) (spare dst rest : list Z) (ws : list (list Z)) :
  0 <= w <= 32 -> len ws <= maxSupportedValueCount ->
  Forall (fun word => length word = 8%nat) ws -> fits32 w (concat ws) ->
  decodeInt32_body w spare dst (appendBitPackedInt32 [] ws w ++ rest) =
  Next (dst ++ Int32ToBytes (concat ws)) rest.
Proof.
  intros Hw Hc H8 Hf. unfold decodeInt32_body, appendBitPackedInt32. cbn [app].
  rewrite <- app_assoc. pose proof (len_nonneg ws).
  rewrite withHeader_bitPacked by lia.
  unfold encodeInt32Bitpack, encodeInt32BitpackDefault.
  set (vs := concat ws) in *.
  assert (Hvs : len vs = 8 * len ws) by (apply len_concat_words; exact H8).
  assert (Hn : len ws * w = len (bitpack.pack vs w)).
  { rewrite len_pack by lia. rewrite Hvs.
    replace (8 * len ws * w) with (8 * (len ws * w)) by ring.
    now rewrite ByteCount_mul8. }
  rewrite Hn, len_app. pose proof (len_nonneg rest). pose proof (len_nonneg spare).
  destruct (Z.ltb_spec (len (bitpack.pack vs w) + len rest + len spare)
                       (len (bitpack.pack vs w))); [lia|].
  rewrite <- app_assoc, take_app_len, drop_app_len, <- Hvs, unpack_pack by lia.
  rewrite Int32ToBytes_map_mod by assumption. reflexivity.
Qed.

(** ** The int32 codec: the loops of the encoder, decoded *)

Lemma take_indexWhile_eq {A : Type} (eqb : A -> A -> bool) (x : A) (l : list A) :
  (forall y, eqb x y = true -> y = x) ->
  take (indexWhile (eqb x) l) l = replicate (indexWhile (eqb x) l) x.
Proof.
  intros Heq.
  pose proof (take_indexWhile (eqb x) l) as H.
  pose proof (indexWhile_range (eqb x) l) as Hr.
  assert (H' : Forall (fun y => y = x) (take (indexWhile (eqb x) l) l)).
  { eapply Forall_impl; [|exact H]. intros y Hy. now apply Heq. }
  apply Forall_eq_repeat in H'. rewrite H' at 1. unfold replicate. f_equal.
  unfold take. rewrite length_firstn. unfold len in Hr. lia.
Qed.

Lemma concat_repeat_broadcast8x4 (v : Z) (k : nat) :
  concat (repeat (broadcast8x4 v) k) = repeat v (8 * k).
Proof.
  induction k as [|k IH]; [reflexivity|].
  replace (8 * S k)%nat with (8 + 8 * k)%nat by lia.
  cbn [repeat concat]. rewrite IH. reflexivity.
Qed.

Lemma concat_take_drop {A : Type} (n : Z) (l : list (list A)) :
  concat (take n l) ++ concat (drop n l) = concat l.
Proof. rewrite <- concat_app. now rewrite take_drop. Qed.

Lemma fits32_concat_take_drop (w n : Z) (ws : list (list Z)) :
  fits32 w (concat ws) ->
  fits32 w (concat (take n ws)) /\ fits32 w (concat (drop n ws)).
Proof.
  intros H. unfold fits32 in *. apply Forall_app. now rewrite concat_take_drop.
Qed.

Lemma encodeInt32IndexEqual8Contiguous_range (ws : list (list Z)) :
  0 <= encodeInt32IndexEqual8Contiguous ws <= len ws.
Proof.
  induction ws as [|x ws IH]; cbn [encodeInt32IndexEqual8Contiguous];
    [unfold len; simpl; lia|].
  rewrite len_cons. destruct (wordEq _ _); lia.
Qed.

Lemma decodeFrom_encodeInt32_words (w : Z) (spare : list Z) (fuel : nat) :
  0 <= w <= 32 ->
  forall words dst rest,
    (length words <= fuel)%nat ->
    8 * len words <= maxSupportedValueCount ->
    Forall (fun word => length word = 8%nat) words ->
    fits32 w (concat words) ->
    decodeFrom (decodeInt32_body w spare) dst (encodeInt32_words fuel [] words w ++ rest) =
    decodeFrom (decodeInt32_body w spare) (dst ++ Int32ToBytes (concat words)) rest.
Proof.
  intros Hw. induction fuel as [|f IH]; intros words dst rest Hl Hc H8 Hf.
  - destruct words; [|simpl in Hl; lia]. simpl. now rewrite app_nil_r.
  - destruct words as [|w0 ws]; [simpl; now rewrite app_nil_r|].
    cbn [encodeInt32_words].
    set (words := w0 :: ws) in *.
    set (v := hd 0 w0).
    change (hd 0 (broadcast8x4 v)) with v.
    pose proof (indexWhile_range (wordEq (broadcast8x4 v)) words) as Hj.
    destruct (Z.ltb_spec 0 (indexWhile (wordEq (broadcast8x4 v)) words)) as [Hpos|Hzero].
    + assert (Hw0 : w0 = broadcast8x4 v).
      { unfold words in Hpos. cbn [indexWhile] in Hpos.
        destruct (wordEq (broadcast8x4 v) w0) eqn:E; [|lia].
        symmetry. now apply wordEq_eq. }
      assert (Hv : uint32 v < 2 ^ w).
      { unfold fits32, words in Hf. cbn [concat] in Hf.
        apply Forall_app in Hf. destruct Hf as [Hf _].
        rewrite Hw0 in Hf. now inversion Hf. }
      set (j := indexWhile (wordEq (broadcast8x4 v)) words) in *.
      rewrite encodeInt32_words_app, <- app_assoc.
      rewrite (decodeFrom_step _ _ _ _ _ (decodeInt32_progress w spare)
                 (appendRunLengthInt32_nonempty _ _ _ _)
                 (decodeInt32_body_run_length w spare dst _ (8 * j) v Hw
                    ltac:(lia) Hv)).
      destruct (fits32_concat_take_drop w j words Hf) as [_ Hfd].
      pose proof (len_drop_le j words).
      rewrite IH;
        [| apply length_drop_pos; [lia | exact Hl] | lia | apply Forall_drop; exact H8
         | exact Hfd].
      f_equal. rewrite <- app_assoc, <- Int32ToBytes_app. f_equal. f_equal.
      rewrite <- (concat_take_drop j words). f_equal.
      unfold j. rewrite (take_indexWhile_eq wordEq)
        by (intros y Hy; symmetry; now apply wordEq_eq).
      fold j. unfold replicate. rewrite concat_repeat_broadcast8x4.
      f_equal. lia.
    + set (j := 1 + encodeInt32IndexEqual8Contiguous ws).
      pose proof (encodeInt32IndexEqual8Contiguous_range ws) as Hj2.
      assert (Hlw : len words = 1 + len ws) by apply len_cons.
      destruct (fits32_concat_take_drop w j words Hf) as [Hft Hfd].
      pose proof (len_drop_le j words). pose proof (len_take_le j words).
      rewrite encodeInt32_words_app, <- app_assoc.
      rewrite (decodeFrom_step _ _ _ _ _ (decodeInt32_progress w spare)
                 (appendBitPackedInt32_nonempty _ _ _)
                 (decodeInt32_body_bit_packed w spare dst _ (take j words) Hw
                    ltac:(lia) (Forall_take _ j words H8) Hft)).
      rewrite IH;
        [| apply length_drop_pos; [lia | exact Hl] | lia | apply Forall_drop; exact H8
         | exact Hfd].
      f_equal. rewrite <- app_assoc, <- Int32ToBytes_app. f_equal. f_equal.
      apply concat_take_drop.
Qed.

Lemma decodeFrom_encodeInt32_tail (w : Z) (spare : list Z) (fuel : nat) :
  0 <= w <= 32 ->
  forall tail dst rest,
    (length tail <= fuel)%nat -> len tail <= maxSupportedValueCount ->
    fits32 w tail ->
    decodeFrom (decodeInt32_body w spare) dst (encodeInt32_tail fuel [] tail w ++ rest) =
    decodeFrom (decodeInt32_body w spare) (dst ++ Int32ToBytes tail) rest.
Proof.
  intros Hw. induction fuel as [|f IH]; intros tail dst rest Hl Hc Hf.
  - destruct tail; [|simpl in Hl; lia]. simpl. now rewrite app_nil_r.
  - destruct tail as [|b tl]; [simpl; now rewrite app_nil_r|].
    cbn [encodeInt32_tail].
    pose proof (indexWhile_range (Z.eqb b) tl) as Hj.
    set (j := indexWhile (Z.eqb b) tl) in *.
    rewrite len_cons in Hc.
    assert (Hb : uint32 b < 2 ^ w) by now inversion Hf.
    assert (Hftl : fits32 w tl) by now inversion Hf.
    rewrite encodeInt32_tail_app, <- app_assoc.
    rewrite (decodeFrom_step _ _ _ _ _ (decodeInt32_progress w spare)
               (appendRunLengthInt32_nonempty _ _ _ _)
               (decodeInt32_body_run_length w spare dst _ (1 + j) b Hw ltac:(lia) Hb)).
    rewrite drop_cons by lia. pose proof (len_drop_le j tl).
    rewrite IH;
      [| pose proof (length_drop_le j tl); simpl in Hl; lia | lia
       | apply Forall_drop; exact Hftl].
    f_equal. rewrite <- app_assoc, <- Int32ToBytes_app. f_equal. f_equal.
    rewrite replicate_cons by lia. cbn [app]. f_equal.
    unfold j. rewrite <- take_indexWhile_eqb. apply take_drop.
Qed.

(** ** The int32 codec: round trip *)

Lemma length_Int32ToWords (m : nat) : forall xs, length (Int32ToWords m xs) = m.
Proof. induction m; intros; simpl; auto. Qed.

Lemma concat_Int32ToWords (m : nat) :
  forall xs, (8 * m <= length xs)%nat ->
             concat (Int32ToWords m xs) = firstn (8 * m) xs /\
             Forall (fun word => length word = 8%nat) (Int32ToWords m xs).
Proof.
  induction m as [|m IH]; intros xs Hl; [split; [reflexivity | constructor]|].
  cbn [Int32ToWords concat].
  replace (8 * S m)%nat with (8 + 8 * m)%nat by lia.
  rewrite firstn_add.
  destruct (IH (skipn 8 xs)) as [IH1 IH2]; [rewrite length_skipn; lia|].
  split; [now rewrite IH1|]. constructor; [|exact IH2].
  rewrite length_firstn. lia.
Qed.

Lemma fits32_0 (src : list Z) :
  fits32 0 src ->
  isZero (Int32ToBytes src) = true /\
  Int32ToBytes src = Int32ToBytes (replicate (len src) 0).
Proof.
  intros H. unfold replicate, len. rewrite Nat2Z.id.
  induction H as [|v vs Hv Hvs [IH1 IH2]]; [split; reflexivity|].
  pose proof (uint32_range v). change (2 ^ 0) with 1 in Hv.
  assert (Hu : uint32 v = 0) by lia.
  unfold Int32ToBytes in *. cbn [length repeat flat_map]. rewrite Hu. split.
  - exact IH1.
  - rewrite IH2. reflexivity.
Qed.

Lemma encodeInt32_decodeInt32 (w : Z) (src spare : list Z) :
  0 <= w <= 32 -> fits32 w src -> len src <= maxSupportedValueCount ->
  exists enc,
    encodeInt32 [] src w = Ok enc /\
    decodeInt32 [] enc spare w = Ok (Int32ToBytes src).
Proof.
  intros Hw Hf Hc. pose proof (len_nonneg src) as Hn.
  unfold encodeInt32, decodeInt32.
  destruct (Z.ltb_spec 32 w); [lia|].
  destruct (Z.eqb_spec w 0) as [->|Hw0].
  - destruct (fits32_0 src Hf) as [Hz Hx].
    rewrite Hz. cbn [negb]. eexists. split; [reflexivity|].
    unfold appendUvarint. cbn [app].
    change (decodeFrom (decodeInt32_body 0 spare) []
              (binary.PutUvarint (rleHeader (len src))) = Ok (Int32ToBytes src)).
    pose proof (decodeInt32_body_run_length 0 spare [] [] (len src) 0
                  ltac:(lia) ltac:(lia) ltac:(reflexivity)) as Hstep.
    assert (Henc : appendRunLengthInt32 [] (len src) 0 0 ++ []
                   = binary.PutUvarint (rleHeader (len src))).
    { unfold appendRunLengthInt32. cbn [app]. rewrite app_nil_r.
      change (take (bitpack.ByteCount 0) (le_bytes 4 (uint32 0))) with (@nil Z).
      apply app_nil_r. }
    pose proof (appendRunLengthInt32_nonempty (len src) 0 0 []) as Hne.
    rewrite Henc in Hstep, Hne.
    rewrite (decodeFrom_step _ _ _ _ _ (decodeInt32_progress 0 spare) Hne Hstep).
    rewrite decodeFrom_nil. cbn [app]. now rewrite <- Hx.
  - destruct (div8_bounds (len src) Hn) as [Hm0 Hm8].
    set (m := Z.to_nat (len src / 8)).
    set (words := Int32ToWords m src).
    assert (Hlw : length words = m) by apply length_Int32ToWords.
    assert (Hm : (8 * m <= length src)%nat) by (unfold m; unfold len in *; lia).
    destruct (concat_Int32ToWords m src Hm) as [Hcat H8]. fold words in Hcat, H8.
    assert (Hflat : concat words = take (len src / 8 * 8) src).
    { rewrite Hcat. unfold take. f_equal. unfold m. lia. }
    assert (HW : (if 8 <=? len src then encodeInt32_words (length words) [] words w else [])
                 = encodeInt32_words (length words) [] words w).
    { destruct (Z.leb_spec 8 (len src)); [reflexivity|].
      assert (Hd : len src / 8 = 0) by (apply Z.div_small; lia).
      unfold words, m. rewrite Hd. reflexivity. }
    rewrite HW. eexists. split; [reflexivity|].
    set (tail := drop (len src / 8 * 8) src).
    change (decodeFrom (decodeInt32_body w spare) []
              (encodeInt32_tail (length tail)
                 (encodeInt32_words (length words) [] words w) tail w)
            = Ok (Int32ToBytes src)).
    rewrite encodeInt32_tail_app.
    rewrite decodeFrom_encodeInt32_words; [| lia | lia | | exact H8 | ].
    + rewrite <- (app_nil_r (encodeInt32_tail _ _ _ _)).
      rewrite decodeFrom_encodeInt32_tail; [| lia | lia | | ].
      * rewrite decodeFrom_nil. cbn [app]. rewrite <- Int32ToBytes_app, Hflat.
        unfold tail. now rewrite take_drop.
      * pose proof (len_drop_le (len src / 8 * 8) src). fold tail in H0. lia.
      * unfold tail. apply Forall_drop. exact Hf.
    + unfold len. rewrite Hlw. unfold m. lia.
    + rewrite Hflat. apply Forall_take. exact Hf.
Qed.

(** ** The values of the claim and the [int32] slice that holds them *)

Lemma uint32_int32 (x : Z) : 0 <= x < 2 ^ 32 -> uint32 (int32 x) = x.
Proof.
  intros Hx. unfold int32. assert (Hu : uint32 x = x) by (apply Z.mod_small; lia).
  rewrite Hu. destruct (x <? 2 ^ 31); [exact Hu|].
  unfold uint32. replace (x - 2 ^ 32) with (x + (-1) * 2 ^ 32) by ring.
  rewrite Z.mod_add by discriminate. exact Hu.
Qed.

Lemma fits_fits32 (w : Z) (xs : list Z) :
  0 <= w <= 32 -> fits w xs ->
  fits32 w (map int32 xs) /\ Int32ToBytes (map int32 xs) = flat_map (le_bytes 4) xs /\
  BytesToInt32 (length xs) (flat_map (le_bytes 4) xs) = map int32 xs.
Proof.
  intros Hw H. assert (H32 : 2 ^ w <= 2 ^ 32) by (apply Z.pow_le_mono_r; lia).
  induction H as [|x xs Hx Hxs (IH1 & IH2 & IH3)]; [repeat split; constructor|].
  assert (Hu : uint32 (int32 x) = x) by (apply uint32_int32; lia).
  split; [|split].
  - cbn [map]. constructor; [rewrite Hu; lia | exact IH1].
  - unfold Int32ToBytes in *. cbn [map flat_map]. now rewrite Hu, IH2.
  - cbn [length flat_map BytesToInt32].
    set (r := flat_map (le_bytes 4) xs) in *.
    change (firstn 4 (le_bytes 4 x ++ r)) with (le_bytes 4 x).
    change (skipn 4 (le_bytes 4 x ++ r)) with r.
    rewrite le_combine_le_bytes, IH3. cbn [map]. f_equal. f_equal.
    apply Z.mod_small. change (256 ^ Z.of_nat 4) with (2 ^ 32). lia.
Qed.

(** ** Round trip *)

Lemma len_tooLong : len tooLong = maxSupportedValueCount + 1.
Proof.
  unfold tooLong, replicate, len. rewrite repeat_length. apply Z2Nat.id.
  unfold maxSupportedValueCount. lia.
Qed.

(** C1, as the claim states it, fails: a sequence of 16 * 2^20 + 1 zeros
    fits every bit width; at width 0 it is encoded as one run-length
    header, which declares more values than [maxSupportedValueCount], and
    the decoder returns the error [CountTooLarge] in place of the
    sequence. *)
Lemma round_trip_fails_above_the_cap :
  fits 0 tooLong /\
  encodeBytes [] tooLong 0 = Ok [130; 128; 128; 16] /\
  decodeBytes [] [130; 128; 128; 16] 0 = Err CountTooLarge [].
Proof.
  split; [|split].
  - unfold fits, tooLong, replicate. apply Forall_forall. intros x Hx.
    apply repeat_spec in Hx. subst x. simpl. lia.
  - unfold encodeBytes.
    replace (isZero tooLong) with true
      by (symmetry; unfold tooLong, replicate; apply isZero_repeat).
    rewrite len_tooLong. reflexivity.
  - reflexivity.
Qed.

(** C1 (amended).  For every bit width [w] and every sequence [xs] of at
    most 16 * 2^20 non-negative integers below [2^w], the encoder returns
    an encoding and the decoder, run on it, returns [xs]: the byte codec
    at widths 0 to 8 ([encodeBytes], [decodeBytes]), and the int32 codec
    at widths 0 to 32 ([encodeInt32], [decodeInt32]), whose input is the
    [int32] slice holding [xs] and whose output is the little-endian
    bytes of that slice.  The empty sequence is one of them. *)
Theorem decode_encode_round_trip (w : Z) (xs spare : list Z) :
  0 <= w -> fits w xs -> len xs <= maxSupportedValueCount ->
  (w <= 8 ->
   exists enc, encodeBytes [] xs w = Ok enc /\ decodeBytes [] enc w = Ok xs) /\
  (w <= 32 ->
   exists enc,
     encodeInt32 [] (map int32 xs) w = Ok enc /\
     decodeInt32 [] enc spare w = Ok (flat_map (le_bytes 4) xs) /\
     BytesToInt32 (length xs) (flat_map (le_bytes 4) xs) = map int32 xs).
Proof.
  intros Hw Hf Hc. split.
  - intros H8. apply encodeBytes_decodeBytes; [lia | exact Hf | exact Hc].
  - intros H32.
    destruct (fits_fits32 w xs ltac:(lia) Hf) as (Hf32 & Hbytes & Hback).
    assert (Hc32 : len (map int32 xs) <= maxSupportedValueCount)
      by (unfold len; rewrite length_map; exact Hc).
    destruct (encodeInt32_decodeInt32 w (map int32 xs) spare ltac:(lia) Hf32 Hc32)
      as (enc & He & Hd).
    exists enc. rewrite Hbytes in Hd. auto.
Qed.

Lemma decode_encode_round_trip_witness :
  (exists enc,
     encodeBytes [] [1; 2; 3; 4; 5; 6; 7; 0; 3; 3; 3; 3; 3; 3; 3; 3; 6; 6; 1] 3 = Ok enc /\
     decodeBytes [] enc 3 = Ok [1; 2; 3; 4; 5; 6; 7; 0; 3; 3; 3; 3; 3; 3; 3; 3; 6; 6; 1]) /\
  (exists enc,
     encodeInt32 [] (map int32 [4294967295; 0; 70000]) 32 = Ok enc /\
     decodeInt32 [] enc [] 32 = Ok (flat_map (le_bytes 4) [4294967295; 0; 70000]) /\
     BytesToInt32 3 (flat_map (le_bytes 4) [4294967295; 0; 70000])
       = map int32 [4294967295; 0; 70000]) /\
  (exists enc, encodeBytes [] [] 0 = Ok enc /\ decodeBytes [] enc 0 = Ok []).
Proof.
  assert (Hcap : forall n, n <= 100 -> n <= maxSupportedValueCount)
    by (intros n Hn; unfold maxSupportedValueCount; lia).
  split; [|split].
  - refine (proj1 (decode_encode_round_trip 3
                     [1; 2; 3; 4; 5; 6; 7; 0; 3; 3; 3; 3; 3; 3; 3; 3; 6; 6; 1] []
                     _ _ _) _).
    + lia.
    + unfold fits. repeat constructor; simpl; lia.
    + apply Hcap. vm_compute. discriminate.
    + lia.
  - refine (proj2 (decode_encode_round_trip 32 [4294967295; 0; 70000] [] _ _ _) _).
    + lia.
    + unfold fits. repeat constructor; simpl; lia.
    + apply Hcap. vm_compute. discriminate.
    + lia.
  - refine (proj1 (decode_encode_round_trip 0 [] [] _ _ _) _).
    + lia.
    + constructor.
    + apply Hcap. vm_compute. discriminate.
    + lia.
Defined.

(* ================================================================= *)
(** * Properties of the trace lookup *)

(** ** Comparison of trace ids *)

Lemma strings_Compare_eq (a b : string) :
  (strings_Compare a b =? 0) = true <-> a = b.
Proof.
  unfold strings_Compare. rewrite <- String_as_OT.cmp_eq. unfold String_as_OT.cmp.
  destruct (String.compare a b); simpl; split; intros H; congruence.
Qed.

Lemma strings_Compare_refl (a : string) : strings_Compare a a = 0.
Proof.
  unfold strings_Compare.
  assert (H : String.compare a a = Eq) by now apply String_as_OT.cmp_eq.
  now rewrite H.
Qed.

(** ** The scan of one page *)

Lemma firstMatch_shift (vs : list string) (traceID : string) :
  forall y,
    firstMatch vs traceID y =
    match firstMatch vs traceID 0 with Some r => Some (y + r) | None => None end.
Proof.
  induction vs as [|v vs IH]; intros y; simpl; [reflexivity|].
  destruct (strings_Compare v traceID =? 0); [f_equal; lia|].
  rewrite IH, (IH 1).
  destruct (firstMatch vs traceID 0); [f_equal; lia | reflexivity].
Qed.

Lemma firstMatch_app (vs ws : list string) (traceID : string) :
  firstMatch (vs ++ ws) traceID 0 =
  match firstMatch vs traceID 0 with
  | Some r => Some r
  | None => firstMatch ws traceID (len vs)
  end.
Proof.
  induction vs as [|v vs IH]; simpl; [reflexivity|].
  destruct (strings_Compare v traceID =? 0); [reflexivity|].
  rewrite (firstMatch_shift (vs ++ ws) traceID 1), (firstMatch_shift vs traceID 1), IH.
  destruct (firstMatch vs traceID 0); [reflexivity|].
  rewrite (firstMatch_shift ws traceID (len vs)).
  rewrite (firstMatch_shift ws traceID (len (v :: vs))), len_cons.
  destruct (firstMatch ws traceID 0); [f_equal; lia | reflexivity].
Qed.

Lemma firstMatch_In (vs : list string) (traceID : string) :
  forall y r, firstMatch vs traceID y = Some r -> In traceID vs.
Proof.
  induction vs as [|v vs IH]; simpl; intros y r H; [discriminate|].
  destruct (strings_Compare v traceID =? 0) eqn:E.
  - left. now apply strings_Compare_eq.
  - right. eauto.
Qed.

Lemma scanValues_clean (reads : list (list string * ioerr)) (traceID : string) :
  clean reads = true ->
  forall rowMatch,
    scanValues reads rowMatch traceID =
    match firstMatch (flat_map fst reads) traceID 0 with
    | Some y => Some (rowMatch + y)
    | None => None
    end.
Proof.
  induction reads as [|[vs err] reads IH]; intros Hc rowMatch; [reflexivity|].
  cbn [scanValues flat_map fst]. rewrite firstMatch_app.
  destruct (firstMatch vs traceID 0) as [y|]; [reflexivity|].
  destruct err; simpl in Hc.
  - rewrite IH by exact Hc. rewrite (firstMatch_shift _ _ (len vs)).
    destruct (firstMatch (flat_map fst reads) traceID 0); [f_equal; lia | reflexivity].
  - destruct reads; [reflexivity | discriminate].
  - discriminate.
Qed.

(** C7, as the claim states it, fails: [NotFound] is returned while a
    page of the row group is still unread.  The first of two pages holds
    [id1] and [id3], its bounds admit [id2]; it is scanned without a
    match and the probe ends there. *)
Lemma NotFound_before_pages_exhausted :
  scanPages twoPages 0 id2 = (NotFound, [(Some (pageOf [id4; id5]), err_nil)]).
Proof. reflexivity. Qed.

(** C7 (amended).  The pages of a row group are taken in order; for a
    page read without an error, with the running row counter at
    [rowMatch]:
    - a page whose max bound is below the id adds its row count to the
      counter and the scan goes on with the next page;
    - a page whose min bound is above the id ends the probe with
      [SearchPrevious];
    - a page whose bounds admit the id (a page with [min == max == id]
      is one) or that has no bounds is scanned value by value, and the
      probe returns the counter plus the index of the first matching
      value in the order of the scan; when the page holds no match the
      probe returns [NotFound] at once, and the pages after it are left
      unread;
    - [NotFound] is returned as well when no page is left. *)
Theorem scanPages_by_page (pg : Page) (rest : list (option Page * ioerr))
    (rowMatch : Z) (traceID : string) :
  scanPages [] rowMatch traceID = (NotFound, []) /\
  (forall min max, Bounds pg = Some (min, max) ->
     0 <= strings_Compare traceID min -> strings_Compare max traceID < 0 ->
     scanPages ((Some pg, err_nil) :: rest) rowMatch traceID =
     scanPages rest (rowMatch + NumRows pg) traceID) /\
  (forall min max, Bounds pg = Some (min, max) ->
     strings_Compare traceID min < 0 ->
     scanPages ((Some pg, err_nil) :: rest) rowMatch traceID = (SearchPrevious, rest)) /\
  (admits pg traceID = true -> clean (Values pg) = true ->
     scanPages ((Some pg, err_nil) :: rest) rowMatch traceID =
     match firstMatch (pageValues pg) traceID 0 with
     | Some y => (rowMatch + y, rest)
     | None => (NotFound, rest)
     end) /\
  (Bounds pg = Some (traceID, traceID) -> admits pg traceID = true).
Proof.
  split; [reflexivity|]. split; [|split; [|split]].
  - intros min max Hb H1 H2. cbn [scanPages]. rewrite Hb.
    destruct (Z.ltb_spec (strings_Compare traceID min) 0); [lia|].
    destruct (Z.ltb_spec (strings_Compare max traceID) 0); [reflexivity | lia].
  - intros min max Hb H1. cbn [scanPages]. rewrite Hb.
    destruct (Z.ltb_spec (strings_Compare traceID min) 0); [reflexivity | lia].
  - intros Ha Hc. cbn [scanPages]. rewrite (scanValues_clean _ _ Hc).
    unfold admits in Ha. unfold pageValues.
    destruct (Bounds pg) as [[min max]|].
    + apply andb_prop in Ha. destruct Ha as [Ha1 Ha2].
      apply negb_true_iff in Ha1, Ha2. rewrite Ha1, Ha2.
      destruct (firstMatch _ _ _); reflexivity.
    + destruct (firstMatch _ _ _); reflexivity.
  - intros Hb. unfold admits. rewrite Hb, strings_Compare_refl. reflexivity.
Qed.

Lemma scanPages_by_page_witness :
  scanPages ((Some (pageOf [id1; id2]), err_nil) :: twoPages) 7 id5 = (7 + 2 + 2 + 1, []) /\
  scanPages twoPages 7 EmptyString = (SearchPrevious, tl twoPages) /\
  scanPages [(Some (pageOf [id3; id3]), err_nil)] 7 id3 = (7, []) /\
  admits (pageOf [id3; id3]) id3 = true.
Proof.
  split; [|split; [|split]].
  - rewrite (proj1 (proj2 (scanPages_by_page (pageOf [id1; id2]) twoPages 7 id5))
               id1 id2 eq_refl);
      [|vm_compute; discriminate | vm_compute; reflexivity].
    unfold twoPages.
    rewrite (proj1 (proj2 (scanPages_by_page (pageOf [id1; id3]) _ _ id5))
               id1 id3 eq_refl);
      [|vm_compute; discriminate | vm_compute; reflexivity].
    rewrite (proj1 (proj2 (proj2 (proj2
               (scanPages_by_page (pageOf [id4; id5]) [] _ id5)))));
      reflexivity.
  - apply (proj1 (proj2 (proj2 (scanPages_by_page (pageOf [id1; id3]) (tl twoPages) 7
                                  EmptyString))) id1 id3 eq_refl).
    vm_compute; reflexivity.
  - rewrite (proj1 (proj2 (proj2 (proj2
               (scanPages_by_page (pageOf [id3; id3]) [] 7 id3)))));
      reflexivity.
  - apply (proj2 (proj2 (proj2 (proj2 (scanPages_by_page (pageOf [id3; id3]) [] 0 id3))))).
    reflexivity.
Defined.

(** ** [FindTraceByID] and failures *)

(** A failure to fetch or to parse the bloom shard is returned to the
    caller. *)
Lemma FindTraceByID_bloom_failure (ID Row ParquetTrace Trace : Type)
    (hex : ID -> string) (b : backendBlock ID Row ParquetTrace Trace) (id : ID) :
  (bloomRead _ _ _ _ b id = None ->
   FindTraceByID _ _ _ _ hex b id = ret (None, Some BloomUnavailable)) /\
  (forall bloomBytes,
     bloomRead _ _ _ _ b id = Some bloomBytes ->
     bloomParse _ _ _ _ b bloomBytes = None ->
     FindTraceByID _ _ _ _ hex b id = ret (None, Some BloomCorrupt)).
Proof.
  unfold FindTraceByID, checkBloom. split.
  - intros ->. reflexivity.
  - intros bloomBytes -> ->. reflexivity.
Qed.

(** A negative bloom shard is a miss. *)
Lemma FindTraceByID_bloom_negative (ID Row ParquetTrace Trace : Type)
    (hex : ID -> string) (b : backendBlock ID Row ParquetTrace Trace) (id : ID) :
  checkBloom _ _ _ _ b id = (false, None) ->
  FindTraceByID _ _ _ _ hex b id = ret (None, None).
Proof. unfold FindTraceByID. intros ->. reflexivity. Qed.

(** C3.  A failure of the read of the values of a page is not returned to
    the caller.  The block holds [id1; id2; id3] in one page; when the
    page can be read the lookup of [id2] returns the trace of row 1, and
    when the read of its values fails the lookup returns no trace and no
    error, as it does for a trace that is not in the block. *)
Theorem FindTraceByID_hides_page_read_error :
  FindTraceByID _ _ _ _ (fun id => id) intactBlock id2 = ret (Some 1, None) /\
  FindTraceByID _ _ _ _ (fun id => id) unreadableBlock id2 = ret (None, None).
Proof. split; reflexivity. Qed.

(** ** The binary search over the row groups *)

(** C2.  The lookup misses a trace that is in the block when the column
    chunks have bloom filters.  The block has three row groups that hold
    [id1], [id2] and [id3]; no filter has a false negative.  The probe of
    row group 0 finds [id1] at row 0, but the search starts at row group
    1, whose filter is negative: the probe returns [NotFound], the search
    goes on to the right and ends without the trace.  Without the filters
    the same search returns row 0. *)
Theorem binarySearch_misses_trace_behind_bloom_filter :
  binarySearch 4 bloomedBlock 0 2 id1 = ret (-1) /\
  probed 4 bloomedBlock 0 2 id1 = [1; 2] /\
  findTraceByID bloomedBlock 0 id1 = ret 0 /\
  exactBloom [id1] id1 = true /\
  binarySearch 4 plainBlock 0 2 id1 = ret 0.
Proof. repeat split; reflexivity. Qed.

(** The number of probes is logarithmic in the number of row groups,
    whatever the probes return. *)
Lemma probed_bound (rt : RowTracker) (traceID : string) (fuel : nat) :
  forall start end_,
    0 <= start ->
    len (probed fuel rt start end_ traceID) <=
    if end_ <? start then 0 else Z.log2 (end_ - start + 1) + 1.
Proof.
  induction fuel as [|fuel IH]; intros start end_ Hs.
  - simpl. destruct (Z.ltb_spec end_ start); [reflexivity|].
    rewrite len_nil. pose proof (Z.log2_nonneg (end_ - start + 1)). lia.
  - cbn [probed]. destruct (Z.ltb_spec end_ start) as [Hlt|Hle]; [reflexivity|].
    rewrite len_cons.
    set (mid := Z.quot (start + end_) 2).
    assert (Hmid : mid = (start + end_) / 2)
      by (unfold mid; apply Z.quot_div_nonneg; lia).
    assert (Hm1 : start <= mid <= end_).
    { rewrite Hmid. split.
      - apply Z.div_le_lower_bound; lia.
      - apply Z.div_le_upper_bound; lia. }
    assert (Hhalf : forall a b, 0 <= a -> a <= b -> b - a + 1 <= (end_ - start + 1) / 2 ->
                    (if b <? a then 0 else Z.log2 (b - a + 1) + 1) <=
                    Z.log2 (end_ - start + 1)).
    { intros a b Ha Hab Hsz. destruct (Z.ltb_spec b a); [lia|].
      replace (Z.log2 (b - a + 1) + 1) with (Z.log2 (2 * (b - a + 1)))
        by (rewrite Z.log2_double; lia).
      apply Z.log2_le_mono.
      pose proof (Z.mul_div_le (end_ - start + 1) 2 ltac:(lia)). lia. }
    assert (Hlog : 0 <= Z.log2 (end_ - start + 1)) by apply Z.log2_nonneg.
    assert (Hl : mid - 1 - start + 1 <= (end_ - start + 1) / 2).
    { apply Z.div_le_lower_bound; [lia|].
      pose proof (Z.mul_div_le (start + end_) 2 ltac:(lia)). lia. }
    assert (Hr : end_ - (mid + 1) + 1 <= (end_ - start + 1) / 2).
    { apply Z.div_le_lower_bound; [lia|].
      pose proof (Z_mod_lt (start + end_) 2 ltac:(lia)).
      pose proof (Z_div_mod_eq_full (start + end_) 2). lia. }
    destruct (findTraceByID rt mid traceID) as [midResult| |];
      [|rewrite len_nil; lia | rewrite len_nil; lia].
    destruct (midResult =? SearchPrevious).
    + specialize (IH start (mid - 1) Hs).
      destruct (Z.ltb_spec (mid - 1) start); [lia|].
      specialize (Hhalf start (mid - 1) Hs ltac:(lia) Hl).
      destruct (Z.ltb_spec (mid - 1) start); lia.
    + destruct (midResult <? 0); [|rewrite len_nil; lia].
      specialize (IH (mid + 1) end_ ltac:(lia)).
      destruct (Z.ltb_spec end_ (mid + 1)); [lia|].
      specialize (Hhalf (mid + 1) end_ ltac:(lia) ltac:(lia) Hr).
      destruct (Z.ltb_spec end_ (mid + 1)); lia.
Qed.

(* ================================================================= *)
(** * The lookup of a trace id that the block does not hold *)

Lemma scanValues_hit (reads : list (list string * ioerr)) (traceID : string) :
  forall rowMatch row,
    scanValues reads rowMatch traceID = Some row -> In traceID (flat_map fst reads).
Proof.
  induction reads as [|[vs err] reads IH]; intros rowMatch row H; [discriminate|].
  cbn [scanValues] in H. cbn [flat_map fst]. apply in_or_app.
  destruct (firstMatch vs traceID 0) as [y|] eqn:E.
  - left. eapply firstMatch_In; eauto.
  - destruct err; try discriminate. right. eauto.
Qed.

Lemma scanPages_absent (traceID : string) (pages : list (option Page * ioerr)) :
  forall rowMatch,
    ~ In traceID (flat_map pageValues
                    (flat_map (fun r => match fst r with Some pg => [pg] | None => [] end)
                              pages)) ->
    fst (scanPages pages rowMatch traceID) < 0.
Proof.
  induction pages as [|[[pg|] err] pages IH]; intros rowMatch Hn;
    [reflexivity | | reflexivity].
  cbn [flat_map fst app] in Hn.
  assert (Hpg : ~ In traceID (pageValues pg)) by (intros HI; apply Hn, in_or_app; auto).
  assert (Hrest : ~ In traceID (flat_map pageValues
                    (flat_map (fun r => match fst r with Some pg => [pg] | None => [] end)
                              pages)))
    by (intros HI; apply Hn, in_or_app; auto).
  assert (Hscan : scanValues (Values pg) rowMatch traceID = None).
  { destruct (scanValues (Values pg) rowMatch traceID) eqn:E; [|reflexivity].
    exfalso. apply Hpg. eapply scanValues_hit; eauto. }
  cbn [scanPages]. rewrite Hscan.
  destruct err; [|reflexivity|];
    (destruct (Bounds pg) as [[min max]|]; [|reflexivity];
     destruct (_ <? 0); [reflexivity|];
     destruct (_ <? 0); [apply IH; exact Hrest | reflexivity]).
Qed.

Lemma probe_absent (rg : RowGroup) (start : Z) (traceID : string) :
  ~ In traceID (rowGroupValues rg) -> fst (probe rg start traceID) < 0.
Proof.
  intros Hn. unfold probe.
  destruct (match BloomFilter (TraceIDColumnChunk rg) with
            | Some bf => negb (bf traceID)
            | None => false
            end); [reflexivity|].
  destruct (_ <? 0); [reflexivity|].
  destruct (_ <? 0); [reflexivity|].
  apply scanPages_absent. exact Hn.
Qed.

Lemma length_startRows (rowGroups : list RowGroup) :
  forall rowCount, length (startRows rowGroups rowCount) = length rowGroups.
Proof. induction rowGroups; intros; simpl; auto. Qed.

Lemma index_in_range {A : Type} (l : list A) (idx : Z) :
  0 <= idx < len l ->
  exists x, index l idx = ret x /\ nth_error l (Z.to_nat idx) = Some x.
Proof.
  intros H. unfold index.
  destruct (Z.ltb_spec idx 0); [lia|]. destruct (Z.leb_spec (len l) idx); [lia|].
  cbn [orb].
  destruct (nth_error l (Z.to_nat idx)) as [x|] eqn:E; [eauto|].
  apply nth_error_None in E. unfold len in H. lia.
Qed.

Lemma findTraceByID_in_range (rowGroups : list RowGroup) (idx : Z) (traceID : string) :
  0 <= idx < len rowGroups ->
  exists rg start,
    nth_error rowGroups (Z.to_nat idx) = Some rg /\
    nth_error (startRows rowGroups 0) (Z.to_nat idx) = Some start /\
    findTraceByID (newRowTracker rowGroups) idx traceID =
    ret (fst (probe rg start traceID)).
Proof.
  intros H. unfold findTraceByID, newRowTracker. cbn [rgs startRowNum].
  destruct (index_in_range rowGroups idx H) as (rg & Hi & Hn).
  destruct (index_in_range (startRows rowGroups 0) idx) as (start & Hs & Hns).
  { unfold len in *. rewrite length_startRows. exact H. }
  exists rg, start. rewrite Hi, Hs. auto.
Qed.

Lemma mid_in_range (start end_ : Z) :
  0 <= start <= end_ ->
  start <= Z.quot (start + end_) 2 <= end_.
Proof.
  intros H. rewrite Z.quot_div_nonneg by lia. split.
  - apply Z.div_le_lower_bound; lia.
  - apply Z.div_le_upper_bound; lia.
Qed.

Lemma binarySearch_absent (rowGroups : list RowGroup) (traceID : string) (fuel : nat) :
  ~ In traceID (blockValues rowGroups) ->
  forall start end_,
    0 <= start -> end_ < len rowGroups -> end_ - start < Z.of_nat fuel ->
    binarySearch fuel (newRowTracker rowGroups) start end_ traceID = ret (-1).
Proof.
  intros Hn. induction fuel as [|fuel IH]; intros start end_ Hs He Hf.
  - cbn [binarySearch]. destruct (Z.ltb_spec end_ start); [reflexivity | lia].
  - cbn [binarySearch]. destruct (Z.ltb_spec end_ start); [reflexivity|].
    pose proof (mid_in_range start end_ ltac:(lia)) as Hmid.
    set (mid := Z.quot (start + end_) 2) in *.
    destruct (findTraceByID_in_range rowGroups mid traceID ltac:(lia))
      as (rg & st & Hrg & _ & Hfind).
    rewrite Hfind. cbn [bind].
    assert (Hneg : fst (probe rg st traceID) < 0).
    { apply probe_absent. intros HI. apply Hn. unfold blockValues.
      apply in_flat_map. exists rg. split; [|exact HI].
      eapply nth_error_In; eauto. }
    destruct (_ =? SearchPrevious).
    + apply IH; lia.
    + destruct (Z.ltb_spec (fst (probe rg st traceID)) 0); [|lia].
      apply IH; lia.
Qed.

(** A miss is found fast: the lookup of an id that is
    not a value of the block (an id below the least or above the greatest
    id of a sorted block is one) returns no row, after at most
    [ceil(log2 N) + 1] probes, with or without bloom filters. *)
Lemma binarySearch_miss (rowGroups : list RowGroup) (traceID : string) :
  ~ In traceID (blockValues rowGroups) ->
  binarySearch (S (length rowGroups)) (newRowTracker rowGroups)
               0 (len rowGroups - 1) traceID = ret (-1) /\
  len (probed (S (length rowGroups)) (newRowTracker rowGroups)
              0 (len rowGroups - 1) traceID)
    <= Z.log2_up (len rowGroups) + 1.
Proof.
  intros Hn. split.
  - apply binarySearch_absent; [exact Hn | lia | lia | unfold len; lia].
  - pose proof (probed_bound (newRowTracker rowGroups) traceID (S (length rowGroups))
                  0 (len rowGroups - 1) ltac:(lia)) as Hb.
    pose proof (Z.log2_up_nonneg (len rowGroups)).
    destruct (Z.ltb_spec (len rowGroups - 1) 0); [lia|].
    replace (len rowGroups - 1 - 0 + 1) with (len rowGroups) in Hb by lia.
    pose proof (Z.le_log2_log2_up (len rowGroups)). lia.
Qed.

(* ================================================================= *)
(** * The lookup of a trace id in a sorted block without bloom filters *)

(** ** The order of the ids *)

Lemma lt_id_Compare (a b : string) :
  lt_id a b -> (strings_Compare a b <? 0) = true /\ (strings_Compare b a <? 0) = false.
Proof.
  unfold lt_id, strings_Compare. intros H.
  rewrite (String.compare_antisym b a), H. split; reflexivity.
Qed.

Lemma le_id_Compare (a b : string) :
  a = b \/ lt_id a b -> (strings_Compare b a <? 0) = false.
Proof.
  intros [->|H].
  - now rewrite strings_Compare_refl.
  - now apply lt_id_Compare.
Qed.

Lemma lt_id_neq (a b : string) : lt_id a b -> (strings_Compare a b =? 0) = false.
Proof. unfold lt_id, strings_Compare. intros ->. reflexivity. Qed.

(** ** Sorted lists *)

Lemma sorted_app (l1 l2 : list string) :
  StronglySorted lt_id (l1 ++ l2) ->
  StronglySorted lt_id l1 /\ StronglySorted lt_id l2 /\
  (forall a b, In a l1 -> In b l2 -> lt_id a b).
Proof.
  induction l1 as [|x l1 IH]; intros H.
  - split; [constructor|]. split; [exact H|]. intros a b [].
  - cbn [app] in H. apply StronglySorted_inv in H. destruct H as [Hs Hf].
    destruct (IH Hs) as (H1 & H2 & H3).
    apply Forall_app in Hf. destruct Hf as [Hf1 Hf2].
    split; [constructor; assumption|]. split; [exact H2|].
    intros a b [->|Ha] Hb.
    + rewrite Forall_forall in Hf2. auto.
    + auto.
Qed.

Lemma sorted_hd (l : list string) (x : string) :
  StronglySorted lt_id l -> In x l ->
  hd EmptyString l = x \/ lt_id (hd EmptyString l) x.
Proof.
  intros Hs Hx. destruct l as [|a l]; [contradiction|].
  apply StronglySorted_inv in Hs. destruct Hs as [_ Hf]. cbn [hd].
  destruct Hx as [->|Hx]; [auto|]. right. rewrite Forall_forall in Hf. auto.
Qed.

Lemma sorted_last (l : list string) (x : string) :
  StronglySorted lt_id l -> In x l ->
  x = last l EmptyString \/ lt_id x (last l EmptyString).
Proof.
  intros Hs Hx. destruct (exists_last (l := l)) as (l' & a & ->).
  { intros ->. contradiction. }
  rewrite last_last. apply sorted_app in Hs. destruct Hs as (_ & _ & Hc).
  apply in_app_or in Hx. destruct Hx as [Hx|[->|[]]]; [|auto].
  right. apply Hc; [exact Hx | left; reflexivity].
Qed.

Lemma hd_In (l : list string) : l <> [] -> In (hd EmptyString l) l.
Proof. destruct l; [congruence | left; reflexivity]. Qed.

Lemma last_In (l : list string) : l <> [] -> In (last l EmptyString) l.
Proof.
  intros H. destruct (exists_last H) as (l' & a & ->).
  rewrite last_last. apply in_or_app. right. left. reflexivity.
Qed.

Lemma sorted_firstMatch (l : list string) (traceID : string) :
  StronglySorted lt_id l ->
  forall y, nth_error l y = Some traceID -> firstMatch l traceID 0 = Some (Z.of_nat y).
Proof.
  induction l as [|a l IH]; intros Hs y Hy; [destruct y; discriminate|].
  apply StronglySorted_inv in Hs. destruct Hs as [Hs Hf]. cbn [firstMatch].
  destruct y as [|y]; cbn [nth_error] in Hy.
  - inversion Hy; subst. rewrite strings_Compare_refl. reflexivity.
  - assert (Hlt : lt_id a traceID).
    { rewrite Forall_forall in Hf. apply Hf. eapply nth_error_In; eauto. }
    rewrite (lt_id_neq _ _ Hlt). rewrite firstMatch_shift, (IH Hs y Hy).
    f_equal. lia.
Qed.

(** ** The probe of the row group that holds the id, and of the others *)

Lemma scanPages_hit (traceID : string) (pgs : list Page) :
  Forall wfPage pgs ->
  StronglySorted lt_id (flat_map pageValues pgs) ->
  forall rowMatch y,
    nth_error (flat_map pageValues pgs) y = Some traceID ->
    fst (scanPages (map (fun pg => (Some pg, err_nil)) pgs) rowMatch traceID)
    = rowMatch + Z.of_nat y.
Proof.
  induction 1 as [|pg pgs (Hclean & Hne & Hb & Hrows) Hpgs IH]; intros Hs rowMatch y Hy;
    [destruct y; discriminate|].
  cbn [flat_map] in Hs, Hy. cbn [map scanPages]. rewrite Hb.
  destruct (sorted_app _ _ Hs) as (Hs1 & Hs2 & Hcross).
  destruct (Nat.lt_ge_cases y (length (pageValues pg))) as [Hlt|Hge].
  - rewrite nth_error_app1 in Hy by exact Hlt.
    assert (Hin : In traceID (pageValues pg)) by (eapply nth_error_In; eauto).
    rewrite (le_id_Compare _ _ (sorted_hd _ _ Hs1 Hin)).
    rewrite (le_id_Compare _ _ (sorted_last _ _ Hs1 Hin)).
    rewrite (scanValues_clean _ _ Hclean).
    fold (pageValues pg). rewrite (sorted_firstMatch _ _ Hs1 y Hy). reflexivity.
  - rewrite nth_error_app2 in Hy by exact Hge.
    assert (Hin : In traceID (flat_map pageValues pgs)) by (eapply nth_error_In; eauto).
    destruct (lt_id_Compare _ _ (Hcross _ _ (hd_In _ Hne) Hin)) as [_ H1].
    destruct (lt_id_Compare _ _ (Hcross _ _ (last_In _ Hne) Hin)) as [H2 _].
    rewrite H1, H2, Hrows, (IH Hs2 _ _ Hy). unfold len. lia.
Qed.

Lemma rowGroupValues_nonempty (rg : RowGroup) :
  wfRowGroup rg -> rowGroupValues rg <> [].
Proof.
  intros (_ & _ & Hne & Hwf & _). unfold rowGroupValues.
  destruct (pagesOf rg) as [|pg pgs]; [congruence|].
  inversion Hwf as [|? ? (_ & Hv & _) _]; subst. cbn [flat_map].
  destruct (pageValues pg); [congruence | discriminate].
Qed.

Lemma probe_hit (rg : RowGroup) (start : Z) (traceID : string) (y : nat) :
  wfRowGroup rg -> StronglySorted lt_id (rowGroupValues rg) ->
  nth_error (rowGroupValues rg) y = Some traceID ->
  fst (probe rg start traceID) = start + Z.of_nat y.
Proof.
  intros (Hbf & Hpages & Hne & Hwf & Hmin & Hmax & _) Hs Hy.
  assert (Hin : In traceID (rowGroupValues rg)) by (eapply nth_error_In; eauto).
  unfold probe. rewrite Hbf, Hmin, Hmax, Hpages.
  rewrite (le_id_Compare _ _ (sorted_hd _ _ Hs Hin)).
  rewrite (le_id_Compare _ _ (sorted_last _ _ Hs Hin)).
  apply scanPages_hit; assumption.
Qed.

Lemma probe_below (rg : RowGroup) (start : Z) (traceID : string) :
  wfRowGroup rg -> (forall v, In v (rowGroupValues rg) -> lt_id v traceID) ->
  fst (probe rg start traceID) = SearchNext.
Proof.
  intros Hwf Hlt. pose proof (rowGroupValues_nonempty rg Hwf) as Hne.
  destruct Hwf as (Hbf & _ & _ & _ & Hmin & Hmax & _).
  unfold probe. rewrite Hbf, Hmin, Hmax.
  destruct (lt_id_Compare _ _ (Hlt _ (hd_In _ Hne))) as [_ H1].
  destruct (lt_id_Compare _ _ (Hlt _ (last_In _ Hne))) as [H2 _].
  rewrite H1, H2. reflexivity.
Qed.

Lemma probe_above (rg : RowGroup) (start : Z) (traceID : string) :
  wfRowGroup rg -> (forall v, In v (rowGroupValues rg) -> lt_id traceID v) ->
  fst (probe rg start traceID) = SearchPrevious.
Proof.
  intros Hwf Hlt. pose proof (rowGroupValues_nonempty rg Hwf) as Hne.
  destruct Hwf as (Hbf & _ & _ & _ & Hmin & _).
  unfold probe. rewrite Hbf, Hmin.
  destruct (lt_id_Compare _ _ (Hlt _ (hd_In _ Hne))) as [H1 _].
  rewrite H1. reflexivity.
Qed.

(** ** The row group of a row *)

Lemma nth_error_flat_map {A B : Type} (f : A -> list B) (l : list A) :
  forall k x,
    nth_error (flat_map f l) k = Some x ->
    exists l1 a l2 y,
      l = l1 ++ a :: l2 /\ k = (length (flat_map f l1) + y)%nat /\
      nth_error (f a) y = Some x.
Proof.
  induction l as [|a l IH]; intros k x H; [destruct k; discriminate|].
  cbn [flat_map] in H.
  destruct (Nat.lt_ge_cases k (length (f a))) as [Hlt|Hge].
  - rewrite nth_error_app1 in H by exact Hlt.
    exists [], a, l, k. repeat split; assumption.
  - rewrite nth_error_app2 in H by exact Hge.
    destruct (IH _ _ H) as (l1 & b & l2 & y & -> & Hk & Hy).
    exists (a :: l1), b, l2, y. repeat split; [|exact Hy].
    cbn [flat_map]. rewrite length_app. lia.
Qed.

Lemma startRows_at (l1 : list RowGroup) (a : RowGroup) (l2 : list RowGroup) :
  Forall wfRowGroup l1 ->
  forall rowCount,
    nth_error (startRows (l1 ++ a :: l2) rowCount) (length l1)
    = Some (rowCount + len (blockValues l1)).
Proof.
  induction 1 as [|rg l1 Hrg Hl1 IH]; intros rowCount.
  - cbn. f_equal. lia.
  - cbn [app startRows length nth_error]. rewrite IH.
    destruct Hrg as (_ & _ & _ & _ & _ & _ & Hrows). rewrite Hrows.
    unfold blockValues. cbn [flat_map]. rewrite len_app. f_equal. lia.
Qed.

Lemma blockValues_split (l1 : list RowGroup) (a : RowGroup) (l2 : list RowGroup) :
  blockValues (l1 ++ a :: l2) = blockValues l1 ++ rowGroupValues a ++ blockValues l2.
Proof. unfold blockValues. rewrite flat_map_app. reflexivity. Qed.

Lemma In_blockValues (rg : RowGroup) (l : list RowGroup) (v : string) :
  In rg l -> In v (rowGroupValues rg) -> In v (blockValues l).
Proof. intros H1 H2. unfold blockValues. apply in_flat_map. eauto. Qed.

(** ** The binary search *)

Lemma binarySearch_hit_at (l1 : list RowGroup) (rg : RowGroup) (l2 : list RowGroup)
    (traceID : string) (y : nat) (fuel : nat) :
  Forall wfRowGroup (l1 ++ rg :: l2) ->
  StronglySorted lt_id (blockValues (l1 ++ rg :: l2)) ->
  nth_error (rowGroupValues rg) y = Some traceID ->
  forall start end_,
    0 <= start <= len l1 -> len l1 <= end_ < len (l1 ++ rg :: l2) ->
    end_ - start < Z.of_nat fuel ->
    binarySearch fuel (newRowTracker (l1 ++ rg :: l2)) start end_ traceID
    = ret (len (blockValues l1) + Z.of_nat y).
Proof.
  intros Hwf Hs Hy.
  assert (Hwf1 : Forall wfRowGroup l1) by (apply Forall_app in Hwf; tauto).
  assert (Hin : In traceID (rowGroupValues rg)) by (eapply nth_error_In; eauto).
  rewrite blockValues_split in Hs.
  destruct (sorted_app _ _ Hs) as (_ & Hs' & Hc1).
  destruct (sorted_app _ _ Hs') as (Hsrg & _ & Hc2).
  rewrite Forall_forall in Hwf.
  induction fuel as [|fuel IH]; intros start end_ Hst He Hf; [lia|].
  cbn [binarySearch]. destruct (Z.ltb_spec end_ start); [lia|].
  pose proof (mid_in_range start end_ ltac:(lia)) as Hmid.
  set (mid := Z.quot (start + end_) 2) in *.
  destruct (findTraceByID_in_range (l1 ++ rg :: l2) mid traceID ltac:(lia))
    as (rgm & st & Hrgm & Hstm & Hfind).
  rewrite Hfind. cbn [bind]. clear Hfind.
  assert (Hwfm : wfRowGroup rgm) by (apply Hwf; eapply nth_error_In; eauto).
  destruct (Z.lt_trichotomy mid (len l1)) as [Hlt|[Heq|Hgt]].
  - rewrite nth_error_app1 in Hrgm by (unfold len in Hlt; lia).
    apply nth_error_In in Hrgm.
    rewrite (probe_below rgm st traceID Hwfm).
    + cbn [Z.eqb SearchNext SearchPrevious Z.ltb Z.compare].
      change (SearchNext =? SearchPrevious) with false.
      change (SearchNext <? 0) with true. cbv iota. apply IH; lia.
    + intros v Hv. apply Hc1; [eapply In_blockValues; eauto|].
      apply in_or_app. left. exact Hin.
  - assert (Hm : Z.to_nat mid = length l1) by (unfold len in Heq; lia).
    rewrite Hm in Hrgm, Hstm. rewrite nth_error_app2, Nat.sub_diag in Hrgm by lia.
    cbn [nth_error] in Hrgm. inversion Hrgm; subst rgm.
    rewrite startRows_at in Hstm by exact Hwf1.
    assert (Hst0 : st = len (blockValues l1)) by (inversion Hstm; lia).
    rewrite (probe_hit rg _ traceID y Hwfm Hsrg Hy), Hst0.
    pose proof (len_nonneg (blockValues l1)).
    destruct (Z.eqb_spec (len (blockValues l1) + Z.of_nat y) SearchPrevious);
      [unfold SearchPrevious in *; lia|].
    destruct (Z.ltb_spec (len (blockValues l1) + Z.of_nat y) 0); [lia|].
    reflexivity.
  - rewrite nth_error_app2 in Hrgm by (unfold len in Hgt; lia).
    destruct (Z.to_nat mid - length l1)%nat as [|i] eqn:Ei;
      [unfold len in Hgt; lia|].
    cbn [nth_error] in Hrgm. apply nth_error_In in Hrgm.
    rewrite (probe_above rgm st traceID Hwfm).
    + change (SearchPrevious =? SearchPrevious) with true. cbv iota.
      apply IH; lia.
    + intros v Hv. apply Hc2; [exact Hin | eapply In_blockValues; eauto].
Qed.

(** Every id is found in the blocks without bloom
    filters on the column chunks: in a block whose ids are sorted
    ascending and unique, the lookup of the id of row [k] returns [k]. *)
Lemma binarySearch_hit (rowGroups : list RowGroup) (traceID : string) (k : nat) :
  Forall wfRowGroup rowGroups ->
  StronglySorted lt_id (blockValues rowGroups) ->
  nth_error (blockValues rowGroups) k = Some traceID ->
  binarySearch (S (length rowGroups)) (newRowTracker rowGroups)
               0 (len rowGroups - 1) traceID = ret (Z.of_nat k).
Proof.
  intros Hwf Hs Hk.
  destruct (nth_error_flat_map _ _ _ _ Hk) as (l1 & rg & l2 & y & -> & -> & Hy).
  pose proof (len_nonneg l1). pose proof (len_nonneg l2).
  assert (Hlen : len (l1 ++ rg :: l2) = len l1 + 1 + len l2)
    by (rewrite len_app, len_cons; lia).
  rewrite (binarySearch_hit_at l1 rg l2 traceID y _ Hwf Hs Hy); try lia.
  - f_equal. fold (blockValues l1). unfold len. lia.
  - unfold len in *. lia.
Qed.

(** The block [plainBlock] is such a block, and [id3] is its row 2. *)
Example binarySearch_hit_plainBlock :
  binarySearch 4 plainBlock 0 2 id3 = ret 2.
Proof.
  apply (binarySearch_hit
           [rowGroupOf None [id1]; rowGroupOf None [id2]; rowGroupOf None [id3]] id3 2).
  - repeat constructor; cbn; congruence.
  - repeat constructor.
  - reflexivity.
Qed.

(* ================================================================= *)
(** * Further properties of the codec *)

(** ** The output buffer *)

Lemma prepend_prepend (a b : list Z) (r : outcome) :
  prepend a (prepend b r) = prepend (a ++ b) r.
Proof. destruct r; simpl; now rewrite ?app_assoc. Qed.

Lemma decodeLoop_prepend (body : list Z -> list Z -> iter) :
  (forall dst src, body dst src = prependIter dst (body [] src)) ->
  forall fuel dst src,
    decodeLoop body fuel dst src = prepend dst (decodeLoop body fuel [] src).
Proof.
  intros Hb. induction fuel as [|f IH]; intros dst src.
  - destruct src; simpl; now rewrite ?app_nil_r.
  - destruct src as [|b src]; [simpl; now rewrite app_nil_r|].
    cbn [decodeLoop]. rewrite (Hb dst).
    destruct (body [] (b :: src)) as [d rest|r]; cbn [prependIter]; [|reflexivity].
    rewrite (IH (dst ++ d)), (IH d). now rewrite prepend_prepend.
Qed.

Lemma withHeader_prepend (dst src : list Z) (k k0 : Z -> bool -> list Z -> iter) :
  (forall count bitpacked s, k count bitpacked s = prependIter dst (k0 count bitpacked s)) ->
  withHeader dst src k = prependIter dst (withHeader [] src k0).
Proof.
  intros Hk. unfold withHeader. destruct (binary.Uvarint src) as [u n].
  destruct (n =? 0); [simpl; now rewrite app_nil_r|].
  destruct (n <? 0); [simpl; now rewrite app_nil_r|].
  destruct (maxSupportedValueCount <? Z.shiftr u 1); [simpl; now rewrite app_nil_r|].
  apply Hk.
Qed.

Lemma decodeBits_body_prepend (dst src : list Z) :
  decodeBits_body dst src = prependIter dst (decodeBits_body [] src).
Proof.
  unfold decodeBits_body. apply withHeader_prepend. intros count bitpacked s.
  destruct bitpacked.
  - destruct (len s <? count); simpl; now rewrite ?app_nil_r.
  - destruct s; reflexivity.
Qed.

Lemma decodeBytes_body_prepend (w : Z) (dst src : list Z) :
  decodeBytes_body w dst src = prependIter dst (decodeBytes_body w [] src).
Proof.
  unfold decodeBytes_body. apply withHeader_prepend. intros count bitpacked s.
  destruct bitpacked.
  - destruct (len s <? _); simpl; now rewrite ?app_nil_r.
  - destruct (negb (w =? 0) && (len s <? 1)); [simpl; now rewrite app_nil_r|].
    destruct (negb (w =? 0)); reflexivity.
Qed.

Lemma decodeInt32_body_prepend (w : Z) (spare dst src : list Z) :
  decodeInt32_body w spare dst src = prependIter dst (decodeInt32_body w spare [] src).
Proof.
  unfold decodeInt32_body. apply withHeader_prepend. intros count bitpacked s.
  destruct bitpacked.
  - destruct (len s + len spare <? _); reflexivity.
  - destruct (len s <? _); simpl; [now rewrite app_nil_r|].
    unfold appendRepeat. reflexivity.
Qed.

Lemma decodeBits_prepend (dst src : list Z) :
  decodeBits dst src = prepend dst (decodeBits [] src).
Proof. unfold decodeBits. apply decodeLoop_prepend. apply decodeBits_body_prepend. Qed.

Lemma decodeBytes_prepend (dst src : list Z) (w : Z) :
  decodeBytes dst src w = prepend dst (decodeBytes [] src w).
Proof.
  unfold decodeBytes. destruct (8 <? w); [simpl; now rewrite app_nil_r|].
  apply decodeLoop_prepend. apply decodeBytes_body_prepend.
Qed.

Lemma decodeInt32_prepend (dst src spare : list Z) (w : Z) :
  decodeInt32 dst src spare w = prepend dst (decodeInt32 [] src spare w).
Proof.
  unfold decodeInt32. destruct (32 <? w); [simpl; now rewrite app_nil_r|].
  apply decodeLoop_prepend. apply decodeInt32_body_prepend.
Qed.

(** X1.  The decoders append to the output buffer: a call that starts
    from [dst] returns [dst] followed by what the same call returns from
    the empty buffer, with the same error if there is one.  The bytes
    that [dst] holds never change what is decoded, and are never
    dropped, also when decoding fails. *)
Theorem decoders_append_to_dst (dst src spare : list Z) (w : Z) :
  decodeBits dst src = prepend dst (decodeBits [] src) /\
  decodeBytes dst src w = prepend dst (decodeBytes [] src w) /\
  decodeInt32 dst src spare w = prepend dst (decodeInt32 [] src spare w).
Proof.
  split; [|split].
  - apply decodeBits_prepend.
  - apply decodeBytes_prepend.
  - apply decodeInt32_prepend.
Qed.

(** X2.  The encoders append to the output buffer as well: the encoding
    does not depend on what [dst] holds, and an encoder that rejects its
    input returns [dst] as it was. *)
Theorem encoders_append_to_dst (dst src : list Z) (w : Z) :
  encodeBits dst src = prepend dst (encodeBits [] src) /\
  encodeBytes dst src w = prepend dst (encodeBytes [] src w) /\
  encodeInt32 dst src w = prepend dst (encodeInt32 [] src w).
Proof.
  split; [|split].
  - unfold encodeBits. destruct (_ || _).
    + unfold appendUvarint. destruct src; simpl; now rewrite ?app_assoc.
    + simpl. now rewrite encodeBits_loop_app.
  - unfold encodeBytes. destruct (8 <? w); [simpl; now rewrite app_nil_r|].
    destruct (w =? 0).
    + destruct (negb (isZero src)); simpl; now rewrite ?app_nil_r.
    + cbn [prepend]. destruct (8 <=? len src).
      * rewrite encodeBytes_tail_app, encodeBytes_words_app.
        rewrite (encodeBytes_tail_app _ (encodeBytes_words _ [] _ _)).
        now rewrite app_assoc.
      * rewrite encodeBytes_tail_app. reflexivity.
  - unfold encodeInt32. destruct (32 <? w); [simpl; now rewrite app_nil_r|].
    destruct (w =? 0).
    + destruct (negb (isZero _)); simpl; now rewrite ?app_nil_r.
    + cbn [prepend]. destruct (8 <=? len src).
      * rewrite encodeInt32_tail_app, encodeInt32_words_app.
        rewrite (encodeInt32_tail_app _ _ (encodeInt32_words _ [] _ _)).
        now rewrite app_assoc.
      * rewrite encodeInt32_tail_app. reflexivity.
Qed.

(** X3.  [decodeBits] and [decodeBytes] return on every input and at
    every bit width, with the decoded output or with an error: no input,
    however malformed, makes them panic, and their loops end. *)
Theorem decodeBits_decodeBytes_never_panic (dst src : list Z) (w : Z) :
  ((exists out, decodeBits dst src = Ok out) \/
   (exists e out, decodeBits dst src = Err e out)) /\
  ((exists out, decodeBytes dst src w = Ok out) \/
   (exists e out, decodeBytes dst src w = Err e out)).
Proof. split; [apply decodeBits_returns | apply decodeBytes_returns]. Qed.

(** ** Streams put end to end *)

Lemma Uvarint_loop_app (s b : list Z) :
  forall i x sh u n,
    binary.Uvarint_loop s i x sh = (u, n) -> n <> 0 ->
    binary.Uvarint_loop (s ++ b) i x sh = (u, n).
Proof.
  induction s as [|c s IH]; intros i x sh u n H Hn.
  - simpl in H. inversion H. lia.
  - cbn [app binary.Uvarint_loop] in *.
    destruct (i =? binary.MaxVarintLen64); [exact H|].
    destruct (c <? 128); [exact H|]. now apply IH.
Qed.

Lemma take_app_le {A : Type} (n : Z) (s b : list A) :
  n <= len s -> take n (s ++ b) = take n s.
Proof.
  intros H. unfold take. rewrite firstn_app.
  replace (Z.to_nat n - length s)%nat with 0%nat by (unfold len in H; lia).
  simpl. apply app_nil_r.
Qed.

Lemma drop_app_le {A : Type} (n : Z) (s b : list A) :
  n <= len s -> drop n (s ++ b) = drop n s ++ b.
Proof.
  intros H. unfold drop. rewrite skipn_app.
  replace (Z.to_nat n - length s)%nat with 0%nat by (unfold len in H; lia).
  reflexivity.
Qed.

Lemma withHeader_Next (dst s d r : list Z) (k : Z -> bool -> list Z -> iter) :
  withHeader dst s k = Next d r ->
  exists u n,
    binary.Uvarint s = (u, n) /\ 0 < n <= len s /\
    Z.shiftr u 1 <= maxSupportedValueCount /\
    k (Z.shiftr u 1) (negb (Z.land u 1 =? 0)) (drop n s) = Next d r.
Proof.
  intros H.
  destruct (withHeader_cases dst s k) as [E|[E|[E|(u & n & Hu & Hn & Hc & E)]]];
    rewrite E in H; try discriminate.
  exists u, n. auto.
Qed.

Lemma withHeader_app (dst s b d r : list Z) (k k' : Z -> bool -> list Z -> iter) :
  (forall count bitpacked s',
      k count bitpacked s' = Next d r -> k' count bitpacked (s' ++ b) = Next d (r ++ b)) ->
  withHeader dst s k = Next d r ->
  withHeader dst (s ++ b) k' = Next d (r ++ b).
Proof.
  intros Hk H. apply withHeader_Next in H.
  destruct H as (u & n & Hu & Hn & Hc & Hnext).
  assert (Hu' : binary.Uvarint (s ++ b) = (u, n))
    by (unfold binary.Uvarint in *; apply Uvarint_loop_app; [exact Hu | lia]).
  rewrite (withHeader_ok _ _ _ _ _ Hu') by lia.
  rewrite drop_app_le by lia. now apply Hk.
Qed.

Lemma withHeader_Stop_not_Ok (dst s : list Z) (k : Z -> bool -> list Z -> iter)
    (r : outcome) (out : list Z) :
  (forall count bitpacked s', k count bitpacked s' <> Stop (Ok out)) ->
  withHeader dst s k = Stop r -> r <> Ok out.
Proof.
  intros Hk H ->.
  destruct (withHeader_cases dst s k) as [E|[E|[E|(u & n & _ & _ & _ & E)]]];
    rewrite E in H; try discriminate.
  eapply Hk; eauto.
Qed.

Lemma decodeBytes_body_app (w : Z) (dst s b d r : list Z) :
  decodeBytes_body w dst s = Next d r ->
  decodeBytes_body w dst (s ++ b) = Next d (r ++ b).
Proof.
  unfold decodeBytes_body. apply withHeader_app. intros count bitpacked s' H.
  destruct bitpacked.
  - destruct (Z.ltb_spec (len s') (bitpack.ByteCount (count * 8 * w))); [discriminate|].
    inversion H; subst. rewrite len_app. pose proof (len_nonneg b).
    destruct (Z.ltb_spec (len s' + len b) (bitpack.ByteCount (count * 8 * w))); [lia|].
    now rewrite take_app_le, drop_app_le by lia.
  - rewrite len_app. pose proof (len_nonneg b).
    destruct (negb (w =? 0)).
    + cbn [andb] in *. destruct (Z.ltb_spec (len s') 1); [discriminate|].
      destruct (Z.ltb_spec (len s' + len b) 1); [lia|].
      destruct s' as [|c s']; [unfold len in *; simpl in *; lia|].
      inversion H; subst. reflexivity.
    + cbn [andb] in *. inversion H; subst. reflexivity.
Qed.

Lemma decodeInt32_body_app (w : Z) (spare dst s b d r : list Z) :
  decodeInt32_body w [] dst s = Next d r ->
  decodeInt32_body w spare dst (s ++ b) = Next d (r ++ b).
Proof.
  unfold decodeInt32_body. apply withHeader_app. intros count bitpacked s' H.
  pose proof (len_nonneg b). pose proof (len_nonneg spare).
  destruct bitpacked.
  - change (len (@nil Z)) with 0 in H.
    destruct (Z.ltb_spec (len s' + 0) (count * w)); [discriminate|].
    inversion H; subst. rewrite len_app.
    destruct (Z.ltb_spec (len s' + len b + len spare) (count * w)); [lia|].
    rewrite app_nil_r, <- app_assoc, take_app_le, drop_app_le by lia. reflexivity.
  - destruct (Z.ltb_spec (len s') (bitpack.ByteCount w)); [discriminate|].
    inversion H; subst. rewrite len_app.
    destruct (Z.ltb_spec (len s' + len b) (bitpack.ByteCount w)); [lia|].
    now rewrite (take_app_le _ s' b), drop_app_le by lia.
Qed.

Lemma decodeBytes_body_Stop (w : Z) (dst s out : list Z) (r : outcome) :
  decodeBytes_body w dst s = Stop r -> r <> Ok out.
Proof.
  unfold decodeBytes_body. apply withHeader_Stop_not_Ok. intros count bitpacked s'.
  destruct bitpacked.
  - destruct (_ <? _); discriminate.
  - destruct (negb (w =? 0) && _); [discriminate|].
    destruct (negb (w =? 0)); discriminate.
Qed.

Lemma decodeInt32_body_Stop (w : Z) (spare dst s out : list Z) (r : outcome) :
  decodeInt32_body w spare dst s = Stop r -> r <> Ok out.
Proof.
  unfold decodeInt32_body. apply withHeader_Stop_not_Ok. intros count bitpacked s'.
  destruct bitpacked; destruct (_ <? _); discriminate.
Qed.

Lemma decodeLoop_app (body body' : list Z -> list Z -> iter) (b : list Z) :
  (forall dst s d r, body dst s = Next d r -> body' dst (s ++ b) = Next d (r ++ b)) ->
  (forall dst s r out, body dst s = Stop r -> r <> Ok out) ->
  progress body -> progress body' ->
  forall fuel a dst out,
    (length a <= fuel)%nat ->
    decodeLoop body fuel dst a = Ok out ->
    decodeFrom body' dst (a ++ b) = decodeFrom body' out b.
Proof.
  intros Happ Hstop Hp Hp'. induction fuel as [|f IH]; intros a dst out Hl H.
  - destruct a; [|simpl in Hl; lia]. simpl in H. inversion H; subst. reflexivity.
  - destruct a as [|c a]; [simpl in H; inversion H; subst; reflexivity|].
    cbn [decodeLoop] in H.
    destruct (body dst (c :: a)) as [d r|r0] eqn:E.
    + rewrite (decodeFrom_step body' dst ((c :: a) ++ b) d (r ++ b) Hp'
                 ltac:(discriminate) (Happ _ _ _ _ E)).
      apply (IH r d out); [|exact H].
      apply Hp in E; [|discriminate]. simpl in *. lia.
    + subst r0. exfalso. eapply Hstop; eauto.
Qed.

Lemma decodeBytes_app (dst a b out : list Z) (w : Z) :
  decodeBytes dst a w = Ok out ->
  decodeBytes dst (a ++ b) w = decodeBytes out b w.
Proof.
  unfold decodeBytes. destruct (8 <? w); [discriminate|]. intros H.
  apply (decodeLoop_app (decodeBytes_body w) (decodeBytes_body w) b
           (fun dst s d r => decodeBytes_body_app w dst s b d r)
           (fun dst s r out => decodeBytes_body_Stop w dst s out r)
           (decodeBytes_progress w) (decodeBytes_progress w) (length a) a dst out
           (Nat.le_refl _) H).
Qed.

Lemma decodeInt32_app (dst a b spare out : list Z) (w : Z) :
  decodeInt32 dst a [] w = Ok out ->
  decodeInt32 dst (a ++ b) spare w = decodeInt32 out b spare w.
Proof.
  unfold decodeInt32. destruct (32 <? w); [discriminate|]. intros H.
  apply (decodeLoop_app (decodeInt32_body w []) (decodeInt32_body w spare) b
           (fun dst s d r => decodeInt32_body_app w spare dst s b d r)
           (fun dst s r out => decodeInt32_body_Stop w [] dst s out r)
           (decodeInt32_progress w []) (decodeInt32_progress w spare) (length a) a dst out
           (Nat.le_refl _) H).
Qed.

(** X4.  Streams compose: when [decodeBytes] decodes the stream [a]
    without an error, decoding [a] followed by any bytes [b] is decoding
    [b] with the output of [a] in the buffer; the same holds for
    [decodeInt32], for a stream [a] that it decodes without reading past
    its end. *)
Theorem decoding_a_stream_followed_by_another (dst a b spare out : list Z) (w : Z) :
  (decodeBytes dst a w = Ok out ->
   decodeBytes dst (a ++ b) w = decodeBytes out b w) /\
  (decodeInt32 dst a [] w = Ok out ->
   decodeInt32 dst (a ++ b) spare w = decodeInt32 out b spare w).
Proof. split; [apply decodeBytes_app | apply decodeInt32_app]. Qed.

Lemma decoding_a_stream_followed_by_another_witness :
  decodeBytes [9] ([16; 1] ++ [5; 85; 85; 255]) 1
    = decodeBytes [9; 1; 1; 1; 1; 1; 1; 1; 1] [5; 85; 85; 255] 1 /\
  decodeInt32 [] ([4; 7; 1] ++ [3]) [] 9
    = decodeInt32 [7; 1; 0; 0; 7; 1; 0; 0] [3] [] 9.
Proof.
  split.
  - apply (proj1 (decoding_a_stream_followed_by_another
                    [9] [16; 1] [5; 85; 85; 255] [] [9; 1; 1; 1; 1; 1; 1; 1; 1] 1)).
    reflexivity.
  - apply (proj2 (decoding_a_stream_followed_by_another
                    [] [4; 7; 1] [3] [] [7; 1; 0; 0; 7; 1; 0; 0] 9)).
    reflexivity.
Defined.

(** X5.  Two encodings put end to end decode to the two sequences put
    end to end: a page may hold the encodings of several batches of
    values, written one after the other. *)
Theorem concatenated_encodings_decode_to_concatenation (w : Z) (xs ys e1 e2 spare : list Z) :
  0 <= w -> fits w xs -> fits w ys ->
  len xs <= maxSupportedValueCount -> len ys <= maxSupportedValueCount ->
  (w <= 8 -> encodeBytes [] xs w = Ok e1 -> encodeBytes [] ys w = Ok e2 ->
   decodeBytes [] (e1 ++ e2) w = Ok (xs ++ ys)) /\
  (w <= 32 ->
   encodeInt32 [] (map int32 xs) w = Ok e1 -> encodeInt32 [] (map int32 ys) w = Ok e2 ->
   decodeInt32 [] (e1 ++ e2) spare w = Ok (flat_map (le_bytes 4) (xs ++ ys))).
Proof.
  intros Hw Hx Hy Hcx Hcy. split.
  - intros H8 He1 He2.
    destruct (encodeBytes_decodeBytes w xs ltac:(lia) Hx Hcx) as (e1' & He1' & Hd1).
    destruct (encodeBytes_decodeBytes w ys ltac:(lia) Hy Hcy) as (e2' & He2' & Hd2).
    rewrite He1 in He1'. rewrite He2 in He2'. inversion He1'; inversion He2'; subst.
    rewrite (decodeBytes_app _ _ _ _ _ Hd1), decodeBytes_prepend, Hd2. reflexivity.
  - intros H32 He1 He2.
    destruct (fits_fits32 w xs ltac:(lia) Hx) as (Hfx & Hbx & _).
    destruct (fits_fits32 w ys ltac:(lia) Hy) as (Hfy & Hby & _).
    assert (Hcx' : len (map int32 xs) <= maxSupportedValueCount)
      by (unfold len; rewrite length_map; exact Hcx).
    assert (Hcy' : len (map int32 ys) <= maxSupportedValueCount)
      by (unfold len; rewrite length_map; exact Hcy).
    destruct (encodeInt32_decodeInt32 w (map int32 xs) [] ltac:(lia) Hfx Hcx')
      as (e1' & He1' & Hd1).
    destruct (encodeInt32_decodeInt32 w (map int32 ys) spare ltac:(lia) Hfy Hcy')
      as (e2' & He2' & Hd2).
    rewrite He1 in He1'. rewrite He2 in He2'. inversion He1'; inversion He2'; subst.
    rewrite (decodeInt32_app _ _ _ _ _ _ Hd1), decodeInt32_prepend, Hd2.
    cbn [prepend]. rewrite Hbx, Hby, flat_map_app. reflexivity.
Qed.

Lemma concatenated_encodings_decode_to_concatenation_witness :
  decodeBytes [] ([16; 2] ++ [4; 3; 2; 0]) 2 = Ok (repeat 2 8 ++ [3; 3; 0]) /\
  decodeInt32 [] ([2; 44; 1] ++ [4; 9; 0]) [] 9 = Ok (flat_map (le_bytes 4) ([300] ++ [9; 9])).
Proof.
  assert (Hcap : forall n, n <= 100 -> n <= maxSupportedValueCount)
    by (intros n Hn; unfold maxSupportedValueCount; lia).
  split.
  - refine (proj1 (concatenated_encodings_decode_to_concatenation 2
                     (repeat 2 8) [3; 3; 0] [16; 2] [4; 3; 2; 0] [] _ _ _ _ _) _ _ _).
    + lia.
    + unfold fits. repeat constructor; simpl; lia.
    + unfold fits. repeat constructor; simpl; lia.
    + apply Hcap. vm_compute. discriminate.
    + apply Hcap. vm_compute. discriminate.
    + lia.
    + reflexivity.
    + reflexivity.
  - refine (proj2 (concatenated_encodings_decode_to_concatenation 9
                     [300] [9; 9] [2; 44; 1] [4; 9; 0] [] _ _ _ _ _) _ _ _).
    + lia.
    + unfold fits. repeat constructor; simpl; lia.
    + unfold fits. repeat constructor; simpl; lia.
    + apply Hcap. vm_compute. discriminate.
    + apply Hcap. vm_compute. discriminate.
    + lia.
    + reflexivity.
    + reflexivity.
Defined.

(** ** The boolean codec: the loop of the encoder, decoded *)

Lemma decodeBits_body_run_length (dst rest : list Z) (count v : Z) :
  0 <= count <= maxSupportedValueCount ->
  decodeBits_body dst (appendRunLengthBits [] count v ++ rest) =
  Next (dst ++ replicate (bitpack.ByteCount count) v) rest.
Proof.
  intros Hc. unfold decodeBits_body, appendRunLengthBits, appendRunLengthBytes.
  cbn [app]. rewrite <- app_assoc. rewrite withHeader_rle by exact Hc. reflexivity.
Qed.

Lemma decodeBits_body_bit_packed (dst rest words : list Z) :
  len words <= maxSupportedValueCount ->
  decodeBits_body dst (appendBitPackedBits [] words ++ rest) =
  Next (dst ++ words) rest.
Proof.
  intros Hc. unfold decodeBits_body, appendBitPackedBits. cbn [app].
  rewrite <- app_assoc. pose proof (len_nonneg words).
  rewrite withHeader_bitPacked by lia.
  rewrite len_app. pose proof (len_nonneg rest).
  destruct (Z.ltb_spec (len words + len rest) (len words)); [lia|].
  now rewrite take_app_len, drop_app_len.
Qed.

Lemma decodeFrom_encodeBits_loop (fuel : nat) :
  forall src dst rest,
    (length src <= fuel)%nat ->
    8 * len src <= maxSupportedValueCount ->
    decodeFrom decodeBits_body dst (encodeBits_loop fuel [] src ++ rest) =
    decodeFrom decodeBits_body (dst ++ src) rest.
Proof.
  induction fuel as [|f IH]; intros src dst rest Hl Hc.
  - destruct src; [|simpl in Hl; lia]. simpl. now rewrite app_nil_r.
  - destruct src as [|b tl]; [simpl; now rewrite app_nil_r|].
    cbn [encodeBits_loop].
    pose proof (indexWhile_range (Z.eqb b) tl) as Hj.
    assert (Hlen : len (b :: tl) = 1 + len tl) by apply len_cons.
    pose proof (len_nonneg tl).
    destruct (((b =? 0) || (b =? 255)) &&
              (1 <? (if (b =? 0) || (b =? 255) then 1 + indexWhile (Z.eqb b) tl else 1)))
      eqn:Hrun.
    + apply andb_true_iff in Hrun. destruct Hrun as [Hb _]. rewrite Hb.
      set (j := indexWhile (Z.eqb b) tl) in *.
      rewrite encodeBits_loop_app, <- app_assoc.
      rewrite (decodeFrom_step _ _ _ _ _ decodeBits_progress
                 (appendRunLengthBytes_nonempty _ _ _)
                 (decodeBits_body_run_length dst _ (8 * (1 + j)) b ltac:(lia))).
      pose proof (len_drop_le (1 + j) (b :: tl)).
      rewrite IH; [| apply length_drop_pos; [lia | exact Hl] | lia].
      f_equal. rewrite <- app_assoc. f_equal.
      rewrite ByteCount_mul8.
      rewrite <- (take_drop (1 + j) (b :: tl)) at 2. f_equal.
      rewrite take_cons, replicate_cons by lia. f_equal.
      unfold j. symmetry. apply take_indexWhile_eqb.
    + set (m0 := 1 + indexWhile2
                       (fun p c => negb (p =? c) || (negb (c =? 0) && (c =? 255))) b tl).
      pose proof (indexWhile2_range
                    (fun p c => negb (p =? c) || (negb (c =? 0) && (c =? 255))) tl b) as Hm.
      fold m0 in Hm.
      set (m := if (1 <? m0) && (m0 <? len (b :: tl)) then m0 - 1 else m0).
      assert (Hm' : 1 <= m <= len (b :: tl)).
      { unfold m. destruct (Z.ltb_spec 1 m0); cbn [andb]; [|lia].
        destruct (Z.ltb_spec m0 (len (b :: tl))); lia. }
      pose proof (len_drop_le m (b :: tl)). pose proof (len_take_le m (b :: tl)).
      rewrite encodeBits_loop_app, <- app_assoc.
      assert (Hne : appendBitPackedBits [] (take m (b :: tl))
                      ++ encodeBits_loop f [] (drop m (b :: tl)) ++ rest <> []).
      { unfold appendBitPackedBits. cbn [app]. rewrite <- app_assoc.
        apply PutUvarint_nonempty. }
      rewrite (decodeFrom_step _ _ _ _ _ decodeBits_progress Hne
                 (decodeBits_body_bit_packed dst _ (take m (b :: tl)) ltac:(lia))).
      rewrite IH; [| apply length_drop_pos; [lia | exact Hl] | lia].
      f_equal. rewrite <- app_assoc. f_equal. apply take_drop.
Qed.

Lemma len_encodeBits_loop (fuel : nat) :
  forall src, len (encodeBits_loop fuel [] src) <= 11 * len src.
Proof.
  induction fuel as [|f IH]; intros src.
  - pose proof (len_nonneg src). destruct src; cbn [encodeBits_loop];
      change (len (@nil Z)) with 0; lia.
  - destruct src as [|b tl];
      [cbn [encodeBits_loop]; change (len (@nil Z)) with 0; lia|].
    cbn [encodeBits_loop].
    pose proof (indexWhile_range (Z.eqb b) tl) as Hj.
    assert (Hlen : len (b :: tl) = 1 + len tl) by apply len_cons.
    pose proof (len_nonneg tl).
    destruct (((b =? 0) || (b =? 255)) &&
              (1 <? (if (b =? 0) || (b =? 255) then 1 + indexWhile (Z.eqb b) tl else 1)))
      eqn:Hrun.
    + apply andb_true_iff in Hrun. destruct Hrun as [Hb _]. rewrite Hb.
      set (j := indexWhile (Z.eqb b) tl) in *.
      rewrite encodeBits_loop_app, len_app.
      unfold appendRunLengthBits, appendRunLengthBytes. cbn [app].
      rewrite len_app, len_cons. change (len (@nil Z)) with 0.
      pose proof (len_PutUvarint (rleHeader (8 * (1 + j)))).
      specialize (IH (drop (1 + j) (b :: tl))).
      rewrite len_drop in IH by lia. lia.
    + set (m0 := 1 + indexWhile2
                       (fun p c => negb (p =? c) || (negb (c =? 0) && (c =? 255))) b tl).
      pose proof (indexWhile2_range
                    (fun p c => negb (p =? c) || (negb (c =? 0) && (c =? 255))) tl b) as Hm.
      fold m0 in Hm.
      set (m := if (1 <? m0) && (m0 <? len (b :: tl)) then m0 - 1 else m0).
      assert (Hm' : 1 <= m <= len (b :: tl)).
      { unfold m. destruct (Z.ltb_spec 1 m0); cbn [andb]; [|lia].
        destruct (Z.ltb_spec m0 (len (b :: tl))); lia. }
      rewrite encodeBits_loop_app, len_app.
      unfold appendBitPackedBits. cbn [app]. rewrite len_app.
      specialize (IH (drop m (b :: tl))).
      rewrite len_drop in IH by lia. rewrite len_take by lia.
      pose proof (len_PutUvarint (bitPackedHeader m)). lia.
Qed.

Lemma isZero_replicate (src : list Z) :
  isZero src = true -> src = replicate (len src) 0.
Proof.
  unfold isZero, replicate, len. rewrite Nat2Z.id. intros H.
  apply Forall_eq_repeat. rewrite forallb_forall in H. apply Forall_forall.
  intros x Hx. apply H in Hx. now apply Z.eqb_eq.
Qed.

Lemma isOnes_replicate (src : list Z) :
  isOnes src = true -> src = replicate (len src) 255.
Proof.
  unfold isOnes, replicate, len. rewrite Nat2Z.id. intros H.
  apply Forall_eq_repeat. rewrite forallb_forall in H. apply Forall_forall.
  intros x Hx. apply H in Hx. now apply Z.eqb_eq.
Qed.

Lemma encodeBits_decodeBits (src : list Z) :
  8 * len src <= maxSupportedValueCount ->
  exists body,
    encodeBits [] src = Ok body /\ decodeBits [] body = Ok src /\
    1 <= len body <= 11 * len src + 10.
Proof.
  intros Hc. unfold encodeBits. pose proof (len_nonneg src) as Hn.
  destruct ((len src =? 0) || isZero src || isOnes src) eqn:Hconst.
  - destruct src as [|b tl].
    + exists [0]. repeat split; try reflexivity; change (len [0]) with 1;
        change (len (@nil Z)) with 0; lia.
    + eexists. split; [reflexivity|].
      assert (Hrep : b :: tl = replicate (len (b :: tl)) b).
      { rewrite len_cons in *. pose proof (len_nonneg tl).
        destruct (Z.eqb_spec (1 + len tl) 0); [lia|]. cbn [orb] in Hconst.
        apply orb_true_iff in Hconst. destruct Hconst as [Hz|Hz].
        - apply isZero_replicate in Hz. rewrite len_cons in Hz.
          rewrite replicate_cons in * by lia.
          injection Hz as Hb Htl. rewrite Hb. f_equal. exact Htl.
        - apply isOnes_replicate in Hz. rewrite len_cons in Hz.
          rewrite replicate_cons in * by lia.
          injection Hz as Hb Htl. rewrite Hb. f_equal. exact Htl. }
      unfold appendUvarint. cbn [app]. split.
      * change (binary.PutUvarint (rleHeader (8 * len (b :: tl))) ++ [b])
          with (appendRunLengthBits [] (8 * len (b :: tl)) b).
        rewrite <- (app_nil_r (appendRunLengthBits _ _ _)).
        unfold decodeBits. fold (decodeFrom decodeBits_body []
                                   (appendRunLengthBits [] (8 * len (b :: tl)) b ++ [])).
        rewrite (decodeFrom_step _ _ _ _ _ decodeBits_progress
                   (appendRunLengthBytes_nonempty _ _ _)
                   (decodeBits_body_run_length [] _ (8 * len (b :: tl)) b ltac:(lia))).
        rewrite decodeFrom_nil, ByteCount_mul8. cbn [app]. now rewrite <- Hrep.
      * rewrite len_app. change (len [b]) with 1.
        pose proof (len_PutUvarint (rleHeader (8 * len (b :: tl)))).
        pose proof (len_cons b tl). pose proof (len_nonneg tl). lia.
  - exists (encodeBits_loop (length src) [] src). split; [reflexivity|]. split.
    + rewrite <- (app_nil_r (encodeBits_loop _ _ _)).
      unfold decodeBits.
      fold (decodeFrom decodeBits_body [] (encodeBits_loop (length src) [] src ++ [])).
      rewrite decodeFrom_encodeBits_loop by (auto; lia).
      apply decodeFrom_nil.
    + pose proof (len_encodeBits_loop (length src) src). split; [|lia].
      destruct src as [|b tl]; [discriminate|].
      destruct (encodeBits_loop (length (b :: tl)) [] (b :: tl)) eqn:E; [|rewrite len_cons; pose proof (len_nonneg l); lia].
      exfalso.
      assert (Hd : decodeFrom decodeBits_body [] (encodeBits_loop (length (b :: tl)) [] (b :: tl) ++ [])
                   = Ok (b :: tl)).
      { rewrite decodeFrom_encodeBits_loop by (auto; lia). apply decodeFrom_nil. }
      rewrite E in Hd. discriminate.
Qed.

(** X6.  The round trip of boolean pages: for every sequence of bytes
    whose eight-fold length is within the cap of the decoder,
    [EncodeBoolean] returns a page and [DecodeBoolean] returns the
    sequence from it; the same holds of [encodeBits] and [decodeBits]
    without the length prefix. *)
Theorem boolean_round_trip (e : Encoding) (dst dst' src : list Z) :
  8 * len src <= maxSupportedValueCount ->
  (exists body, encodeBits [] src = Ok body /\ decodeBits [] body = Ok src) /\
  (exists page, EncodeBoolean e dst src = Ok page /\ DecodeBoolean e dst' page = Ok src).
Proof.
  intros Hc. destruct (encodeBits_decodeBits src Hc) as (body & He & Hd & Hl).
  split; [exists body; auto|].
  destruct (encodeBits_app [0; 0; 0; 0] src) as (body' & Hb & Hd4).
  rewrite He in Hb. inversion Hb; subst body'.
  unfold EncodeBoolean. rewrite Hd4. eexists. split; [reflexivity|].
  assert (Hcap : maxSupportedValueCount = 16777216) by reflexivity.
  assert (Hp : uint32 (uint32 (len ([0; 0; 0; 0] ++ body)) - 4) = len body).
  { rewrite len_app. change (len [0; 0; 0; 0]) with 4. unfold uint32.
    rewrite Zminus_mod_idemp_l. replace (4 + len body - 4) with (len body) by lia.
    apply Z.mod_small. lia. }
  rewrite Hp. change (drop 4 ([0; 0; 0; 0] ++ body)) with body.
  unfold DecodeBoolean.
  assert (H4 : len (le_bytes 4 (len body)) = 4) by (unfold len; now rewrite length_le_bytes).
  rewrite len_app, H4.
  destruct (Z.eqb_spec (4 + len body) 4); [lia|].
  destruct (Z.ltb_spec (4 + len body) 4); [lia|].
  replace (take 4 (le_bytes 4 (len body) ++ body)) with (le_bytes 4 (len body))
    by (rewrite <- H4 at 1; now rewrite take_app_len).
  replace (drop 4 (le_bytes 4 (len body) ++ body)) with body
    by (rewrite <- H4 at 1; now rewrite drop_app_len).
  rewrite le_combine_le_bytes. change (256 ^ Z.of_nat 4) with 4294967296.
  rewrite Z.mod_small by lia.
  destruct (Z.ltb_spec (len body) (len body)); [lia|].
  rewrite <- (app_nil_r body) at 2. rewrite take_app_len. exact Hd.
Qed.

Lemma boolean_round_trip_witness :
  (exists body, encodeBits [] [0; 0; 0; 7; 255; 3] = Ok body /\
                decodeBits [] body = Ok [0; 0; 0; 7; 255; 3]) /\
  (exists page, EncodeBoolean {| BitWidth := 1 |} [] [0; 0; 0; 7; 255; 3] = Ok page /\
                DecodeBoolean {| BitWidth := 1 |} [] page = Ok [0; 0; 0; 7; 255; 3]).
Proof.
  apply (boolean_round_trip {| BitWidth := 1 |} [] [] [0; 0; 0; 7; 255; 3]).
  vm_compute. discriminate.
Defined.

(** ** The methods of [Encoding] *)

Lemma uint_small (w : Z) : 0 <= w <= 32 -> uint w = w.
Proof.
  intros H. unfold uint. apply Z.mod_small.
  change (2 ^ 64) with 18446744073709551616. lia.
Qed.

Lemma uint_out_of_range (w bound : Z) :
  - 2 ^ 63 <= w < 2 ^ 63 -> 0 <= bound <= 32 -> w < 0 \/ bound < w ->
  (bound <? uint w) = true.
Proof.
  intros Hr Hb Hw. apply Z.ltb_lt. unfold uint.
  change (2 ^ 63) with 9223372036854775808 in Hr.
  destruct Hw as [Hneg|Hbig].
  - replace w with (w + 18446744073709551616 + (-1) * 2 ^ 64)
      by (change (2 ^ 64) with 18446744073709551616; ring).
    rewrite Z.mod_add by discriminate.
    rewrite Z.mod_small by (change (2 ^ 64) with 18446744073709551616; lia). lia.
  - rewrite Z.mod_small by (change (2 ^ 64) with 18446744073709551616; lia). lia.
Qed.

(** X7.  The round trip of the methods: at a bit width [BitWidth e] of
    0 to 8, [DecodeLevels] returns the levels that [EncodeLevels] was
    given, and at a bit width of 0 to 32, [DecodeInt32] returns the byte
    slice (the little-endian bytes of the values) that [EncodeInt32] was
    given, whatever the buffers passed as [dst] hold; the values are at
    most 16 * 2^20 non-negative integers below [2 ^ BitWidth e]. *)
Theorem Levels_and_Int32_methods_round_trip (e : Encoding)
    (xs dst dst' spare : list Z) :
  0 <= BitWidth e -> fits (BitWidth e) xs -> len xs <= maxSupportedValueCount ->
  (BitWidth e <= 8 ->
   exists page, EncodeLevels e dst xs = Ok page /\ DecodeLevels e dst' page = Ok xs) /\
  (BitWidth e <= 32 ->
   exists page,
     EncodeInt32 e dst (flat_map (le_bytes 4) xs) = Ok page /\
     DecodeInt32 e dst' page spare = Ok (flat_map (le_bytes 4) xs)).
Proof.
  intros Hw Hf Hc. split.
  - intros H8. unfold EncodeLevels, DecodeLevels. rewrite uint_small by lia.
    apply encodeBytes_decodeBytes; [lia | exact Hf | exact Hc].
  - intros H32. unfold EncodeInt32, DecodeInt32. rewrite uint_small by lia.
    destruct (fits_fits32 (BitWidth e) xs ltac:(lia) Hf) as (Hf32 & Hbytes & Hback).
    assert (Hlen : len (flat_map (le_bytes 4) xs) = 4 * len xs)
      by (rewrite len_flat_map_le_bytes; lia).
    rewrite Hlen.
    replace (4 * len xs mod 4) with 0 by (symmetry; rewrite Z.mul_comm; apply Z.mod_mul; lia).
    cbn [Z.eqb negb].
    replace (4 * len xs / 4) with (len xs) by (symmetry; rewrite Z.mul_comm; apply Z.div_mul; lia).
    unfold len at 1. rewrite Nat2Z.id, Hback.
    assert (Hc32 : len (map int32 xs) <= maxSupportedValueCount)
      by (unfold len; rewrite length_map; exact Hc).
    destruct (encodeInt32_decodeInt32 (BitWidth e) (map int32 xs) spare ltac:(lia) Hf32 Hc32)
      as (enc & He & Hd).
    exists enc. rewrite Hbytes in Hd. auto.
Qed.

Lemma Levels_and_Int32_methods_round_trip_witness :
  (exists page, EncodeLevels {| BitWidth := 2 |} [9; 9] [1; 1; 1; 1; 1; 1; 1; 1; 3; 0] = Ok page /\
                DecodeLevels {| BitWidth := 2 |} [7] page = Ok [1; 1; 1; 1; 1; 1; 1; 1; 3; 0]) /\
  (exists page,
     EncodeInt32 {| BitWidth := 9 |} [9; 9] (flat_map (le_bytes 4) [300; 0; 5]) = Ok page /\
     DecodeInt32 {| BitWidth := 9 |} [7] page [] = Ok (flat_map (le_bytes 4) [300; 0; 5])).
Proof.
  split.
  - refine (proj1 (Levels_and_Int32_methods_round_trip {| BitWidth := 2 |}
                     [1; 1; 1; 1; 1; 1; 1; 1; 3; 0] [9; 9] [7] [] _ _ _) _).
    + simpl; lia.
    + unfold fits. repeat constructor; simpl; lia.
    + vm_compute. discriminate.
    + simpl; lia.
  - refine (proj2 (Levels_and_Int32_methods_round_trip {| BitWidth := 9 |}
                     [300; 0; 5] [9; 9] [7] [] _ _ _) _).
    + simpl; lia.
    + unfold fits. repeat constructor; simpl; lia.
    + vm_compute. discriminate.
    + simpl; lia.
Defined.

Lemma isZero_false (src : list Z) :
  isZero src = false <-> exists b, In b src /\ b <> 0.
Proof.
  unfold isZero. split.
  - intros H. induction src as [|b src IH]; [discriminate|].
    cbn [forallb] in H. destruct (Z.eqb_spec b 0) as [->|Hb].
    + cbn [andb] in H. destruct (IH H) as (c & Hc & Hn). exists c. split; [now right | exact Hn].
    + exists b. split; [now left | exact Hb].
  - intros (b & Hin & Hb). destruct (forallb _ src) eqn:E; [|reflexivity].
    rewrite forallb_forall in E. apply E in Hin. apply Z.eqb_eq in Hin. contradiction.
Qed.

(** X8.  What the methods reject.  A bit width that is negative or above
    8 makes [EncodeLevels] and [DecodeLevels] fail with the invalid bit
    width error, and one that is negative or above 32 does so for
    [EncodeInt32] and [DecodeInt32]: the conversion of a negative [int]
    to [uint] gives a width above the limit.  [EncodeInt32] rejects a
    byte slice whose length is not a multiple of 4 before it looks at
    the bit width.  At the bit width 0, [EncodeLevels] rejects exactly
    the inputs that hold a non-zero byte.  Every rejection returns the
    empty slice. *)
Theorem methods_reject_invalid_arguments (e : Encoding) (dst src spare : list Z) :
  - 2 ^ 63 <= BitWidth e < 2 ^ 63 ->
  (BitWidth e < 0 \/ 8 < BitWidth e ->
   EncodeLevels e dst src = Err InvalidBitWidth [] /\
   DecodeLevels e dst src = Err InvalidBitWidth []) /\
  (BitWidth e < 0 \/ 32 < BitWidth e ->
   (len src mod 4 = 0 -> EncodeInt32 e dst src = Err InvalidBitWidth []) /\
   DecodeInt32 e dst src spare = Err InvalidBitWidth []) /\
  (len src mod 4 <> 0 -> EncodeInt32 e dst src = Err InvalidInputSize []) /\
  (BitWidth e = 0 ->
   (EncodeLevels e dst src = Err InvalidBitWidth [] <-> exists b, In b src /\ b <> 0) /\
   ((exists b, In b src /\ b <> 0) \/ exists page, EncodeLevels e dst src = Ok page)).
Proof.
  intros Hr. split; [|split; [|split]].
  - intros Hw. unfold EncodeLevels, DecodeLevels, encodeBytes, decodeBytes.
    rewrite (uint_out_of_range (BitWidth e) 8 Hr ltac:(lia) Hw). auto.
  - intros Hw. unfold EncodeInt32, DecodeInt32, encodeInt32, decodeInt32.
    rewrite (uint_out_of_range (BitWidth e) 32 Hr ltac:(lia) Hw). split; [|reflexivity].
    intros ->. reflexivity.
  - intros Hm. unfold EncodeInt32. destruct (Z.eqb_spec (len src mod 4) 0); [contradiction|].
    reflexivity.
  - intros Hw. unfold EncodeLevels, encodeBytes. rewrite Hw.
    change (uint 0) with 0. cbn [Z.ltb Z.eqb Z.compare].
    destruct (isZero src) eqn:Hz; cbn [negb].
    + split.
      * split; [discriminate|]. intros H. apply isZero_false in H. congruence.
      * right. eexists; reflexivity.
    + apply isZero_false in Hz. split; [tauto | now left].
Qed.

Lemma methods_reject_invalid_arguments_witness :
  EncodeLevels {| BitWidth := -1 |} [1] [0; 1] = Err InvalidBitWidth [] /\
  DecodeLevels {| BitWidth := -1 |} [1] [0; 1] = Err InvalidBitWidth [].
Proof.
  refine (proj1 (methods_reject_invalid_arguments {| BitWidth := -1 |} [1] [0; 1] [] _) _).
  - vm_compute. split; [discriminate | reflexivity].
  - left. simpl. lia.
Defined.

(** X20.  [DecodeBoolean] reads the body that the length prefix
    declares and nothing after it: the bytes that follow the body in the
    page are ignored, whatever they are, and so is what the buffer [dst]
    holds.  The page is the prefix, a body of the declared length and
    any bytes after it, and is longer than the prefix. *)
Theorem DecodeBoolean_ignores_bytes_after_the_body (e : Encoding)
    (dst body rest : list Z) :
  len body < 2 ^ 32 -> body ++ rest <> [] ->
  DecodeBoolean e dst (le_bytes 4 (len body) ++ body ++ rest) = decodeBits [] body.
Proof.
  intros Hl Hne. unfold DecodeBoolean.
  assert (H4 : len (le_bytes 4 (len body)) = 4) by (unfold len; now rewrite length_le_bytes).
  pose proof (len_nonneg body). pose proof (len_nonneg rest).
  assert (Hpos : 0 < len (body ++ rest)).
  { destruct (body ++ rest); [congruence|]. rewrite len_cons.
    pose proof (len_nonneg l). lia. }
  rewrite len_app, H4.
  destruct (Z.eqb_spec (4 + len (body ++ rest)) 4); [lia|].
  destruct (Z.ltb_spec (4 + len (body ++ rest)) 4); [lia|].
  replace (take 4 (le_bytes 4 (len body) ++ body ++ rest)) with (le_bytes 4 (len body))
    by (rewrite <- H4 at 1; now rewrite take_app_len).
  replace (drop 4 (le_bytes 4 (len body) ++ body ++ rest)) with (body ++ rest)
    by (rewrite <- H4 at 1; now rewrite drop_app_len).
  rewrite le_combine_le_bytes. change (256 ^ Z.of_nat 4) with (2 ^ 32).
  rewrite Z.mod_small by lia. rewrite len_app.
  destruct (Z.ltb_spec (len body + len rest) (len body)); [lia|].
  now rewrite take_app_len.
Qed.

Lemma DecodeBoolean_ignores_bytes_after_the_body_witness :
  DecodeBoolean {| BitWidth := 1 |} [7] (le_bytes 4 (len [48; 255]) ++ [48; 255] ++ [1; 2; 3])
  = decodeBits [] [48; 255].
Proof.
  apply (DecodeBoolean_ignores_bytes_after_the_body {| BitWidth := 1 |} [7] [48; 255] [1; 2; 3]).
  - vm_compute. reflexivity.
  - discriminate.
Defined.

(** ** The helpers of the codec *)

(** X9.  [appendRepeat] appends [count] copies of the pattern to [dst]:
    the loop that doubles the filled region ends with exactly
    [count * len(pattern)] bytes, also for the empty pattern and for no
    copy at all. *)
Theorem appendRepeat_appends_count_copies (dst pattern : list Z) (count : Z) :
  0 <= count ->
  appendRepeat dst pattern count = dst ++ concat (repeat pattern (Z.to_nat count)) /\
  len (appendRepeat dst pattern count) = len dst + count * len pattern.
Proof.
  intros Hc.
  assert (H : appendRepeat dst pattern count
              = dst ++ concat (repeat pattern (Z.to_nat count))).
  { destruct pattern as [|b pattern].
    - unfold appendRepeat. change (len (@nil Z)) with 0. rewrite Z.mul_0_r.
      cbn [Z.to_nat appendRepeat_loop]. unfold take. cbn [Z.to_nat firstn].
      f_equal. induction (Z.to_nat count) as [|n IH]; [reflexivity | exact IH].
    - apply appendRepeat_spec; [exact Hc | simpl; lia]. }
  split; [exact H|]. rewrite H, len_app. unfold len at 2.
  rewrite length_concat_repeat. unfold len. nia.
Qed.

Lemma appendRepeat_appends_count_copies_witness :
  appendRepeat [9] [1; 2; 3] 5
    = [9] ++ concat (repeat [1; 2; 3] (Z.to_nat 5)) /\
  len (appendRepeat [9] [1; 2; 3] 5) = len [9] + 5 * len [1; 2; 3].
Proof. apply (appendRepeat_appends_count_copies [9] [1; 2; 3] 5). lia. Defined.

(** X10.  [broadcast8x1] puts the low byte of its argument in each of
    the eight bytes of the result, and the words it leaves unchanged are
    the words whose eight bytes are equal: the test by which
    [encodeBytes] finds the words it can encode as a run. *)
Theorem broadcast8x1_eight_equal_bytes (v : Z) :
  0 <= v < 2 ^ 64 ->
  le_bytes 8 (broadcast8x1 v) = repeat (v mod 256) 8 /\
  (broadcast8x1 v = v <-> le_bytes 8 v = repeat (v mod 256) 8).
Proof.
  intros Hv. destruct (broadcast8x1_spec v) as (_ & _ & Hle).
  assert (Hlow : Z.land v 255 = v mod 256).
  { change 255 with (Z.ones 8). rewrite Z.land_ones by lia. reflexivity. }
  rewrite Hlow in Hle. split; [exact Hle|]. split.
  - intros H. rewrite <- H at 1. exact Hle.
  - intros H.
    assert (Hc : forall x, 0 <= x < 2 ^ 64 -> le_combine (le_bytes 8 x) = x).
    { intros x Hx. rewrite le_combine_le_bytes. apply Z.mod_small.
      change (256 ^ Z.of_nat 8) with (2 ^ 64). exact Hx. }
    rewrite <- (Hc v Hv) at 2. rewrite H, <- Hle. symmetry. apply Hc.
    unfold broadcast8x1, uint64. apply Z.mod_pos_bound. reflexivity.
Qed.

Lemma broadcast8x1_eight_equal_bytes_witness :
  le_bytes 8 (broadcast8x1 0x0102) = repeat (0x0102 mod 256) 8 /\
  (broadcast8x1 0x0102 = 0x0102 <-> le_bytes 8 0x0102 = repeat (0x0102 mod 256) 8).
Proof. apply (broadcast8x1_eight_equal_bytes 0x0102). vm_compute. split; [discriminate | reflexivity]. Defined.

(** X11.  [resize] returns a slice of the length asked for, that starts
    with the bytes of the buffer.  Within the capacity it is the same
    array, nothing is allocated; above the capacity it is a new array,
    of twice the capacity or of the length asked for, whichever is more,
    where the bytes after those of the buffer are zero.  A negative
    length panics. *)
Theorem resize_keeps_the_bytes (buf : slice) (size : Z) :
  0 <= slen buf <= cap buf -> cap buf < 2 ^ 62 ->
  (size < 0 -> resize buf size = None) /\
  (0 <= size ->
   exists buf',
     resize buf size = Some buf' /\
     slen buf' = size /\ size <= cap buf' /\
     take (slen buf) (contents buf') = take size (contents buf) /\
     (size <= cap buf -> array buf' = array buf) /\
     (cap buf < size ->
      cap buf' = Z.max (2 * cap buf) size /\
      contents buf' = contents buf ++ replicate (size - slen buf) 0)).
Proof.
  intros Hwf Hcap. unfold resize, grow, cap, contents in *.
  assert (Hint : int (2 * len (array buf)) = 2 * len (array buf)).
  { unfold int. change (2 ^ 62) with 4611686018427387904 in Hcap.
    rewrite Z.mod_small;
      change (2 ^ 63) with 9223372036854775808;
      change (2 ^ 64) with 18446744073709551616; lia. }
  rewrite Hint. split.
  - intros Hneg. destruct (Z.ltb_spec (len (array buf)) size); [lia|].
    destruct (Z.ltb_spec size 0); [reflexivity | lia].
  - intros Hpos. destruct (Z.ltb_spec (len (array buf)) size) as [Hgrow|Hfit].
    + set (newCap := if 2 * len (array buf) <? size then size else 2 * len (array buf)).
      assert (HnewCap : newCap = Z.max (2 * len (array buf)) size).
      { unfold newCap. destruct (Z.ltb_spec (2 * len (array buf)) size); lia. }
      destruct (Z.ltb_spec size 0); [lia|].
      destruct (Z.ltb_spec newCap size); [lia|]. cbn [orb].
      eexists. split; [reflexivity|]. cbn [array slen].
      rewrite Z.min_r by lia.
      assert (Hpre : len (take (slen buf) (array buf)) = slen buf)
        by (apply len_take; lia).
      assert (Hz : drop (slen buf) (replicate newCap 0)
                   = replicate (size - slen buf) 0 ++ replicate (newCap - size) 0).
      { unfold drop, replicate.
        replace (Z.to_nat newCap)
          with (Z.to_nat (slen buf) + Z.to_nat (newCap - slen buf))%nat by lia.
        rewrite skipn_repeat, <- repeat_app. f_equal. lia. }
      assert (Hc : take size (take (slen buf) (array buf) ++ drop (slen buf) (replicate newCap 0))
                   = take (slen buf) (array buf) ++ replicate (size - slen buf) 0).
      { rewrite Hz, app_assoc.
        replace size with (len (take (slen buf) (array buf) ++ replicate (size - slen buf) 0)) at 1
          by (rewrite len_app, Hpre, len_replicate; lia).
        apply take_app_len. }
      split; [reflexivity|]. split.
      { rewrite len_app, Hpre, Hz, len_app, !len_replicate; lia. }
      split.
      { rewrite Hc. rewrite <- Hpre at 1. rewrite take_app_len.
        unfold take. rewrite firstn_firstn. f_equal. lia. }
      split; [lia|]. intros _. split; [|exact Hc].
      rewrite len_app, Hpre, Hz, len_app, !len_replicate; lia.
    + destruct (Z.ltb_spec size 0); [lia|].
      eexists. split; [reflexivity|]. cbn [array slen].
      split; [reflexivity|]. split; [lia|]. split.
      { unfold take. rewrite !firstn_firstn. f_equal. lia. }
      split; [reflexivity | lia].
Qed.

Lemma resize_keeps_the_bytes_witness :
  (5 < 0 -> resize {| array := [1; 2; 3; 0]; slen := 3 |} 5 = None) /\
  (0 <= 5 ->
   exists buf',
     resize {| array := [1; 2; 3; 0]; slen := 3 |} 5 = Some buf' /\
     slen buf' = 5 /\ 5 <= cap buf' /\
     take 3 (contents buf') = take 5 (contents {| array := [1; 2; 3; 0]; slen := 3 |}) /\
     (5 <= cap {| array := [1; 2; 3; 0]; slen := 3 |} ->
      array buf' = [1; 2; 3; 0]) /\
     (cap {| array := [1; 2; 3; 0]; slen := 3 |} < 5 ->
      cap buf' = Z.max (2 * cap {| array := [1; 2; 3; 0]; slen := 3 |}) 5 /\
      contents buf'
        = contents {| array := [1; 2; 3; 0]; slen := 3 |} ++ replicate (5 - 3) 0)).
Proof.
  apply (resize_keeps_the_bytes {| array := [1; 2; 3; 0]; slen := 3 |} 5).
  - vm_compute. split; discriminate.
  - vm_compute. reflexivity.
Defined.

(** ** Broken headers *)

Lemma Uvarint_loop_all_continuation (s : list Z) :
  forall i x sh,
    Forall (fun b => 128 <= b) s -> i + len s <= 10 ->
    binary.Uvarint_loop s i x sh = (0, 0).
Proof.
  induction s as [|b s IH]; intros i x sh Hs Hl; [reflexivity|].
  inversion Hs as [|? ? Hb Hs']; subst. rewrite len_cons in Hl.
  pose proof (len_nonneg s). cbn [binary.Uvarint_loop].
  destruct (Z.eqb_spec i binary.MaxVarintLen64); [unfold binary.MaxVarintLen64 in *; lia|].
  destruct (Z.ltb_spec b 128); [lia|]. apply IH; [exact Hs' | lia].
Qed.

Lemma Uvarint_loop_overflow_long (h t : list Z) :
  forall i x sh,
    Forall (fun b => 128 <= b) h -> i + len h = 10 -> t <> [] ->
    binary.Uvarint_loop (h ++ t) i x sh = (0, -11).
Proof.
  induction h as [|b h IH]; intros i x sh Hh Hl Ht.
  - change (len (@nil Z)) with 0 in Hl. destruct t as [|c t]; [congruence|].
    cbn [app binary.Uvarint_loop].
    destruct (Z.eqb_spec i binary.MaxVarintLen64);
      [|unfold binary.MaxVarintLen64 in *; lia].
    replace i with 10 by lia. reflexivity.
  - inversion Hh as [|? ? Hb Hh']; subst. rewrite len_cons in Hl.
    pose proof (len_nonneg h). cbn [app binary.Uvarint_loop].
    destruct (Z.eqb_spec i binary.MaxVarintLen64); [unfold binary.MaxVarintLen64 in *; lia|].
    destruct (Z.ltb_spec b 128); [lia|]. apply IH; [exact Hh' | lia | exact Ht].
Qed.

Lemma Uvarint_loop_overflow_last (h t : list Z) (c : Z) :
  forall i x sh,
    Forall (fun b => 128 <= b) h -> i + len h = 9 -> 1 < c < 128 ->
    binary.Uvarint_loop (h ++ c :: t) i x sh = (0, -10).
Proof.
  induction h as [|b h IH]; intros i x sh Hh Hl Hc.
  - change (len (@nil Z)) with 0 in Hl. cbn [app binary.Uvarint_loop].
    destruct (Z.eqb_spec i binary.MaxVarintLen64); [unfold binary.MaxVarintLen64 in *; lia|].
    destruct (Z.ltb_spec c 128); [|lia].
    destruct (Z.eqb_spec i (binary.MaxVarintLen64 - 1));
      [|unfold binary.MaxVarintLen64 in *; lia].
    destruct (Z.ltb_spec 1 c); [|lia]. cbn [andb].
    replace i with 9 by lia. reflexivity.
  - inversion Hh as [|? ? Hb Hh']; subst. rewrite len_cons in Hl.
    pose proof (len_nonneg h). cbn [app binary.Uvarint_loop].
    destruct (Z.eqb_spec i binary.MaxVarintLen64); [unfold binary.MaxVarintLen64 in *; lia|].
    destruct (Z.ltb_spec b 128); [lia|]. apply IH; [exact Hh' | lia | exact Hc].
Qed.

(** X12.  A broken run header is reported.  The decoding loop has
    decoded [k] runs, its output is [dst], and [s] is the rest of the
    input.  When [s] is at most ten bytes that all carry the
    continuation bit (they are 128 or more), the header is truncated;
    when ten such bytes are followed by another byte, or nine of them by
    a byte from 2 to 127, the header overflows 64 bits.  Each of the
    three decoders returns that error with the output [dst]. *)
Theorem broken_header_is_reported (w : Z) (spare dst0 src : list Z) (k : nat)
    (dst s : list Z) (e : error) :
  (s <> [] /\ Forall (fun b => 128 <= b) s /\ len s <= 10 /\ e = TruncatedHeader) \/
  (exists h t, s = h ++ t /\ Forall (fun b => 128 <= b) h /\ len h = 10 /\ t <> [] /\
               e = HeaderOverflow) \/
  (exists h c t, s = h ++ c :: t /\ Forall (fun b => 128 <= b) h /\ len h = 9 /\
                 1 < c < 128 /\ e = HeaderOverflow) ->
  (after decodeBits_body k dst0 src = Some (dst, s) ->
   decodeBits dst0 src = Err e dst) /\
  (w <= 8 -> after (decodeBytes_body w) k dst0 src = Some (dst, s) ->
   decodeBytes dst0 src w = Err e dst) /\
  (w <= 32 -> after (decodeInt32_body w spare) k dst0 src = Some (dst, s) ->
   decodeInt32 dst0 src spare w = Err e dst).
Proof.
  intros Hcases.
  assert (Hh : s <> [] /\ forall kk, withHeader dst s kk = Stop (Err e dst)).
  { destruct Hcases as [(Hs & Hall & Hl & ->)|[(h & t & -> & Hall & Hl & Ht & ->)
                       |(h & c & t & -> & Hall & Hl & Hc & ->)]].
    - split; [exact Hs|]. intros kk. unfold withHeader, binary.Uvarint.
      rewrite Uvarint_loop_all_continuation by (auto; lia). reflexivity.
    - split; [destruct h; [exact Ht | discriminate]|].
      intros kk. unfold withHeader, binary.Uvarint.
      rewrite Uvarint_loop_overflow_long by (auto; lia). reflexivity.
    - split; [destruct h; discriminate|].
      intros kk. unfold withHeader, binary.Uvarint.
      rewrite Uvarint_loop_overflow_last by (auto; lia). reflexivity. }
  destruct Hh as [Hs Hw]. split; [|split].
  - intros Ha. unfold decodeBits.
    apply (decodeLoop_stop _ k dst0 src dst s _ decodeBits_progress Ha Hs). apply Hw.
  - intros H8 Ha. unfold decodeBytes. destruct (Z.ltb_spec 8 w); [lia|].
    apply (decodeLoop_stop _ k dst0 src dst s _ (decodeBytes_progress w) Ha Hs). apply Hw.
  - intros H32 Ha. unfold decodeInt32. destruct (Z.ltb_spec 32 w); [lia|].
    apply (decodeLoop_stop _ k dst0 src dst s _ (decodeInt32_progress w spare) Ha Hs).
    apply Hw.
Qed.

Lemma broken_header_is_reported_witness :
  decodeBits [] [48; 0; 128; 200] = Err TruncatedHeader [0; 0; 0] /\
  decodeBytes [] [6; 1; 128; 200] 1 = Err TruncatedHeader [1; 1; 1] /\
  decodeInt32 [] [6; 1; 128; 200] [] 1 = Err TruncatedHeader (flat_map (le_bytes 4) [1; 1; 1]).
Proof.
  assert (H : [128; 200] <> [] /\ Forall (fun b => 128 <= b) [128; 200] /\
              len [128; 200] <= 10 /\ TruncatedHeader = TruncatedHeader).
  { split; [discriminate|]. split; [repeat constructor; lia|].
    split; [vm_compute; discriminate | reflexivity]. }
  split; [|split].
  - apply (proj1 (broken_header_is_reported 1 [] [] [48; 0; 128; 200] 1
                    [0; 0; 0] [128; 200] TruncatedHeader (or_introl H))).
    reflexivity.
  - apply (proj1 (proj2 (broken_header_is_reported 1 [] [] [6; 1; 128; 200] 1
                    [1; 1; 1] [128; 200] TruncatedHeader (or_introl H)))).
    + lia.
    + reflexivity.
  - apply (proj2 (proj2 (broken_header_is_reported 1 [] [] [6; 1; 128; 200] 1
                    (flat_map (le_bytes 4) [1; 1; 1]) [128; 200] TruncatedHeader
                    (or_introl H)))).
    + lia.
    + reflexivity.
Defined.

(** ** The output of [decodeInt32] is made of whole values *)

Lemma decodeLoop_invariant (P : list Z -> Prop) (body : list Z -> list Z -> iter) :
  (forall dst s d r, P dst -> body dst s = Next d r -> P d) ->
  (forall dst s out, P dst ->
     (body dst s = Stop (Ok out) \/ exists e, body dst s = Stop (Err e out)) -> P out) ->
  forall fuel dst src out,
    P dst ->
    (decodeLoop body fuel dst src = Ok out \/
     exists e, decodeLoop body fuel dst src = Err e out) ->
    P out.
Proof.
  intros Hnext Hstop. induction fuel as [|f IH]; intros dst src out HP H.
  - destruct src; cbn [decodeLoop] in H.
    + destruct H as [H|[e H]]; [inversion H; subst; exact HP | discriminate].
    + destruct H as [H|[e H]]; discriminate.
  - destruct src as [|b src]; cbn [decodeLoop] in H.
    + destruct H as [H|[e H]]; [inversion H; subst; exact HP | discriminate].
    + destruct (body dst (b :: src)) as [d r|r] eqn:E.
      * apply (IH d r out); [eapply Hnext; eauto | exact H].
      * apply (Hstop dst (b :: src) out HP). rewrite E.
        destruct H as [H|[e H]]; subst; eauto.
Qed.

Lemma len_Int32ToBytes (vs : list Z) : len (Int32ToBytes vs) = 4 * len vs.
Proof.
  induction vs as [|v vs IH]; [reflexivity|].
  unfold Int32ToBytes in *. cbn [flat_map]. rewrite len_app, IH, len_cons.
  unfold len at 1. rewrite length_le_bytes. lia.
Qed.

Lemma decodeInt32_body_whole (w : Z) (spare dst s : list Z) :
  len dst mod 4 = 0 ->
  match decodeInt32_body w spare dst s with
  | Next d _ => len d mod 4 = 0
  | Stop (Ok out) | Stop (Err _ out) => len out mod 4 = 0
  | Stop _ => True
  end.
Proof.
  intros HP. unfold decodeInt32_body.
  match goal with |- match withHeader _ _ ?k with _ => _ end =>
    destruct (withHeader_cases dst s k) as [E|[E|[E|(u & n & _ & _ & _ & E)]]]
  end; rewrite E; try exact HP.
  destruct (negb _).
  - destruct (_ <? _); [exact I|].
    rewrite len_app, len_Int32ToBytes.
    rewrite (Z.mul_comm 4), Z.mod_add by lia. exact HP.
  - destruct (_ <? _); [exact HP|].
    set (bits := take 4 _).
    assert (Hb : len bits = 4).
    { unfold bits. apply len_take. rewrite len_app.
      pose proof (len_nonneg (take (bitpack.ByteCount w) (drop n s))).
      change (len [0; 0; 0; 0]) with 4. lia. }
    destruct (Z.ltb_spec (Z.shiftr u 1) 0) as [Hneg|Hpos].
    + unfold appendRepeat. rewrite Hb.
      replace (Z.to_nat (Z.shiftr u 1 * 4)) with 0%nat by lia.
      cbn [appendRepeat_loop]. unfold take at 1.
      replace (Z.to_nat (Z.shiftr u 1 * 4)) with 0%nat by lia.
      cbn [firstn]. now rewrite app_nil_r.
    + rewrite appendRepeat_spec by (unfold len in Hb; lia).
      rewrite len_app. unfold len at 2. rewrite length_concat_repeat.
      replace (Z.of_nat (Z.to_nat (Z.shiftr u 1) * length bits))
        with (Z.shiftr u 1 * 4) by (unfold len in Hb; nia).
      rewrite Z.mod_add by lia. exact HP.
Qed.

(** X13.  [decodeInt32] writes whole values: what it appends to [dst] is
    a multiple of four bytes long, when it returns without an error and
    when it returns one. *)
Theorem decodeInt32_writes_whole_values (dst src spare out : list Z) (w : Z) :
  decodeInt32 dst src spare w = Ok out \/
  (exists e, decodeInt32 dst src spare w = Err e out) ->
  exists vs, out = dst ++ vs /\ len vs mod 4 = 0.
Proof.
  rewrite decodeInt32_prepend. intros H.
  assert (Hex : exists vs, out = dst ++ vs /\
                  (decodeInt32 [] src spare w = Ok vs \/
                   exists e, decodeInt32 [] src spare w = Err e vs)).
  { destruct (decodeInt32 [] src spare w) as [vs|e' vs| |]; cbn [prepend] in H.
    - destruct H as [H|[e H]]; [|discriminate]. inversion H. eauto.
    - destruct H as [H|[e H]]; [discriminate|]. inversion H. eauto.
    - destruct H as [H|[e H]]; discriminate.
    - destruct H as [H|[e H]]; discriminate. }
  destruct Hex as (vs & -> & Hvs). exists vs. split; [reflexivity|].
  unfold decodeInt32 in Hvs. destruct (32 <? w).
  - destruct Hvs as [Hvs|[e Hvs]]; [discriminate|]. inversion Hvs. reflexivity.
  - apply (decodeLoop_invariant (fun l => len l mod 4 = 0) (decodeInt32_body w spare))
      with (fuel := length src) (dst := []) (src := src); [| |reflexivity|exact Hvs].
    + intros d0 s d r HP E. pose proof (decodeInt32_body_whole w spare d0 s HP) as Hb.
      now rewrite E in Hb.
    + intros d0 s o HP E. pose proof (decodeInt32_body_whole w spare d0 s HP) as Hb.
      destruct E as [E|[e E]]; now rewrite E in Hb.
Qed.

Lemma decodeInt32_writes_whole_values_witness :
  decodeInt32 [9] [4; 7; 1; 200] [] 9 = Err TruncatedHeader [9; 7; 1; 0; 0; 7; 1; 0; 0] /\
  exists vs, [9; 7; 1; 0; 0; 7; 1; 0; 0] = [9] ++ vs /\ len vs mod 4 = 0.
Proof.
  split; [reflexivity|].
  apply (decodeInt32_writes_whole_values [9] [4; 7; 1; 200] [] [9; 7; 1; 0; 0; 7; 1; 0; 0] 9).
  right. exists TruncatedHeader. reflexivity.
Defined.

(* ================================================================= *)
(** * Further properties of the trace lookup *)

(** ** The lookup returns no row but one that holds the id *)

Lemma firstMatch_sound (vs : list string) (traceID : string) :
  forall y r,
    firstMatch vs traceID y = Some r ->
    exists k, r = y + Z.of_nat k /\ nth_error vs k = Some traceID.
Proof.
  induction vs as [|v vs IH]; intros y r H; [discriminate|].
  cbn [firstMatch] in H.
  destruct (strings_Compare v traceID =? 0) eqn:E.
  - apply strings_Compare_eq in E. inversion H; subst.
    exists 0%nat. split; [lia | reflexivity].
  - destruct (IH _ _ H) as (k & -> & Hk). exists (S k). split; [lia | exact Hk].
Qed.

Lemma scanValues_sound (traceID : string) (reads : list (list string * ioerr)) :
  forall rowMatch r,
    scanValues reads rowMatch traceID = Some r ->
    exists y, r = rowMatch + Z.of_nat y /\ nth_error (flat_map fst reads) y = Some traceID.
Proof.
  induction reads as [|[vs err] reads IH]; intros rowMatch r H; [discriminate|].
  cbn [scanValues] in H. cbn [flat_map fst].
  destruct (firstMatch vs traceID 0) as [y|] eqn:E.
  - inversion H; subst. destruct (firstMatch_sound _ _ _ _ E) as (k & -> & Hk).
    exists k. split; [lia|]. rewrite nth_error_app1; [exact Hk|].
    apply nth_error_Some. congruence.
  - destruct err; try discriminate.
    destruct (IH _ _ H) as (y & -> & Hy). exists (length vs + y)%nat. split.
    + unfold len. lia.
    + rewrite nth_error_app2 by lia. replace (length vs + y - length vs)%nat with y by lia.
      exact Hy.
Qed.

Lemma scanPages_sound (traceID : string) (pages : list (option Page * ioerr)) :
  Forall (fun pg => NumRows pg = len (pageValues pg))
         (flat_map (fun r => match fst r with Some pg => [pg] | None => [] end) pages) ->
  forall rowMatch,
    0 <= fst (scanPages pages rowMatch traceID) ->
    exists y,
      fst (scanPages pages rowMatch traceID) = rowMatch + Z.of_nat y /\
      nth_error (flat_map pageValues
                   (flat_map (fun r => match fst r with Some pg => [pg] | None => [] end)
                             pages)) y = Some traceID.
Proof.
  induction pages as [|[[pg|] err] rest IH]; intros Hrows rowMatch H.
  - cbn in H; unfold NotFound, SearchPrevious, SearchNext in H; lia.
  - cbn [flat_map fst app] in *. inversion Hrows as [|? ? Hpg Hrest]; subst.
    assert (Hscan : forall r,
              0 <= fst (match scanValues (Values pg) rowMatch traceID with
                        | Some row => (row, rest)
                        | None => (NotFound, rest)
                        end) ->
              exists y,
                fst (match scanValues (Values pg) rowMatch traceID with
                     | Some row => (row, rest)
                     | None => (NotFound, rest)
                     end) = rowMatch + Z.of_nat y /\
                nth_error (pageValues pg ++ flat_map pageValues r) y = Some traceID).
    { intros r Hr. destruct (scanValues (Values pg) rowMatch traceID) as [row|] eqn:E;
        [|cbn in Hr; unfold NotFound in Hr; lia].
      destruct (scanValues_sound _ _ _ _ E) as (y & -> & Hy). exists y.
      split; [reflexivity|]. rewrite nth_error_app1; [exact Hy|].
      apply nth_error_Some. unfold pageValues. congruence. }
    assert (Hskip : 0 <= fst (scanPages rest (rowMatch + NumRows pg) traceID) ->
              exists y,
                fst (scanPages rest (rowMatch + NumRows pg) traceID) = rowMatch + Z.of_nat y /\
                nth_error (pageValues pg ++
                           flat_map pageValues
                             (flat_map (fun r => match fst r with
                                                 | Some pg => [pg] | None => [] end) rest)) y
                = Some traceID).
    { intros Hr. destruct (IH Hrest _ Hr) as (y & Hy1 & Hy2).
      exists (length (pageValues pg) + y)%nat. split.
      - rewrite Hy1, Hpg. unfold len. lia.
      - rewrite nth_error_app2 by lia.
        replace (length (pageValues pg) + y - length (pageValues pg))%nat with y by lia.
        exact Hy2. }
    cbn [scanPages] in *.
    destruct err.
    + destruct (Bounds pg) as [[min max]|]; [|apply Hscan; exact H].
      destruct (_ <? 0); [cbn in H; unfold NotFound, SearchPrevious, SearchNext in H; lia|].
      destruct (_ <? 0); [apply Hskip; exact H | apply Hscan; exact H].
    + cbn in H; unfold NotFound, SearchPrevious, SearchNext in H; lia.
    + destruct (Bounds pg) as [[min max]|]; [|apply Hscan; exact H].
      destruct (_ <? 0); [cbn in H; unfold NotFound, SearchPrevious, SearchNext in H; lia|].
      destruct (_ <? 0); [apply Hskip; exact H | apply Hscan; exact H].
  - cbn in H; unfold NotFound, SearchPrevious, SearchNext in H; lia.
Qed.

Lemma probe_sound (rg : RowGroup) (start : Z) (traceID : string) :
  countsRows rg -> 0 <= fst (probe rg start traceID) ->
  exists y,
    fst (probe rg start traceID) = start + Z.of_nat y /\
    nth_error (rowGroupValues rg) y = Some traceID.
Proof.
  intros [_ Hrows] H. unfold probe in *.
  destruct (match BloomFilter (TraceIDColumnChunk rg) with
            | Some bf => negb (bf traceID)
            | None => false
            end); [cbn in H; unfold NotFound, SearchPrevious, SearchNext in H; lia|].
  destruct (_ <? 0); [cbn in H; unfold NotFound, SearchPrevious, SearchNext in H; lia|].
  destruct (_ <? 0); [cbn in H; unfold NotFound, SearchPrevious, SearchNext in H; lia|].
  apply scanPages_sound; assumption.
Qed.

Lemma startRows_nth (l : list RowGroup) :
  Forall countsRows l ->
  forall i rowCount start,
    nth_error (startRows l rowCount) i = Some start ->
    start = rowCount + len (blockValues (firstn i l)).
Proof.
  induction 1 as [|rg l [Hrg _] Hl IH]; intros i rowCount start Hn.
  - destruct i; discriminate.
  - destruct i as [|i]; cbn [startRows nth_error firstn] in *.
    + inversion Hn. change (len (blockValues [])) with 0. lia.
    + apply IH in Hn. rewrite Hn, Hrg. unfold blockValues. cbn [flat_map].
      rewrite len_app. lia.
Qed.

Lemma nth_error_blockValues (l : list RowGroup) :
  forall i rg y v,
    nth_error l i = Some rg -> nth_error (rowGroupValues rg) y = Some v ->
    nth_error (blockValues l) (length (blockValues (firstn i l)) + y) = Some v.
Proof.
  induction l as [|a l IH]; intros i rg y v Hi Hy; [destruct i; discriminate|].
  destruct i as [|i]; cbn [nth_error firstn] in *.
  - inversion Hi; subst. unfold blockValues. cbn [flat_map length Nat.add].
    rewrite nth_error_app1; [exact Hy|]. apply nth_error_Some. congruence.
  - unfold blockValues in *. cbn [flat_map]. rewrite length_app, nth_error_app2 by lia.
    replace (length (rowGroupValues a) + length (flat_map rowGroupValues (firstn i l)) + y
             - length (rowGroupValues a))%nat
      with (length (flat_map rowGroupValues (firstn i l)) + y)%nat by lia.
    eapply IH; eauto.
Qed.

Lemma binarySearch_sound (rowGroups : list RowGroup) (traceID : string) (fuel : nat) :
  forall start end_ r,
    0 <= start -> end_ < len rowGroups ->
    binarySearch fuel (newRowTracker rowGroups) start end_ traceID = ret r -> 0 <= r ->
    exists idx,
      0 <= idx < len rowGroups /\
      findTraceByID (newRowTracker rowGroups) idx traceID = ret r.
Proof.
  induction fuel as [|fuel IH]; intros start end_ r Hs He H Hr.
  - cbn [binarySearch] in H. destruct (end_ <? start); [inversion H; lia | discriminate].
  - cbn [binarySearch] in H. destruct (Z.ltb_spec end_ start); [inversion H; lia|].
    pose proof (mid_in_range start end_ ltac:(lia)) as Hmid.
    set (mid := Z.quot (start + end_) 2) in *.
    destruct (findTraceByID (newRowTracker rowGroups) mid traceID) as [midResult| |] eqn:E;
      cbn [bind] in H; try discriminate.
    destruct (midResult =? SearchPrevious);
      [apply (IH start (mid - 1) r Hs ltac:(lia) H Hr)|].
    destruct (midResult <? 0); [apply (IH (mid + 1) end_ r ltac:(lia) He H Hr)|].
    inversion H; subst. exists mid. split; [lia | exact E].
Qed.

(** X14.  The lookup returns no wrong row.  In a block whose metadata
    counts the rows as its pages hold them, a row number that
    [binarySearch] returns is the number of a row that holds the id:
    whether the ids are sorted or not, with or without bloom filters,
    whatever the bounds of the pages and of the column chunks say, and
    whichever reads fail. *)
Theorem binarySearch_returns_a_row_of_the_id (rowGroups : list RowGroup)
    (traceID : string) (r : Z) :
  Forall countsRows rowGroups ->
  binarySearch (S (length rowGroups)) (newRowTracker rowGroups)
               0 (len rowGroups - 1) traceID = ret r ->
  0 <= r ->
  nth_error (blockValues rowGroups) (Z.to_nat r) = Some traceID.
Proof.
  intros Hc H Hr.
  destruct (binarySearch_sound rowGroups traceID _ 0 (len rowGroups - 1) r
              ltac:(lia) ltac:(lia) H Hr) as (idx & Hidx & Hfind).
  destruct (findTraceByID_in_range rowGroups idx traceID Hidx)
    as (rg & start & Hrg & Hstart & Hfind').
  rewrite Hfind in Hfind'. inversion Hfind' as [Hr'].
  assert (Hcr : countsRows rg).
  { rewrite Forall_forall in Hc. apply Hc. eapply nth_error_In; eauto. }
  destruct (probe_sound rg start traceID Hcr ltac:(lia)) as (y & Hy1 & Hy2).
  pose proof (startRows_nth rowGroups Hc _ _ _ Hstart) as Hst.
  rewrite Hy1, Hst.
  replace (Z.to_nat (0 + len (blockValues (firstn (Z.to_nat idx) rowGroups)) + Z.of_nat y))
    with (length (blockValues (firstn (Z.to_nat idx) rowGroups)) + y)%nat
    by (unfold len; lia).
  eapply nth_error_blockValues; eauto.
Qed.

Lemma binarySearch_returns_a_row_of_the_id_witness :
  nth_error (blockValues [rowGroupOf (Some (exactBloom [id3])) [id3; id1];
                          rowGroupOf None [id2; id2; id5]]) (Z.to_nat 4) = Some id5.
Proof.
  apply (binarySearch_returns_a_row_of_the_id
           [rowGroupOf (Some (exactBloom [id3])) [id3; id1];
            rowGroupOf None [id2; id2; id5]] id5 4).
  - repeat constructor.
  - reflexivity.
  - lia.
Defined.

(** ** The lookup returns *)

Lemma binarySearch_fuel (rt : RowTracker) (traceID : string) (fuel : nat) :
  forall start end_ r fuel',
    binarySearch fuel rt start end_ traceID = ret r -> (fuel <= fuel')%nat ->
    binarySearch fuel' rt start end_ traceID = ret r.
Proof.
  induction fuel as [|fuel IH]; intros start end_ r fuel' H Hf.
  - cbn [binarySearch] in H. destruct (end_ <? start) eqn:E; [|discriminate].
    destruct fuel'; cbn [binarySearch]; rewrite E; exact H.
  - destruct fuel' as [|fuel']; [lia|]. cbn [binarySearch] in *.
    destruct (end_ <? start); [exact H|].
    destruct (findTraceByID rt (Z.quot (start + end_) 2) traceID) as [midResult| |];
      cbn [bind] in *; try discriminate.
    destruct (midResult =? SearchPrevious); [apply (IH _ _ _ _ H); lia|].
    destruct (midResult <? 0); [apply (IH _ _ _ _ H); lia | exact H].
Qed.

Lemma binarySearch_depth (rowGroups : list RowGroup) (traceID : string) (fuel : nat) :
  forall start end_,
    0 <= start -> end_ < len rowGroups ->
    (if end_ <? start then 0 else Z.log2 (end_ - start + 1) + 1) <= Z.of_nat fuel ->
    exists r,
      binarySearch fuel (newRowTracker rowGroups) start end_ traceID = ret r /\
      (r = -1 \/ 0 <= r).
Proof.
  induction fuel as [|fuel IH]; intros start end_ Hs He Hf.
  - cbn [binarySearch]. destruct (Z.ltb_spec end_ start); [eauto|].
    pose proof (Z.log2_nonneg (end_ - start + 1)). lia.
  - cbn [binarySearch]. destruct (Z.ltb_spec end_ start) as [Hlt|Hle]; [eauto|].
    pose proof (mid_in_range start end_ ltac:(lia)) as Hm1.
    set (mid := Z.quot (start + end_) 2) in *.
    assert (Hmid : mid = (start + end_) / 2)
      by (unfold mid; apply Z.quot_div_nonneg; lia).
    assert (Hhalf : forall a b, 0 <= a -> b - a + 1 <= (end_ - start + 1) / 2 ->
                    (if b <? a then 0 else Z.log2 (b - a + 1) + 1) <=
                    Z.log2 (end_ - start + 1)).
    { intros a b Ha Hsz. pose proof (Z.log2_nonneg (end_ - start + 1)).
      destruct (Z.ltb_spec b a); [lia|].
      replace (Z.log2 (b - a + 1) + 1) with (Z.log2 (2 * (b - a + 1)))
        by (rewrite Z.log2_double; lia).
      apply Z.log2_le_mono.
      pose proof (Z.mul_div_le (end_ - start + 1) 2 ltac:(lia)). lia. }
    assert (Hl : mid - 1 - start + 1 <= (end_ - start + 1) / 2).
    { apply Z.div_le_lower_bound; [lia|].
      pose proof (Z.mul_div_le (start + end_) 2 ltac:(lia)). lia. }
    assert (Hr : end_ - (mid + 1) + 1 <= (end_ - start + 1) / 2).
    { apply Z.div_le_lower_bound; [lia|].
      pose proof (Z_mod_lt (start + end_) 2 ltac:(lia)).
      pose proof (Z_div_mod_eq_full (start + end_) 2). lia. }
    destruct (findTraceByID_in_range rowGroups mid traceID ltac:(lia))
      as (rg & st & _ & _ & Hfind).
    rewrite Hfind. cbn [bind].
    destruct (_ =? SearchPrevious).
    + apply IH; [lia | lia|]. specialize (Hhalf start (mid - 1) Hs Hl). lia.
    + destruct (Z.ltb_spec (fst (probe rg st traceID)) 0).
      * apply IH; [lia | lia|]. specialize (Hhalf (mid + 1) end_ ltac:(lia) Hr). lia.
      * eauto.
Qed.

Lemma binarySearch_total (rowGroups : list RowGroup)
    (traceID : string) :
  exists r,
    binarySearch (Z.to_nat (Z.log2 (len rowGroups) + 1)) (newRowTracker rowGroups)
                 0 (len rowGroups - 1) traceID = ret r /\
    binarySearch (S (length rowGroups)) (newRowTracker rowGroups)
                 0 (len rowGroups - 1) traceID = ret r /\
    (r = -1 \/ 0 <= r).
Proof.
  pose proof (Z.log2_nonneg (len rowGroups)) as Hlog.
  destruct (binarySearch_depth rowGroups traceID
              (Z.to_nat (Z.log2 (len rowGroups) + 1)) 0 (len rowGroups - 1))
    as (r & Hb & Hr); [lia | lia | |].
  { destruct (Z.ltb_spec (len rowGroups - 1) 0); [lia|].
    replace (len rowGroups - 1 - 0 + 1) with (len rowGroups) by lia. lia. }
  exists r. split; [exact Hb|]. split; [|exact Hr].
  apply (binarySearch_fuel _ _ _ _ _ _ _ Hb).
  destruct (Z.eq_dec (len rowGroups) 0) as [H0|H0].
  - rewrite H0. cbn. lia.
  - pose proof (Z.log2_lt_lin (len rowGroups) ltac:(unfold len in *; lia)).
    unfold len in *. lia.
Qed.

(** X15.  The lookup returns, and fast: on the row tracker of any file,
    [binarySearch] reads no row group out of range and its recursion is
    at most [log2 N + 1] calls deep for [N] row groups, one probe of a
    row group a call; the [N + 1] calls that the embedding allows in
    [FindTraceByID] are enough.  What it returns is -1 or a row number
    that is not negative. *)
Theorem binarySearch_returns_within_log2_calls (rowGroups : list RowGroup)
    (traceID : string) :
  exists r,
    binarySearch (Z.to_nat (Z.log2 (len rowGroups) + 1)) (newRowTracker rowGroups)
                 0 (len rowGroups - 1) traceID = ret r /\
    binarySearch (S (length rowGroups)) (newRowTracker rowGroups)
                 0 (len rowGroups - 1) traceID = ret r /\
    (r = -1 \/ 0 <= r).
Proof. apply binarySearch_total. Qed.

(** ** [FindTraceByID], from the bloom shard to the trace *)

(** X16.  Every trace of a sorted block is found.  When the bloom shard
    of the block admits the id and the file opens, in a block without
    bloom filters on the column chunks whose ids are sorted ascending
    and unique, [FindTraceByID] of the id of row [k] reads row [k] and
    returns the trace made of it; the failure of the row read, of the
    reconstruction and the error of the conversion are returned to the
    caller. *)
Theorem FindTraceByID_returns_the_trace_of_the_row (ID Row ParquetTrace Trace : Type)
    (hex : ID -> string) (b : backendBlock ID Row ParquetTrace Trace) (id : ID)
    (pf : File Row ParquetTrace) (k : nat) :
  checkBloom _ _ _ _ b id = (true, None) ->
  OpenFile _ _ _ _ b = Some pf ->
  Forall wfRowGroup (RowGroups _ _ pf) ->
  StronglySorted lt_id (blockValues (RowGroups _ _ pf)) ->
  nth_error (blockValues (RowGroups _ _ pf)) k = Some (hex id) ->
  FindTraceByID _ _ _ _ hex b id =
  ret (match ReadRow _ _ pf (Z.of_nat k) with
       | None => (None, Some RowReadFailed)
       | Some row =>
           match Reconstruct _ _ pf row with
           | None => (None, Some SchemaMismatch)
           | Some tr => parquetTraceToTempopbTrace _ _ _ _ b tr
           end
       end).
Proof.
  intros Hbloom Hopen Hwf Hsorted Hk. unfold FindTraceByID.
  rewrite Hbloom, Hopen.
  rewrite (binarySearch_hit _ _ _ Hwf Hsorted Hk). cbn [bind].
  destruct (Z.ltb_spec (Z.of_nat k) 0); [lia|].
  destruct (ReadRow _ _ pf (Z.of_nat k)); [|reflexivity].
  destruct (Reconstruct _ _ pf r); reflexivity.
Qed.

Lemma FindTraceByID_returns_the_trace_of_the_row_witness :
  FindTraceByID _ _ _ _ (fun s => s)
    (blockOf [rowGroupOf None [id1; id2]; rowGroupOf None [id3; id4; id5]]) id4
  = ret (Some 3, None).
Proof.
  apply (FindTraceByID_returns_the_trace_of_the_row _ _ _ _ (fun s => s)
           (blockOf [rowGroupOf None [id1; id2]; rowGroupOf None [id3; id4; id5]]) id4
           (fileOf [rowGroupOf None [id1; id2]; rowGroupOf None [id3; id4; id5]]) 3).
  - reflexivity.
  - reflexivity.
  - repeat constructor; cbn; congruence.
  - repeat constructor.
  - reflexivity.
Defined.

(** X17.  A trace that the block does not hold is not found, and that is
    no error: when the bloom shard admits the id (a false positive) and
    the file opens, [FindTraceByID] of an id that is no value of the
    block returns neither a trace nor an error, and reads no row; the
    search has returned -1. *)
Theorem FindTraceByID_of_an_absent_id (ID Row ParquetTrace Trace : Type)
    (hex : ID -> string) (b : backendBlock ID Row ParquetTrace Trace) (id : ID)
    (pf : File Row ParquetTrace) :
  checkBloom _ _ _ _ b id = (true, None) ->
  OpenFile _ _ _ _ b = Some pf ->
  ~ In (hex id) (blockValues (RowGroups _ _ pf)) ->
  FindTraceByID _ _ _ _ hex b id = ret (None, None) /\
  binarySearch (S (length (RowGroups _ _ pf))) (newRowTracker (RowGroups _ _ pf))
               0 (len (RowGroups _ _ pf) - 1) (hex id) = ret (-1).
Proof.
  intros Hbloom Hopen Habsent.
  destruct (binarySearch_miss _ _ Habsent) as [Hb _].
  split; [|exact Hb]. unfold FindTraceByID. rewrite Hbloom, Hopen, Hb. reflexivity.
Qed.

Lemma FindTraceByID_of_an_absent_id_witness :
  FindTraceByID _ _ _ _ (fun s => s)
    (blockOf [rowGroupOf None [id1; id2]; rowGroupOf None [id4; id5]]) id3
  = ret (None, None) /\
  binarySearch 3 (newRowTracker [rowGroupOf None [id1; id2]; rowGroupOf None [id4; id5]])
               0 (len [rowGroupOf None [id1; id2]; rowGroupOf None [id4; id5]] - 1) id3
  = ret (-1).
Proof.
  apply (FindTraceByID_of_an_absent_id _ _ _ _ (fun s => s)
           (blockOf [rowGroupOf None [id1; id2]; rowGroupOf None [id4; id5]]) id3
           (fileOf [rowGroupOf None [id1; id2]; rowGroupOf None [id4; id5]])).
  - reflexivity.
  - reflexivity.
  - cbn. intros [H|[H|[H|[H|[]]]]]; discriminate.
Defined.

(** X18.  [FindTraceByID] returns for every block and every id: the
    search reads no row group out of range.  Its failures come in the
    order of the code: a bloom shard that cannot be read or parsed is an
    error, whatever the file holds; a bloom shard that does not admit
    the id is a miss without an error, and the file is not opened, so a
    file that cannot be opened goes unnoticed; a file that cannot be
    opened is an error when the bloom shard admits the id. *)
Theorem FindTraceByID_returns_and_reports_failures (ID Row ParquetTrace Trace : Type)
    (hex : ID -> string) (b : backendBlock ID Row ParquetTrace Trace) (id : ID) :
  (exists res, FindTraceByID _ _ _ _ hex b id = ret res) /\
  (bloomRead _ _ _ _ b id = None ->
   FindTraceByID _ _ _ _ hex b id = ret (None, Some BloomUnavailable)) /\
  (forall bloomBytes,
     bloomRead _ _ _ _ b id = Some bloomBytes ->
     bloomParse _ _ _ _ b bloomBytes = None ->
     FindTraceByID _ _ _ _ hex b id = ret (None, Some BloomCorrupt)) /\
  (forall bloomBytes filter,
     bloomRead _ _ _ _ b id = Some bloomBytes ->
     bloomParse _ _ _ _ b bloomBytes = Some filter ->
     (filter id = false -> FindTraceByID _ _ _ _ hex b id = ret (None, None)) /\
     (filter id = true -> OpenFile _ _ _ _ b = None ->
      FindTraceByID _ _ _ _ hex b id = ret (None, Some ColumnarOpenFailed))).
Proof.
  split; [|split; [|split]].
  - unfold FindTraceByID.
    destruct (checkBloom _ _ _ _ b id) as [[|] [err|]]; eauto.
    destruct (OpenFile _ _ _ _ b) as [pf|]; eauto.
    destruct (binarySearch_total (RowGroups _ _ pf) (hex id)) as (r & _ & Hr & _).
    rewrite Hr. cbn [bind]. destruct (r <? 0); eauto.
    destruct (ReadRow _ _ pf r); eauto.
    destruct (Reconstruct _ _ pf r0); eauto.
  - unfold FindTraceByID, checkBloom. intros ->. reflexivity.
  - unfold FindTraceByID, checkBloom. intros bloomBytes -> ->. reflexivity.
  - unfold FindTraceByID, checkBloom. intros bloomBytes filter -> ->. split.
    + intros ->. reflexivity.
    + intros -> ->. reflexivity.
Qed.

(* ================================================================= *)
(** * Properties of the search of attributes *)

Lemma prefix_spec (sub s : string) :
  String.prefix sub s = true <-> exists q, s = String.append sub q.
Proof.
  revert s. induction sub as [|a sub IH]; intros s.
  - split; [intros _; exists s; reflexivity | intros _; destruct s; reflexivity].
  - destruct s as [|b s]; cbn.
    + split; [discriminate | intros [q H]; discriminate].
    + destruct (Ascii.ascii_dec a b) as [->|Hne].
      * rewrite IH. split; intros [q H]; exists q; congruence.
      * split; [discriminate | intros [q H]; congruence].
Qed.

Lemma strings_Contains_spec (s sub : string) :
  strings_Contains s sub = true <->
  exists p q, s = String.append p (String.append sub q).
Proof.
  induction s as [|c s IH]; cbn [strings_Contains]; rewrite orb_true_iff.
  - split.
    + intros [H|H]; [|discriminate]. apply prefix_spec in H. destruct H as [q H].
      exists EmptyString, q. exact H.
    + intros (p & q & H). left. apply prefix_spec.
      destruct p; [exists q; exact H | discriminate].
  - rewrite IH, prefix_spec. split.
    + intros [[q H]|(p & q & H)].
      * exists EmptyString, q. exact H.
      * exists (String c p), q. cbn. now rewrite H.
    + intros (p & q & H). destruct p as [|c' p].
      * left. exists q. exact H.
      * right. exists p, q. cbn in H. congruence.
Qed.

(** X19.  [searchAttributes] answers whether one of the attributes has a
    key of the tags whose tag value is within the string value of the
    attribute: one match is enough, the other tags need not match.  An
    attribute that is not a string has the empty string as its value,
    so it matches the tag of its key when the tag value is empty, and
    only then. *)
Theorem searchAttributes_finds_a_matching_attribute
    (tags : string -> option string) (atts : list KeyValue) :
  exists b,
    searchAttributes tags (map Some atts) = ret b /\
    (b = true <->
     exists a v p q,
       In a atts /\ tags (Key a) = Some v /\
       GetStringValue (Value a) = String.append p (String.append v q)) /\
    (forall a v,
       In a atts -> tags (Key a) = Some v ->
       (forall s, Value a <> Some (StringValue s)) ->
       v = EmptyString \/
       strings_Contains (GetStringValue (Value a)) v = false).
Proof.
  assert (Hother : forall a v,
            (forall s, Value a <> Some (StringValue s)) ->
            v = EmptyString \/ strings_Contains (GetStringValue (Value a)) v = false).
  { intros a v Hns.
    assert (Hg : GetStringValue (Value a) = EmptyString).
    { destruct (Value a) as [[s| | |]|]; try reflexivity. exfalso; eapply Hns; eauto. }
    rewrite Hg. destruct v; [now left | right; reflexivity]. }
  induction atts as [|a atts (b & Hb & Hiff & _)].
  - exists false. split; [reflexivity|]. split.
    + split; [discriminate | intros (a & v & p & q & [] & _)].
    + intros a v [].
  - cbn [map searchAttributes].
    destruct (tags (Key a)) as [v|] eqn:Ht.
    + destruct (strings_Contains (GetStringValue (Value a)) v) eqn:Hc.
      * exists true. split; [reflexivity|]. split; [|intros; now apply Hother].
        split; [|reflexivity]. intros _.
        apply strings_Contains_spec in Hc. destruct Hc as (p & q & Hpq).
        exists a, v, p, q. split; [now left | auto].
      * exists b. split; [exact Hb|]. split; [|intros; now apply Hother].
        rewrite Hiff. split.
        -- intros (a' & v' & p & q & Hin & Hk & Hv).
           exists a', v', p, q. split; [now right | auto].
        -- intros (a' & v' & p & q & [->|Hin] & Hk & Hv).
           ++ rewrite Ht in Hk. inversion Hk; subst v'.
              assert (strings_Contains (GetStringValue (Value a')) v = true)
                by (apply strings_Contains_spec; eauto).
              congruence.
           ++ exists a', v', p, q. auto.
    + exists b. split; [exact Hb|]. split; [|intros; now apply Hother].
      rewrite Hiff. split.
      * intros (a' & v' & p & q & Hin & Hk & Hv).
        exists a', v', p, q. split; [now right | auto].
      * intros (a' & v' & p & q & [->|Hin] & Hk & Hv); [congruence|].
        exists a', v', p, q. auto.
Qed.
